(** * Image references and the registry client of renku-notebooks

    A shallow embedding of [renku_notebooks/api/classes/image.py]:
    the reference parser [Image.from_path] with its nine regular
    expressions, and the registry client [ImageRepoDockerAPI] that
    talks to the docker HTTP API. *)

From Stdlib Require Import ZArith NArith Ascii String List Bool Lia DecimalString.
From stdpp Require Import base option list gmap strings fin_maps.

Set Warnings "-register-all".

(** ** Python values and exceptions *)

(** A decoded JSON document, as returned by [Response.json()].
    [JNull] is Python's [None]; a JSON object is kept as the list of its
    members, looked up by key. Numbers are restricted to integers. *)
Inductive json : Type :=
| JNull
| JBool (b : bool)
| JNum (n : Z)
| JStr (s : string)
| JArr (l : list json)
| JObj (members : list (string * json)).

(** The text of the messages of [ImageParseError], with the values that
    the f-strings interpolate. *)
Inductive parse_error : Type :=
| CannotParse (path : string)
| TooManyInterpretations (path : string) (matches : list (gmap string string))
| HostnameMismatch (image_hostname repo_hostname : string).

(** Exceptions raised by [requests.get]: only [requests.ConnectionError]
    (and its subclasses) is ever caught by the client. *)
Inductive request_error : Type :=
| ConnectionError
| OtherRequestException.

Inductive exn : Type :=
| ImageParseError (msg : parse_error)
| RequestError (e : request_error)
| JSONDecodeError
| KeyError (key : string)
| AttributeError
| TypeError.

Inductive res (A : Type) : Type :=
| Ret (a : A)
| Raise (e : exn).
Arguments Ret {A} a.
Arguments Raise {A} e.

(** ** Regular expressions, as much of Python's [re] as [from_path] uses *)

Module Re.

(** One item of a bracket expression: [a-z] or a single character. *)
Inductive item : Type :=
| Range (lo hi : ascii)
| One (c : ascii).

Definition charclass := list item.

Definition in_item (c : ascii) (i : item) : bool :=
  match i with
  | Range lo hi => (N_of_ascii lo <=? N_of_ascii c)%N && (N_of_ascii c <=? N_of_ascii hi)%N
  | One d => Ascii.eqb c d
  end.

Definition in_class (cls : charclass) (c : ascii) : bool :=
  existsb (in_item c) cls.

(** Zero-width positions that a lookaround tests: [^], [$] or a literal
    character next to the current position. *)
Inductive anchor : Type :=
| AtBol
| AtEol
| AtChr (c : ascii).

Inductive regex : Type :=
| Bol                                   (* ^ *)
| Eol                                   (* $ *)
| Chr (c : ascii)                       (* a literal character *)
| Rep1 (cls : charclass)                (* [cls]{1,}, greedy *)
| Cat (r1 r2 : regex)
| Alt (r1 r2 : regex)                   (* r1|r2 *)
| Behind (a : anchor)                   (* (?<=a) *)
| Ahead (a : anchor)                    (* (?=a) *)
| Named (name : string) (r : regex).    (* (?P<name>r) *)

(** The matcher's position: the character just consumed ([None] at the
    start of the string), the text still to read, and the named groups
    captured so far. *)
Record mstate : Type := MState {
  prev : option ascii;
  rest : string;
  groups : gmap string string
}.

Definition newline : ascii := "010"%char.

(** [$] without MULTILINE: at the end of the string, or just before a
    newline that ends the string. *)
Definition at_eol (s : string) : bool :=
  match s with
  | EmptyString => true
  | String c EmptyString => Ascii.eqb c newline
  | _ => false
  end.

Definition at_bol (p : option ascii) : bool :=
  match p with None => true | Some _ => false end.

Definition behind (a : anchor) (st : mstate) : bool :=
  match a with
  | AtBol => at_bol (prev st)
  | AtEol => at_eol (rest st)
  | AtChr c => match prev st with Some d => Ascii.eqb d c | None => false end
  end.

Definition ahead (a : anchor) (st : mstate) : bool :=
  match a with
  | AtBol => at_bol (prev st)
  | AtEol => at_eol (rest st)
  | AtChr c => match rest st with String d _ => Ascii.eqb d c | EmptyString => false end
  end.

(** All the ways [[cls]{1,}] can match at the head of [s], the longest
    first: the order in which a backtracking matcher tries them. Each
    result is the text consumed, its last character and what is left. *)
Fixpoint rep1 (cls : charclass) (s : string) : list (string * ascii * string) :=
  match s with
  | EmptyString => []
  | String c s' =>
      if in_class cls c
      then ((λ '(w, l, r), (String c w, l, r)) <$> rep1 cls s')
           ++ [(String c EmptyString, c, s')]
      else []
  end.

(** [run r st]: every match of [r] from [st], in the matcher's order of
    preference, each with the text it consumed. *)
Fixpoint run (r : regex) (st : mstate) : list (string * mstate) :=
  match r with
  | Bol => if at_bol (prev st) then [(EmptyString, st)] else []
  | Eol => if at_eol (rest st) then [(EmptyString, st)] else []
  | Chr c =>
      match rest st with
      | String d s' =>
          if Ascii.eqb d c
          then [(String d EmptyString, MState (Some d) s' (groups st))]
          else []
      | EmptyString => []
      end
  | Rep1 cls =>
      (λ '(w, l, s'), (w, MState (Some l) s' (groups st))) <$> rep1 cls (rest st)
  | Cat r1 r2 =>
      '(w1, st1) ← run r1 st;
      '(w2, st2) ← run r2 st1;
      [(w1 +:+ w2, st2)]
  | Alt r1 r2 => run r1 st ++ run r2 st
  | Behind a => if behind a st then [(EmptyString, st)] else []
  | Ahead a => if ahead a st then [(EmptyString, st)] else []
  | Named name r1 =>
      (λ '(w, st1), (w, MState (prev st1) (rest st1) (<[name := w]> (groups st1))))
        <$> run r1 st
  end.

(** [regex.match(path)] followed by [.groupdict()]: the groups of the
    first match found from the start of the string. *)
Definition re_match (r : regex) (path : string) : option (gmap string string) :=
  match run r (MState None path ∅) with
  | [] => None
  | (_, st) :: _ => Some (groups st)
  end.

End Re.

(** ** [Image] and [Image.from_path] *)

Record Image : Type := mkImage {
  hostname : string;
  name : string;
  tag : string
}.

Module Grammar.
Import Re.

Definition build_re (parts : list regex) : regex :=
  Cat Bol (foldr Cat Eol parts).

Definition alnum : charclass := [Range "a" "z"; Range "A" "Z"; Range "0" "9"].

(** [(?:(?<=\/)|(?<=^))] *)
Definition after_slash_or_start : regex := Alt (Behind (AtChr "/")) (Behind AtBol).
(** [(?:(?=:)|(?=@)|(?=$))] *)
Definition before_colon_at_or_end : regex :=
  Alt (Ahead (AtChr ":")) (Alt (Ahead (AtChr "@")) (Ahead AtEol)).

Definition hostname_cls1 : charclass := [Range "a" "z"; Range "A" "Z"; Range "0" "9"; One "_"; One "-"].
Definition hostname_cls2 : charclass := [Range "a" "z"; Range "A" "Z"; Range "0" "9"; One "."; One "_"; One "-"; One ":"].
Definition username_cls : charclass := [Range "a" "z"; Range "A" "Z"; Range "0" "9"; One "."; One "_"; One "-"].
Definition docker_image_cls : charclass := [Range "a" "z"; Range "A" "Z"; Range "0" "9"; One "."; One "_"; One "-"].
Definition image_cls : charclass := [Range "a" "z"; Range "A" "Z"; Range "0" "9"; One "."; One "_"; One "-"; One "/"].
Definition sha_cls : charclass := [Range "a" "z"; Range "A" "Z"; Range "0" "9"; One "."; One "_"; One "-"; One ":"].
Definition tag_cls : charclass := [Range "a" "z"; Range "A" "Z"; Range "0" "9"; One "."; One "_"; One "-"].

Definition hostname : regex :=
  Named "hostname"
    (Cat (Behind AtBol)
      (Cat (Rep1 hostname_cls1) (Cat (Chr ".") (Cat (Rep1 hostname_cls2) (Ahead (AtChr "/")))))).
Definition docker_username : regex :=
  Named "username" (Cat (Behind AtBol) (Cat (Rep1 alnum) (Ahead (AtChr "/")))).
Definition username : regex :=
  Named "username" (Cat (Behind (AtChr "/")) (Cat (Rep1 username_cls) (Ahead (AtChr "/")))).
Definition docker_image : regex :=
  Named "image" (Cat after_slash_or_start (Cat (Rep1 docker_image_cls) before_colon_at_or_end)).
Definition image : regex :=
  Named "image" (Cat after_slash_or_start (Cat (Rep1 image_cls) before_colon_at_or_end)).
Definition sha : regex :=
  Named "tag" (Cat (Behind (AtChr "@")) (Cat (Rep1 sha_cls) (Ahead AtEol))).
Definition tag : regex :=
  Named "tag" (Cat (Behind (AtChr ":")) (Cat (Rep1 tag_cls) (Ahead AtEol))).

Definition slash : regex := Chr "/".
Definition colon : regex := Chr ":".
Definition at_sign : regex := Chr "@".

Definition dict (l : list (string * string)) : gmap string string := list_to_map l.

(** The list of pairs (regex, defaults to fill in case of match). *)
Definition regexes : list (regex * gmap string string) :=
  [ (* nginx *)
    (build_re [docker_image],
     dict [("hostname", "registry-1.docker.io"); ("username", "library"); ("tag", "latest")]);
    (* username/image *)
    (build_re [docker_username; slash; docker_image],
     dict [("hostname", "registry-1.docker.io"); ("tag", "latest")]);
    (* nginx:1.28 *)
    (build_re [docker_image; colon; tag],
     dict [("hostname", "registry-1.docker.io"); ("username", "library")]);
    (* username/image:1.0.0 *)
    (build_re [docker_username; slash; docker_image; colon; tag],
     dict [("hostname", "registry-1.docker.io")]);
    (* nginx@sha256:24235rt2rewg345ferwf *)
    (build_re [docker_image; at_sign; sha],
     dict [("hostname", "registry-1.docker.io"); ("username", "library")]);
    (* username/image@sha256:fdsaf345tre3412t1413r *)
    (build_re [docker_username; slash; docker_image; at_sign; sha],
     dict [("hostname", "registry-1.docker.io")]);
    (* gitlab.com/username/project, gitlab.com/username/project/image/subimage *)
    (build_re [hostname; slash; username; slash; image], dict [("tag", "latest")]);
    (* gitlab.com/username/project:1.2.3 *)
    (build_re [hostname; slash; username; slash; image; colon; tag], dict []);
    (* gitlab.com/username/project@sha256:324fet13t4 *)
    (build_re [hostname; slash; username; slash; image; at_sign; sha], dict []) ].

End Grammar.

(** [d[key]]: raises [KeyError] when the key is missing. *)
Definition getitem (d : gmap string string) (key : string) : res string :=
  match d !! key with
  | Some v => Ret v
  | None => Raise (KeyError key)
  end.

#[global] Instance res_bind : MBind res := λ A B f m,
  match m with
  | Ret a => f a
  | Raise e => Raise e
  end.

(** The body of the loop of [from_path] for a regex that matched:
    fill in the defaults and lump the username into the image name. *)
Definition lump (match_dict fill : gmap string string) : res (gmap string string) :=
  let d := fill ∪ match_dict in
  u ← getitem d "username";
  i ← getitem d "image";
  Ret (delete "username" (<["image" := u +:+ "/" +:+ i]> d)).

Fixpoint collect (path : string) (rs : list (Re.regex * gmap string string))
    (matches : list (gmap string string)) : res (list (gmap string string)) :=
  match rs with
  | [] => Ret matches
  | (regex, fill) :: rs' =>
      match Re.re_match regex path with
      | Some match_dict =>
          d ← lump match_dict fill;
          collect path rs' (matches ++ [d])
      | None => collect path rs' matches
      end
  end.

Definition from_path (path : string) : res Image :=
  matches ← collect path Grammar.regexes [];
  match matches with
  | [m] =>
      h ← getitem m "hostname";
      i ← getitem m "image";
      t ← getitem m "tag";
      Ret (mkImage h i t)
  | _ :: _ :: _ => Raise (ImageParseError (TooManyInterpretations path matches))
  | [] => Raise (ImageParseError (CannotParse path))
  end.

(** The string that the session launcher (notebooks.py) builds next to
    the [Image] it constructs by hand: [f"{registry}/{path}:{tag}"]. *)
Definition image_string (i : Image) : string :=
  hostname i +:+ "/" +:+ name i +:+ ":" +:+ tag i.

(** ** Python helpers used by the registry client *)

(** Truthiness of a decoded value ([if token:]). *)
Definition py_bool (v : json) : bool :=
  match v with
  | JNull => false
  | JBool b => b
  | JNum n => negb (n =? 0)%Z
  | JStr s => negb (String.eqb s "")
  | JArr l => match l with [] => false | _ => true end
  | JObj m => match m with [] => false | _ => true end
  end.

Definition is_none (v : json) : bool :=
  match v with JNull => true | _ => false end.

Fixpoint assoc (key : string) (members : list (string * json)) : option json :=
  match members with
  | [] => None
  | (k, v) :: rest => if String.eqb k key then Some v else assoc key rest
  end.

(** [v.get(key, dflt)]: only a dict has [get]. *)
Definition py_get (v : json) (key : string) (dflt : json) : res json :=
  match v with
  | JObj members => Ret (default dflt (assoc key members))
  | _ => Raise AttributeError
  end.

(** [str.lower] on ASCII letters, the key under which requests'
    [CaseInsensitiveDict] stores a header. *)
Definition lower_char (c : ascii) : ascii :=
  let n := N_of_ascii c in
  if (65 <=? n)%N && (n <=? 90)%N then ascii_of_N (n + 32) else c.

Fixpoint lower (s : string) : string :=
  match s with
  | EmptyString => EmptyString
  | String c s' => String (lower_char c) (lower s')
  end.

(** [base64.urlsafe_b64encode] *)
Definition b64_alphabet : string :=
  "ABCDEFGHIJKLMNOPQRSTUVWXYZabcdefghijklmnopqrstuvwxyz0123456789-_".

Definition b64_digit (n : N) : ascii :=
  default "="%char (String.get (N.to_nat n) b64_alphabet).

Fixpoint urlsafe_b64encode (s : string) : string :=
  let d := b64_digit in
  let n := N_of_ascii in
  match s with
  | EmptyString => EmptyString
  | String a EmptyString =>
      String (d (n a / 4)) (String (d (n a mod 4 * 16)) "==")
  | String a (String b EmptyString) =>
      String (d (n a / 4)) (String (d (n a mod 4 * 16 + n b / 16))
        (String (d (n b mod 16 * 4)) "="))
  | String a (String b (String c s')) =>
      String (d (n a / 4)) (String (d (n a mod 4 * 16 + n b / 16))
        (String (d (n b mod 16 * 4 + n c / 64)) (String (d (n c mod 64))
          (urlsafe_b64encode s'))))
  end%N.

(** ** Paths ([pathlib]) *)

(** [s.lstrip(c)] *)
Fixpoint py_lstrip (c : ascii) (s : string) : string :=
  match s with
  | String a s' => if Ascii.eqb a c then py_lstrip c s' else s
  | EmptyString => s
  end.

(** [s.split(c)] *)
Fixpoint py_split (c : ascii) (s : string) : list string :=
  match s with
  | EmptyString => [EmptyString]
  | String a s' =>
      if Ascii.eqb a c then EmptyString :: py_split c s'
      else match py_split c s' with
           | w :: ws => String a w :: ws
           | [] => [String a EmptyString]
           end
  end.

(** [sep.join(ws)] *)
Fixpoint py_join (sep : string) (ws : list string) : string :=
  match ws with
  | [] => EmptyString
  | [w] => w
  | w :: ws' => w +:+ sep +:+ py_join sep ws'
  end.

(** A [pathlib.Path] on POSIX, as pathlib keeps it: the root (none,
    [/] or [//]) and the components. Two paths are equal when these
    are. *)
Record PosixPath : Type := mkPosixPath {
  root : string;
  parts : list string
}.

(** [Path(s)]. The root is what stands in front of the first
    component: two leading slashes are kept, any other number of them is
    one slash. Of the text behind it, split at the slashes, the empty
    components and the components [.] are dropped. *)
Definition Path (s : string) : PosixPath :=
  let stripped_part := py_lstrip "/" s in
  let root :=
    match s with
    | String "/" _ =>
        if String.length s - String.length stripped_part =? 2 then "//" else "/"
    | _ => ""
    end in
  mkPosixPath root
    (filter (λ x, x ≠ EmptyString ∧ x ≠ ".") (py_split "/" stripped_part)).

(** [str(path)] *)
Definition path_str (p : PosixPath) : string :=
  match root p +:+ py_join "/" (parts p) with
  | EmptyString => "."
  | s => s
  end.

(** ** The registry as seen through [requests] *)

Record Request : Type := mkRequest {
  url : string;
  params : gmap string string;
  req_headers : gmap string string
}.

#[global] Instance Request_eq_dec : EqDecision Request.
Proof. solve_decision. Defined.

(** A response: its status, its headers under lower-cased names, and the
    document its body decodes to ([None] when [.json()] raises). *)
Record Response : Type := mkResponse {
  status_code : Z;
  headers : gmap string string;
  body : option json
}.

Inductive outcome : Type :=
| Answer (r : Response)
| Fails (e : request_error).

(** What the outside world answers to a request, given the requests
    that were issued before it. *)
Definition registry : Type := list Request → Request → outcome.

(** The parsed [WWW-Authenticate] header of werkzeug. *)
Record WWWAuthenticate : Type := mkWWWAuthenticate {
  auth_type : string;
  parameters : gmap string string
}.

(** A computation of the client: it reads the requests issued so far,
    extends them with its own and returns a value or raises. *)
Definition M (A : Type) : Type := list Request → res A * list Request.

#[global] Instance M_ret : MRet M := λ A a tr, (Ret a, tr).
#[global] Instance M_bind : MBind M := λ A B f m tr,
  match m tr with
  | (Ret a, tr') => f a tr'
  | (Raise e, tr') => (Raise e, tr')
  end.

Definition raise {A : Type} (e : exn) : M A := λ tr, (Raise e, tr).

Definition lift {A : Type} (r : res A) : M A := λ tr, (r, tr).

(** [try: m except requests.ConnectionError: handler] *)
Definition try_except_ConnectionError {A : Type} (m handler : M A) : M A := λ tr,
  match m tr with
  | (Raise (RequestError ConnectionError), tr') => handler tr'
  | r => r
  end.

Module ManifestTypes.
Definition docker_v2 : string := "application/vnd.docker.distribution.manifest.v2+json".
Definition oci_v1 : string := "application/vnd.oci.image.manifest.v1+json".
End ManifestTypes.

Record ImageRepoDockerAPI : Type := mkImageRepoDockerAPI {
  repo_hostname : string;            (* the field [hostname] *)
  oauth2_token : option string
}.

Section Client.

(** The registry, werkzeug's [WWWAuthenticate.from_header] and Python's
    [str()] of a list or dict are taken as given. *)
Variable net : registry.
Variable from_header : string → option WWWAuthenticate.
Variable str_of_container : json → string.

(** [f"{v}"] *)
Definition py_str (v : json) : string :=
  match v with
  | JNull => "None"
  | JBool true => "True"
  | JBool false => "False"
  | JNum n => NilZero.string_of_int (Z.to_int n)
  | JStr s => s
  | JArr _ | JObj _ => str_of_container v
  end.

Definition requests_get (req : Request) : M Response := λ tr,
  match net tr req with
  | Answer r => (Ret r, tr ++ [req])
  | Fails e => (Raise (RequestError e), tr ++ [req])
  end.

(** [res.json()] *)
Definition json_of (r : Response) : M json :=
  match body r with
  | Some v => mret v
  | None => raise JSONDecodeError
  end.

Definition manifest_url (host : string) (image : Image) : string :=
  "https://" +:+ host +:+ "/v2/" +:+ name image +:+ "/manifests/" +:+ tag image.

Definition _get_docker_token (self : ImageRepoDockerAPI) (image : Image) : M json :=
  let image_digest_url := manifest_url (repo_hostname self) image in
  auth_req ← try_except_ConnectionError
                (r ← requests_get (mkRequest image_digest_url ∅ ∅); mret (Some r))
                (mret None);
  match auth_req with
  | None => mret JNull
  | Some auth_req =>
      if negb ((status_code auth_req =? 401)%Z
               && bool_decide (is_Some (headers auth_req !! lower "Www-Authenticate")))
      then (* the request status code and header are not what is expected *)
        mret JNull
      else
        value ← lift (getitem (headers auth_req) (lower "Www-Authenticate"));
        www_auth ← match from_header value with
                   | Some www_auth => mret www_auth
                   | None => raise AttributeError
                   end;
        let params := parameters www_auth in
        realm ← lift (getitem params "realm");
        let params := delete "realm" params in
        let headers : gmap string string := {[ "Accept" := "application/json" ]} in
        let headers :=
          match oauth2_token self with
          | Some t =>
              if negb (String.eqb t "")
              then <["Authorization" := "Basic " +:+ urlsafe_b64encode ("oauth2:" +:+ t)]> headers
              else headers
          | None => headers
          end in
        token_req ← requests_get (mkRequest realm params headers);
        doc ← json_of token_req;
        lift (py_get doc "token" JNull)
  end.

Definition get_image_manifest (self : ImageRepoDockerAPI) (image : Image) : M json :=
  if negb (String.eqb (hostname image) (repo_hostname self))
  then raise (ImageParseError (HostnameMismatch (hostname image) (repo_hostname self)))
  else
    token ← _get_docker_token self image;
    let image_digest_url := manifest_url (hostname image) image in
    let headers : gmap string string := {[ "Accept" := ManifestTypes.docker_v2 ]} in
    let headers :=
      if py_bool token then <["Authorization" := "Bearer " +:+ py_str token]> headers
      else headers in
    res ← requests_get (mkRequest image_digest_url ∅ headers);
    res ← (if negb (status_code res =? 200)%Z
           then requests_get (mkRequest image_digest_url ∅
                                (<["Accept" := ManifestTypes.oci_v1]> headers))
           else mret res);
    if negb (status_code res =? 200)%Z then mret JNull else json_of res.

Definition image_exists (self : ImageRepoDockerAPI) (image : Image) : M bool :=
  manifest ← get_image_manifest self image;
  mret (negb (is_none manifest)).

Definition get_image_config (self : ImageRepoDockerAPI) (image : Image) : M json :=
  manifest ← get_image_manifest self image;
  if is_none manifest then mret JNull else
  config ← lift (py_get manifest "config" (JObj []));
  config_digest ← lift (py_get config "digest" JNull);
  if is_none config_digest then mret JNull else
  token ← _get_docker_token self image;
  res ← requests_get
          (mkRequest
             ("https://" +:+ hostname image +:+ "/v2/" +:+ name image +:+ "/blobs/"
                +:+ py_str config_digest)
             ∅
             (<["Authorization" := "Bearer " +:+ py_str token]>
                {[ "Accept" := "application/json" ]}));
  if negb (status_code res =? 200)%Z then mret JNull else json_of res.

Definition image_workdir (self : ImageRepoDockerAPI) (image : Image) : M (option PosixPath) :=
  config ← get_image_config self image;
  if is_none config then mret None else
  nested_config ← lift (py_get config "config" (JObj []));
  if is_none nested_config then mret None else
  workdir ← lift (py_get nested_config "WorkingDir" (JStr "/"));
  let workdir := match workdir with JStr EmptyString => JStr "/" | _ => workdir end in
  match workdir with
  | JStr s => mret (Some (Path s))
  | _ => raise TypeError
  end.

(** The launcher's [image_repo.image_workdir(parsed_image) or Path("/")]. *)
Definition image_work_dir (self : ImageRepoDockerAPI) (image : Image) : M PosixPath :=
  workdir ← image_workdir self image;
  mret (default (Path "/") workdir).

End Client.

Definition repo_api (self : Image) : ImageRepoDockerAPI :=
  mkImageRepoDockerAPI (hostname self) None.

(** ** Instances of [ImageRepoDockerAPI] as objects

    A dataclass instance is a mutable object. The store keeps the
    instances in allocation order; a reference is an index into it. *)
Module Store.

Abbreviation store := (list ImageRepoDockerAPI).
Abbreviation ref := nat.

(** Calling the constructor allocates a new object. *)
Definition new (h : store) (o : ImageRepoDockerAPI) : store * ref :=
  (h ++ [o], length h).

Definition with_oauth2_token (h : store) (self : ref) (oauth2_token : string)
    : option (store * ref) :=
  o ← h !! self;
  Some (new h (mkImageRepoDockerAPI (repo_hostname o) (Some oauth2_token))).

End Store.

Arguments urlsafe_b64encode : simpl never.
Arguments Path : simpl never.
Arguments lower : simpl never.

(** ** The callers of the client in [renku_notebooks/api/notebooks.py] *)

(** [ImageRepoDockerAPI.with_oauth2_token] on values: the fields of the
    instance that it constructs. *)
Definition with_oauth2_token (self : ImageRepoDockerAPI) (oauth2_token : string)
    : ImageRepoDockerAPI :=
  mkImageRepoDockerAPI (repo_hostname self) (Some oauth2_token).

(** Truthiness of a string that may be [None] ([if image:],
    [and user.git_token]). *)
Definition py_bool_str (s : option string) : bool :=
  match s with
  | Some s => negb (String.eqb s "")
  | None => false
  end.

(** [s[:n]] *)
Fixpoint py_take (n : nat) (s : string) : string :=
  match n, s with
  | S n', String c s' => String c (py_take n' s')
  | _, _ => EmptyString
  end.

Module Notebooks.

(** What [launch_notebook] reads of the GitLab project: its path, and
    whether [getattr(gl_project, "visibility", GitlabVisibility.PUBLIC)]
    differs from [GitlabVisibility.PUBLIC]. *)
Record Project : Type := mkProject {
  path_with_namespace : string;
  not_public : bool
}.

(** The local variables that the statements of [launch_notebook] on
    the image leave behind. *)
Record Selection : Type := mkSelection {
  image : string;
  parsed_image : Image;
  image_repo : ImageRepoDockerAPI;
  using_default_image : bool;
  is_image_private : bool
}.

Inductive launch_error : Type :=
| MissingResourceError (image : string).

Section Views.

Variable net : registry.
Variable from_header : string → option WWWAuthenticate.
Variable str_of_container : json → string.

(** [config.git.registry] and [config.sessions.default_image] *)
Variable git_registry : string.
Variable default_image : string.

(** The view [check_docker_image(user, image_url)]; of the user it
    reads [user.git_token]. *)
Definition check_docker_image (git_token : option string) (image_url : string)
    : M (string * Z) :=
  parsed_image ← lift (from_path image_url);
  let image_repo := repo_api parsed_image in
  let image_repo :=
    if String.eqb (hostname parsed_image) git_registry && py_bool_str git_token
    then with_oauth2_token image_repo (default "" git_token)
    else image_repo in
  found ← image_exists net from_header str_of_container image_repo parsed_image;
  if (found : bool) then mret (""%string, 200%Z) else mret (""%string, 404%Z).

(** The statements of [launch_notebook] that settle the image of the
    session, from [is_image_private = False] to the check that the image
    built for the commit exists. The result is what they assign, or the
    [MissingResourceError] that they raise. *)
Definition launch_notebook_image (git_token : option string) (gl_project : option Project)
    (commit_sha : string) (image : option string) : M (launch_error + Selection) :=
  let image_exists := image_exists net from_header str_of_container in
  if py_bool_str image then
    (* A specific image was requested *)
    let image := default "" image in
    parsed_image ← lift (from_path image);
    let image_repo := repo_api parsed_image in
    image_exists_publicaly ← image_exists image_repo parsed_image;
    '(image_repo, image_exists_privately) ←
      (if negb image_exists_publicaly
          && String.eqb (hostname parsed_image) git_registry
          && py_bool_str git_token
       then
         let image_repo := with_oauth2_token image_repo (default "" git_token) in
         image_exists_privately ← image_exists image_repo parsed_image;
         mret (image_repo, image_exists_privately)
       else mret (image_repo, false));
    '(using_default_image, image, parsed_image) ←
      (if negb image_exists_privately && negb image_exists_publicaly
       then
         parsed_image ← lift (from_path default_image);
         mret (true, default_image, parsed_image)
       else mret (false, image, parsed_image));
    mret (inr (mkSelection image parsed_image image_repo using_default_image
                 image_exists_privately))
  else
    (* An image was not requested specifically, use the one built for the commit *)
    match gl_project with
    | None => raise AttributeError
    | Some gl_project =>
        let path := lower (path_with_namespace gl_project) in
        let image := git_registry +:+ "/" +:+ path +:+ ":" +:+ py_take 7 commit_sha in
        let parsed_image := mkImage git_registry path (py_take 7 commit_sha) in
        let is_image_private := not_public gl_project in
        let image_repo := repo_api parsed_image in
        let image_repo :=
          if is_image_private && py_bool_str git_token
          then with_oauth2_token image_repo (default "" git_token)
          else image_repo in
        found ← image_exists image_repo parsed_image;
        if negb found then mret (inl (MissingResourceError image))
        else mret (inr (mkSelection image parsed_image image_repo false is_image_private))
    end.

End Views.

(** The two messages of the [UserInputError] that the checks of
    [launch_notebook] on the cloud storage raise. *)
Inductive mount_error : Type :=
| MountPointsNotSetOrNotUnique
| MountIntoMountPoint.

Section CloudStorage.

(** The objects that [create_cloud_storage_object] returns, with their
    property [mount_folder] and their [!=]. *)
Context {T : Type}.
Variable mount_folder : T → string.
Variable ne : T → T → bool.

(** [set(s.mount_folder for s in cloudstorage
         if s.mount_folder and s.mount_folder != "/")] *)
Definition mount_points (cloudstorage : list T) : gset string :=
  list_to_set
    (mount_folder <$>
       filter (λ s, mount_folder s ≠ ""%string ∧ mount_folder s ≠ "/"%string) cloudstorage).

(** [any(s1.mount_folder.startswith(s2.mount_folder)
         for s1 in cloudstorage for s2 in cloudstorage if s1 != s2)] *)
Definition mounted_into_another (cloudstorage : list T) : bool :=
  existsb (λ s1,
    existsb (λ s2, ne s1 s2 && String.prefix (mount_folder s2) (mount_folder s1))
      cloudstorage)
    cloudstorage.

(** The two checks of [launch_notebook] on the mount points, in their
    order; [None] when neither raises. *)
Definition check_mount_points (cloudstorage : list T) : option mount_error :=
  if negb (size (mount_points cloudstorage) =? length cloudstorage)
  then Some MountPointsNotSetOrNotUnique
  else if mounted_into_another cloudstorage then Some MountIntoMountPoint
  else None.

End CloudStorage.

End Notebooks.

(** ** [flatten_dict] of [renku_notebooks/api/schemas.py] *)

Module Schemas.

(** A Python dict is kept as the list of its items, in insertion order.
    [d[key] = value] replaces the value of a key where it stands and
    puts a new key last. *)
Fixpoint setitem (d : list (string * json)) (key : string) (value : json)
    : list (string * json) :=
  match d with
  | [] => [(key, value)]
  | (k, v) :: d' =>
      if String.eqb k key then (k, value) :: d' else (k, v) :: setitem d' key value
  end.

(** [dict(items)] *)
Definition dict (items : list (string * json)) : list (string * json) :=
  foldl (λ d kv, setitem d kv.1 kv.2) [] items.

(** [parent_key + sep + k if parent_key else k] *)
Definition new_key (parent_key sep k : string) : string :=
  if negb (String.eqb parent_key "") then parent_key +:+ sep +:+ k else k.

(** What one turn of the loop adds to [items] for a value [v] whose
    flattened key is [key]: the items of [flatten_dict(v, key, sep=sep)]
    when [v] is a mapping, and the pair [(key, v)] otherwise. The inner
    [loop] is the [for k, v in d.items()] of that call. *)
Fixpoint extend (v : json) (key sep : string) : list (string * json) :=
  match v with
  | JObj d =>
      dict ((fix loop (d : list (string * json)) : list (string * json) :=
               match d with
               | [] => []
               | (k, v) :: d' => extend v (new_key key sep k) sep ++ loop d'
               end) d)
  | _ => [(key, v)]
  end.

Definition flatten_dict (d : list (string * json)) (parent_key sep : string)
    : list (string * json) :=
  extend (JObj d) parent_key sep.

End Schemas.

(** ** [env] of [renku_notebooks/api/amalthea_patches/jupyter_server.py] *)

Module JupyterServer.

(** What [env] reads of a [UserServer]. [notebook_dir] stands for
    [server.work_dir.absolute().as_posix()], [gl_project_path] for
    [server.gl_project.path], and [environment_variables] for the items
    of the dict of that name, in order; [None] and the empty dict are
    both the empty list. *)
Record UserServer : Type := mkUserServer {
  username : string;
  commit_sha : string;
  notebook_dir : string;
  gl_project_path : string;
  server_url : string;
  project : string;
  environment_variables : list (string * string)
}.

Inductive env_error : Type :=
| OverriddenEnvironmentVariableError (key : string).

(** One operation of the JSON patch: add a variable to the environment
    of the first container of the statefulset. *)
Definition add_env (name value : string) : json :=
  JObj [("op", JStr "add");
        ("path", JStr "/statefulset/spec/template/spec/containers/0/env/-");
        ("value", JObj [("name", JStr name); ("value", JStr value)])].

(** The dict [env_vars]: the names and values of the initial
    [patch_list]. *)
Definition env_vars (server : UserServer) : list (string * string) :=
  [("RENKU_USERNAME", username server);
   ("CI_COMMIT_SHA", commit_sha server);
   ("NOTEBOOK_DIR", notebook_dir server);
   ("MOUNT_PATH", "/work/" +:+ gl_project_path server);
   ("SESSION_URL", server_url server);
   ("PROJECT_NAME", project server);
   ("GIT_CLONE_REPO", "true")].

Fixpoint lookup_var (key : string) (vars : list (string * string)) : option string :=
  match vars with
  | [] => None
  | (k, v) :: vars' => if String.eqb k key then Some v else lookup_var key vars'
  end.

(** The loop over [server.environment_variables.items()]. *)
Fixpoint env_loop (env_vars items : list (string * string)) (patch_list : list json)
    : env_error + list json :=
  match items with
  | [] => inr patch_list
  | (key, value) :: items' =>
      match lookup_var key env_vars with
      | Some reserved =>
          if negb (String.eqb value reserved)
          then inl (OverriddenEnvironmentVariableError key)
          else env_loop env_vars items' (patch_list ++ [add_env key value])
      | None => env_loop env_vars items' (patch_list ++ [add_env key value])
      end
  end.

Definition env (server : UserServer) : env_error + list json :=
  let patch_list := (λ kv, add_env kv.1 kv.2) <$> env_vars server in
  match env_loop (env_vars server) (environment_variables server) patch_list with
  | inl e => inl e
  | inr patch_list =>
      inr [JObj [("type", JStr "application/json-patch+json"); ("patch", JArr patch_list)]]
  end.

End JupyterServer.

(** * Vocabulary of the properties *)

(** ** The client *)

Section ClientVocabulary.

Variable net : registry.
Variable from_header : string → option WWWAuthenticate.
Variable str_of_container : json → string.

(** A computation only ever appends to the requests issued. *)
Definition extends {A : Type} (m : M A) : Prop :=
  ∀ tr, ∃ tr', (m tr).2 = tr ++ tr'.

(** [m] raises only exceptions that satisfy [P]. *)
Definition raises_only {A : Type} (P : exn → Prop) (m : M A) : Prop :=
  ∀ tr e, (m tr).1 = Raise e → P e.

(** The unauthenticated request that opens every token exchange. *)
Definition probe (self : ImageRepoDockerAPI) (image : Image) : Request :=
  mkRequest (manifest_url (repo_hostname self) image) ∅ ∅.

Definition not_parse_error (e : exn) : Prop := ∀ msg, e ≠ ImageParseError msg.

(** The headers of a manifest request: the media type asked for and,
    when the token is truthy, the bearer authorization. *)
Definition manifest_headers (token : json) (accept : string) : gmap string string :=
  <["Accept" := accept]>
    (if py_bool token
     then {[ "Authorization" := "Bearer " +:+ py_str str_of_container token ]}
     else ∅).

Definition manifest_request (image : Image) (token : json) (accept : string) : Request :=
  mkRequest (manifest_url (hostname image) image) ∅ (manifest_headers token accept).

(** The headers of the request to the realm. *)
Definition token_headers (self : ImageRepoDockerAPI) : gmap string string :=
  match oauth2_token self with
  | Some t =>
      if negb (String.eqb t "")
      then <["Authorization" := "Basic " +:+ urlsafe_b64encode ("oauth2:" +:+ t)]>
             {[ "Accept" := "application/json" ]}
      else {[ "Accept" := "application/json" ]}
  | None => {[ "Accept" := "application/json" ]}
  end.

Definition token_request (self : ImageRepoDockerAPI) (www_auth : WWWAuthenticate)
    (realm : string) : Request :=
  mkRequest realm (delete "realm" (parameters www_auth)) (token_headers self).

(** The probe was answered by a 401 that carries the header. *)
Definition challenged (tr : list Request) (self : ImageRepoDockerAPI) (image : Image)
    (value : string) : Prop :=
  ∃ auth_req, net tr (probe self image) = Answer auth_req
              ∧ status_code auth_req = 401%Z
              ∧ headers auth_req !! "www-authenticate" = Some value.

(** [manifest.get("config", {}).get("digest")] *)
Definition config_digest (manifest : json) : res json :=
  config ← py_get manifest "config" (JObj []);
  py_get config "digest" JNull.

Definition blob_request (image : Image) (digest token : json) : Request :=
  mkRequest
    ("https://" +:+ hostname image +:+ "/v2/" +:+ name image +:+ "/blobs/"
       +:+ py_str str_of_container digest)
    ∅
    (<["Authorization" := "Bearer " +:+ py_str str_of_container token]>
       {[ "Accept" := "application/json" ]}).

(** The manifest names a config digest, a token exchange followed, and
    the registry answered the request for the blob with [r]; [tr'] are
    the requests issued up to and including that one. *)
Definition blob_answered (self : ImageRepoDockerAPI) (image : Image)
    (tr : list Request) (r : Response) (tr' : list Request) : Prop :=
  ∃ manifest tr1 digest token tr2,
    get_image_manifest net from_header str_of_container self image tr = (Ret manifest, tr1)
    ∧ is_none manifest = false
    ∧ config_digest manifest = Ret digest
    ∧ is_none digest = false
    ∧ _get_docker_token net from_header self image tr1 = (Ret token, tr2)
    ∧ net tr2 (blob_request image digest token) = Answer r
    ∧ tr' = tr2 ++ [blob_request image digest token].

(** The same, but the request for the blob failed with [e]. *)
Definition blob_failed (self : ImageRepoDockerAPI) (image : Image)
    (tr : list Request) (e : request_error) (tr' : list Request) : Prop :=
  ∃ manifest tr1 digest token tr2,
    get_image_manifest net from_header str_of_container self image tr = (Ret manifest, tr1)
    ∧ is_none manifest = false
    ∧ config_digest manifest = Ret digest
    ∧ is_none digest = false
    ∧ _get_docker_token net from_header self image tr1 = (Ret token, tr2)
    ∧ net tr2 (blob_request image digest token) = Fails e
    ∧ tr' = tr2 ++ [blob_request image digest token].

End ClientVocabulary.

(** ** The matcher *)

Module ReSpec.
Import Re.

Fixpoint all_in (cls : charclass) (w : string) : bool :=
  match w with
  | EmptyString => true
  | String c w' => in_class cls c && all_in cls w'
  end.

(** A non-empty run of characters of a class: what [[cls]{1,}] consumes. *)
Definition word (cls : charclass) (w : string) : Prop :=
  w ≠ EmptyString ∧ all_in cls w = true.

Fixpoint count_char (c : ascii) (w : string) : nat :=
  match w with
  | EmptyString => 0
  | String d w' => (if Ascii.eqb d c then 1 else 0) + count_char c w'
  end.

Fixpoint last_char (d : ascii) (w : string) : ascii :=
  match w with
  | EmptyString => d
  | String c w' => last_char c w'
  end.

(** The text does not start with a character of the class. *)
Definition stops (cls : charclass) (s : string) : Prop :=
  match s with
  | EmptyString => True
  | String c _ => in_class cls c = false
  end.

(** The texts a regex can consume, lookarounds left aside. *)
Fixpoint lang (r : regex) (w : string) : Prop :=
  match r with
  | Bol | Eol | Behind _ | Ahead _ => w = EmptyString
  | Chr c => w = String c EmptyString
  | Rep1 cls => word cls w
  | Cat r1 r2 => ∃ w1 w2, w = w1 +:+ w2 ∧ lang r1 w1 ∧ lang r2 w2
  | Alt r1 r2 => lang r1 w ∨ lang r2 w
  | Named _ r1 => lang r1 w
  end.

(** The regex ends with [$]. *)
Fixpoint ends_eol (r : regex) : bool :=
  match r with
  | Eol => true
  | Cat _ r2 => ends_eol r2
  | _ => false
  end.

(** Every named group of [r] captures a text that satisfies [ok]. *)
Fixpoint captures_ok (ok : string → string → Prop) (r : regex) : Prop :=
  match r with
  | Named n r1 => (∀ w, lang r1 w → ok n w) ∧ captures_ok ok r1
  | Cat r1 r2 | Alt r1 r2 => captures_ok ok r1 ∧ captures_ok ok r2
  | _ => True
  end.

(** The groups that take part in every match of [r]. *)
Fixpoint must (r : regex) : list string :=
  match r with
  | Named n r1 => n :: must r1
  | Cat r1 r2 => must r1 ++ must r2
  | _ => []
  end.

(** [r] cannot match where the text starts with a character of [cls]. *)
Definition rejects (cls : charclass) (r : regex) : Prop :=
  ∀ p d s g, in_class cls d = true → run r (MState p (String d s) g) = [].

Definition last_of (w : string) : ascii := last_char "000" w.

(** The states a match can end in, in the matcher's order. *)
Definition ends (r : regex) (st : mstate) : list mstate := snd <$> run r st.

(** How many times [c] can occur in a text that [r] consumes, when that
    is bounded. *)
Fixpoint bound (c : ascii) (r : regex) : option nat :=
  match r with
  | Chr d => Some (if Ascii.eqb d c then 1 else 0)
  | Rep1 cls => if in_class cls c then None else Some 0
  | Cat r1 r2 => n1 ← bound c r1; n2 ← bound c r2; Some (n1 + n2)
  | Alt r1 r2 => n1 ← bound c r1; n2 ← bound c r2; Some (n1 `max` n2)
  | Named _ r1 => bound c r1
  | _ => Some 0
  end.

End ReSpec.

(** ** The parser *)

Module G := Grammar.

Section ParserVocabulary.
Import Re ReSpec.

(** An image written with the separator of a digest, [@], where
    [image_string] writes a colon. *)
Definition image_string_at (i : Image) : string :=
  hostname i +:+ "/" +:+ name i +:+ "@" +:+ tag i.

(** The string form of an image. [Image] defines none of its own; this
    is the reference as the grammars of [from_path] write it in full,
    [hostname/name:tag], and [hostname/name@digest] for a digest, which
    is a tag that holds a colon. *)
Definition canonical_string (i : Image) : string :=
  if decide (count_char ":" (tag i) = 0) then image_string i else image_string_at i.

(** The grammars whose regex matches the whole of [path]. *)
Definition matching (path : string) : list (regex * gmap string string) :=
  filter (λ g, is_Some (re_match g.1 path)) Grammar.regexes.

(** The interpretation a grammar gives of [path], with its defaults. *)
Definition interpretation (path : string) (g : regex * gmap string string)
    : option (gmap string string) :=
  match_dict ← re_match g.1 path;
  match lump match_dict g.2 with
  | Ret d => Some d
  | Raise _ => None
  end.

Definition candidates (path : string) : list (gmap string string) :=
  omap (interpretation path) Grammar.regexes.

(** [cls(m["hostname"], m["image"], m["tag"])] *)
Definition image_of (m : gmap string string) : res Image :=
  h ← getitem m "hostname";
  i ← getitem m "image";
  t ← getitem m "tag";
  Ret (mkImage h i t).

Definition keys : list string := ["hostname"; "username"; "image"; "tag"].

(** Regex and defaults together give every key a value. *)
Definition complete (g : regex * gmap string string) : Prop :=
  ∀ k, k ∈ keys → k ∈ must g.1 ∨ is_Some (g.2 !! k).

Definition completeb (g : regex * gmap string string) : bool :=
  forallb (λ k, bool_decide (k ∈ must g.1) || bool_decide (is_Some (g.2 !! k))) keys.

(** A registry host: [[a-zA-Z0-9_-]+ . [a-zA-Z0-9._:-]+] *)
Definition is_hostname (w : string) : Prop :=
  ∃ h1 h2, w = h1 +:+ "." +:+ h2 ∧ word G.hostname_cls1 h1 ∧ word G.hostname_cls2 h2.

(** What each group of the grammars can hold. *)
Definition group_ok (n w : string) : Prop :=
  (n = "hostname" → is_hostname w)
  ∧ (n = "username" → word G.username_cls w)
  ∧ (n = "image" → word G.image_cls w)
  ∧ (n = "tag" → word G.sha_cls w).

(** An image as [from_path] builds them. *)
Definition wf (img : Image) : Prop :=
  ∃ u i,
    is_hostname (hostname img)
    ∧ name img = u +:+ "/" +:+ i
    ∧ word G.username_cls u
    ∧ word G.image_cls i
    ∧ word G.sha_cls (tag img).

(** The text [h1.h2/u/i] followed by a separator and a tag. *)
Definition spelled (h1 h2 u i : string) (c : ascii) (t : string) : string :=
  h1 +:+ "." +:+ h2 +:+ "/" +:+ u +:+ "/" +:+ i +:+ String c t.

Definition captured (h1 h2 u i : string) : gmap string string :=
  <["image" := i]> (<["username" := u]> (<["hostname" := h1 +:+ "." +:+ h2]> ∅)).

End ParserVocabulary.

(** ** References, read without regular expressions *)

Section ReadingVocabulary.
Import Re ReSpec.

(** What a match consumes, together with the groups it sets. *)
Fixpoint captures (r : regex) (w : string) (g g' : gmap string string) : Prop :=
  match r with
  | Bol | Eol | Behind _ | Ahead _ => w = EmptyString ∧ g' = g
  | Chr c => w = String c EmptyString ∧ g' = g
  | Rep1 cls => word cls w ∧ g' = g
  | Cat r1 r2 => ∃ w1 w2 g1, w = w1 +:+ w2 ∧ captures r1 w1 g g1 ∧ captures r2 w2 g1 g'
  | Alt r1 r2 => captures r1 w g g' ∨ captures r2 w g g'
  | Named n r1 => ∃ g1, captures r1 w g g1 ∧ g' = <[n := w]> g1
  end.

(** A reference as it is written: what stands in front of the image
    name (nothing, a Docker Hub user, or a host and a user), and what
    stands behind it (nothing, a tag or a digest). *)
Inductive front : Type :=
| Bare
| User (u : string)
| Host (h1 h2 u : string).

Inductive back : Type :=
| Untagged
| Tagged (t : string)
| Digest (t : string).

Definition front_text (p : front) : string :=
  match p with
  | Bare => ""
  | User u => u +:+ "/"
  | Host h1 h2 u => h1 +:+ "." +:+ h2 +:+ "/" +:+ u +:+ "/"
  end.

Definition back_text (s : back) : string :=
  match s with
  | Untagged => ""
  | Tagged t => String ":" t
  | Digest t => String "@" t
  end.

Definition reference (p : front) (i : string) (s : back) : string :=
  front_text p +:+ i +:+ back_text s.

(** The alphabets of the parts. *)
Definition front_ok (p : front) (i : string) : Prop :=
  match p with
  | Bare => word G.docker_image_cls i
  | User u => word G.alnum u ∧ word G.docker_image_cls i
  | Host h1 h2 u =>
      word G.hostname_cls1 h1 ∧ word G.hostname_cls2 h2
      ∧ word G.username_cls u ∧ word G.image_cls i
  end.

Definition back_ok (s : back) : Prop :=
  match s with
  | Untagged => True
  | Tagged t => word G.tag_cls t
  | Digest t => word G.sha_cls t
  end.

(** The groups that the regex of a reference captures. *)
Definition front_groups (p : front) : gmap string string :=
  match p with
  | Bare => ∅
  | User u => <["username" := u]> ∅
  | Host h1 h2 u => <["username" := u]> (<["hostname" := h1 +:+ "." +:+ h2]> ∅)
  end.

Definition read_groups (p : front) (i : string) (s : back) : gmap string string :=
  let g := <["image" := i]> (front_groups p) in
  match s with
  | Untagged => g
  | Tagged t | Digest t => <["tag" := t]> g
  end.

(** The position in [regexes] of the grammar of a reference. *)
Definition grammar_of (p : front) (s : back) : nat :=
  match p, s with
  | Bare, Untagged => 0
  | User _, Untagged => 1
  | Bare, Tagged _ => 2
  | User _, Tagged _ => 3
  | Bare, Digest _ => 4
  | User _, Digest _ => 5
  | Host _ _ _, Untagged => 6
  | Host _ _ _, Tagged _ => 7
  | Host _ _ _, Digest _ => 8
  end.

(** The image that a reference stands for: Docker Hub, the [library]
    user and the tag [latest] where a part is left out. *)
Definition read_image (p : front) (i : string) (s : back) : Image :=
  mkImage
    match p with Host h1 h2 _ => h1 +:+ "." +:+ h2 | _ => "registry-1.docker.io" end
    (match p with Bare => "library" | User u | Host _ _ u => u end +:+ "/" +:+ i)
    match s with Untagged => "latest" | Tagged t | Digest t => t end.

(** What [$] leaves unread: nothing, or one final newline. *)
Definition end_of_line (nl : string) : Prop := nl = "" ∨ nl = String newline "".

(** What can follow an image name: the end of the text, or the
    separator of a tag or of a digest. *)
Definition follows (k : string) : Prop :=
  end_of_line k ∨ ∃ c s', k = String c s' ∧ (c = ":"%char ∨ c = "@"%char).

(** The text after the first slash. *)
Fixpoint after_slash (w : string) : string :=
  match w with
  | EmptyString => EmptyString
  | String c w' => if Ascii.eqb c "/" then w' else after_slash w'
  end.

(** The text without its hostname, if it has one. *)
Definition path_part (w : string) : string :=
  if count_char "/" w =? 0 then w else after_slash w.

(** What tells the grammars apart: the slashes (two stand for two or
    more), the at signs, and the colons that are not part of a
    hostname. *)
Definition shape (w : string) : nat * nat * nat :=
  (count_char "/" w `min` 2, count_char "@" w `min` 1,
   if count_char "@" w =? 0 then count_char ":" (path_part w) else 0).

Definition shape_of (p : front) (s : back) : nat * nat * nat :=
  (match p with Bare => 0 | User _ => 1 | Host _ _ _ => 2 end,
   match s with Digest _ => 1 | _ => 0 end,
   match s with Tagged _ => 1 | _ => 0 end).

End ReadingVocabulary.

(** ** Requests *)

Section RequestVocabulary.

Variable net : registry.
Variable from_header : string → option WWWAuthenticate.

(** Every request that [m] issues satisfies [P], and there are at most
    [n] of them. *)
Definition issues {A : Type} (P : Request → Prop) (n : nat) (m : M A) : Prop :=
  ∀ tr, ∃ tr', (m tr).2 = tr ++ tr' ∧ Forall P tr' ∧ length tr' ≤ n.

(** The request carries no HTTP Basic credentials. *)
Definition anonymous (req : Request) : Prop :=
  ∀ c, req_headers req !! "Authorization" ≠ Some ("Basic " +:+ c).

(** The probe is not answered by a challenge: the registry cannot be
    reached, or its answer is not a 401 that carries the header. *)
Definition unchallenged (tr : list Request) (self : ImageRepoDockerAPI) (image : Image)
    : Prop :=
  net tr (probe self image) = Fails ConnectionError
  ∨ ∃ r, net tr (probe self image) = Answer r
         ∧ (status_code r ≠ 401%Z ∨ headers r !! "www-authenticate" = None).

(** Every request that [m] issues satisfies [P], which may look at the
    requests issued before it. *)
Definition issues_after {A : Type} (P : list Request → Request → Prop) (m : M A) : Prop :=
  ∀ tr, ∃ tr', (m tr).2 = tr ++ tr'
               ∧ ∀ i req, tr' !! i = Some req → P (tr ++ take i tr') req.

(** [req] is the request to the realm of a challenge: the last request
    before it was the probe, the probe was answered by a 401 that
    carries the header, and the header names the realm. *)
Definition answers_challenge (self : ImageRepoDockerAPI) (image : Image)
    (tr : list Request) (req : Request) : Prop :=
  ∃ pre value www_auth realm,
    tr = pre ++ [probe self image]
    ∧ challenged net pre self image value
    ∧ from_header value = Some www_auth
    ∧ parameters www_auth !! "realm" = Some realm
    ∧ req = token_request self www_auth realm.

(** A request that keeps the credentials to itself, or gives them to
    the realm that asked for them. *)
Definition discreet (self : ImageRepoDockerAPI) (image : Image)
    (tr : list Request) (req : Request) : Prop :=
  anonymous req ∨ answers_challenge self image tr req.

End RequestVocabulary.

(** ** Dicts and environments *)

Module JS := JupyterServer.

Definition is_mapping (v : json) : bool :=
  match v with JObj _ => true | _ => false end.

(** A dict none of whose values is a mapping, with its keys distinct. *)
Definition flat (d : list (string * json)) : Prop :=
  Forall (λ kv, is_mapping kv.2 = false) d ∧ NoDup d.*1.

(** The user's variable [kv] names a variable that [env] sets itself,
    and gives it another value. *)
Definition overrides (vars : list (string * string)) (kv : string * string) : Prop :=
  ∃ v, JS.lookup_var kv.1 vars = Some v ∧ kv.2 ≠ v.

(** ** Worked examples *)

Module Examples.

(** A registry that answers the n-th request with the n-th outcome of a
    script, and cannot be reached once the script is over. *)
Definition scripted (script : list outcome) : registry :=
  λ tr _, default (Fails ConnectionError) (script !! length tr).

Definition img : Image := mkImage "registry.example.com" "group/project" "1.0.0".
Definition api : ImageRepoDockerAPI := repo_api img.
Definition other_api : ImageRepoDockerAPI := mkImageRepoDockerAPI "registry-1.docker.io" None.
Definition api_with_token : ImageRepoDockerAPI :=
  mkImageRepoDockerAPI "registry.example.com" (Some "s3cr3t").

(** The two challenges the examples use, as werkzeug parses them. *)
Definition parse_header (value : string) : option WWWAuthenticate :=
  if String.eqb value "Bearer realm=https://auth.example.com/token,service=registry"
  then Some (mkWWWAuthenticate "bearer"
               (Grammar.dict [("realm", "https://auth.example.com/token");
                              ("service", "registry")]))
  else if String.eqb value "Bearer service=registry"
  then Some (mkWWWAuthenticate "bearer" (Grammar.dict [("service", "registry")]))
  else None.

(** No example formats a list or a dict. *)
Definition no_container (v : json) : string := "".

Definition ok (doc : json) : outcome := Answer (mkResponse 200 ∅ (Some doc)).
Definition not_json (status : Z) : outcome := Answer (mkResponse status ∅ None).
Definition status (code : Z) : outcome := Answer (mkResponse code ∅ (Some (JObj []))).
Definition unauthorized (challenge : string) : outcome :=
  Answer (mkResponse 401 {[ "www-authenticate" := challenge ]} (Some (JObj []))).

Definition manifest_doc : json :=
  JObj [("schemaVersion", JNum 2);
        ("config", JObj [("digest", JStr "sha256:c0ffee")])].

Definition config_doc (workdir : string) : json :=
  JObj [("config", JObj [("WorkingDir", JStr workdir)])].

Definition example_challenge : string :=
  "Bearer realm=https://auth.example.com/token,service=registry".

End Examples.

Import Examples.

(** A registry that asks for no authentication and serves a manifest
    and its configuration; one that has no image at all. *)
Definition open_registry : registry :=
  scripted [ok (JObj []); ok manifest_doc; ok (JObj []); ok (config_doc "/home/jovyan")].

Definition missing_registry : registry :=
  scripted [status 404; status 404; status 404].

(** The default image of the sessions, and what [launch_notebook] is
    left with when the image asked for does not exist. *)
Definition default_py : Image := mkImage "registry-1.docker.io" "renku/renkulab-py" "3.10".

Definition fallback : Notebooks.Selection :=
  Notebooks.mkSelection "renku/renkulab-py:3.10" default_py api true false.

Definition nested_doc : list (string * json) :=
  [("A", JNum 1); ("B", JObj [("C", JObj [("D", JNum 2)])])].

Definition jane_server : JS.UserServer :=
  JS.mkUserServer "jane" "0123456789abcdef" "/home/jovyan/work/project" "project"
    "https://renku.example.com/sessions/jane-project" "project"
    [("FOO", "bar"); ("GIT_CLONE_REPO", "true")].

(** Cloud storage told apart by its mount folder alone: the [!=] of two
    mount folders. *)
Definition other_folder (s1 s2 : string) : bool := negb (String.eqb s1 s2).


(** * Properties *)

(** ** The client monad *)

Section ClientFacts.

Variable net : registry.
Variable from_header : string → option WWWAuthenticate.
Variable str_of_container : json → string.

Lemma bind_run {A B : Type} (m : M A) (f : A → M B) tr :
  (m ≫= f) tr =
  match m tr with
  | (Ret a, tr') => f a tr'
  | (Raise e, tr') => (Raise e, tr')
  end.
Proof. reflexivity. Qed.

Lemma bind_run_ret {A B : Type} (m : M A) (f : A → M B) tr a tr' :
  m tr = (Ret a, tr') → (m ≫= f) tr = f a tr'.
Proof. intros H. rewrite bind_run, H. reflexivity. Qed.

Lemma bind_run_raise {A B : Type} (m : M A) (f : A → M B) tr e tr' :
  m tr = (Raise e, tr') → (m ≫= f) tr = (Raise e, tr').
Proof. intros H. rewrite bind_run, H. reflexivity. Qed.

Lemma extends_ret {A : Type} (a : A) : extends (mret a).
Proof. intros tr. exists []. simpl. by rewrite app_nil_r. Qed.

Lemma extends_raise {A : Type} e : extends (raise (A:=A) e).
Proof. intros tr. exists []. simpl. by rewrite app_nil_r. Qed.

Lemma extends_lift {A : Type} (r : res A) : extends (lift r).
Proof. intros tr. exists []. simpl. by rewrite app_nil_r. Qed.

Lemma extends_requests_get req : extends (requests_get net req).
Proof. intros tr. exists [req]. unfold requests_get. by destruct (net tr req). Qed.

Lemma extends_json_of r : extends (json_of r).
Proof. unfold json_of. destruct (body r); [apply extends_ret | apply extends_raise]. Qed.

Lemma extends_bind {A B : Type} (m : M A) (f : A → M B) :
  extends m → (∀ a, extends (f a)) → extends (m ≫= f).
Proof.
  intros Hm Hf tr. rewrite bind_run. destruct (Hm tr) as [t1 H1].
  destruct (m tr) as [[a|e] tr1]; simpl in H1; subst tr1.
  - destruct (Hf a (tr ++ t1)) as [t2 H2]. exists (t1 ++ t2).
    by rewrite H2, app_assoc.
  - by exists t1.
Qed.

Lemma extends_try {A : Type} (m h : M A) :
  extends m → extends h → extends (try_except_ConnectionError m h).
Proof.
  intros Hm Hh tr. unfold try_except_ConnectionError.
  destruct (Hm tr) as [t1 H1].
  destruct (m tr) as [[a|e] tr1]; simpl in H1; subst tr1; [by exists t1|].
  destruct e as [| [|] | | | |]; try by exists t1.
  destruct (Hh (tr ++ t1)) as [t2 H2]. exists (t1 ++ t2). by rewrite H2, app_assoc.
Qed.

Lemma raises_only_ret {A : Type} P (a : A) : raises_only P (mret a).
Proof. intros tr e H. discriminate H. Qed.

Lemma raises_only_raise {A : Type} (P : exn → Prop) e : P e → raises_only P (raise (A:=A) e).
Proof. intros HP tr e' H. simpl in H. by simplify_eq. Qed.

Lemma raises_only_lift {A : Type} (P : exn → Prop) (r : res A) :
  (∀ e, r = Raise e → P e) → raises_only P (lift r).
Proof. intros HP tr e H. simpl in H. by apply HP. Qed.

Lemma raises_only_requests_get (P : exn → Prop) req :
  (∀ e, P (RequestError e)) → raises_only P (requests_get net req).
Proof.
  intros HP tr e. unfold requests_get. destruct (net tr req); simpl; intros H; simplify_eq.
  apply HP.
Qed.

Lemma raises_only_json_of (P : exn → Prop) r :
  P JSONDecodeError → raises_only P (json_of r).
Proof.
  intros HP. unfold json_of. destruct (body r);
    [apply raises_only_ret | by apply raises_only_raise].
Qed.

Lemma raises_only_bind {A B : Type} P (m : M A) (f : A → M B) :
  raises_only P m → (∀ a, raises_only P (f a)) → raises_only P (m ≫= f).
Proof.
  intros Hm Hf tr e. rewrite bind_run. specialize (Hm tr).
  destruct (m tr) as [[a|e'] tr1]; simpl in *.
  - apply Hf.
  - intros H. apply Hm. congruence.
Qed.

Lemma raises_only_try {A : Type} P (m h : M A) :
  raises_only P m → raises_only P h → raises_only P (try_except_ConnectionError m h).
Proof.
  intros Hm Hh tr e. unfold try_except_ConnectionError. specialize (Hm tr).
  destruct (m tr) as [[a|e'] tr1]; simpl in *; [discriminate|].
  destruct e' as [| [|] | | | |]; simpl; try (intros H; apply Hm; congruence).
  apply Hh.
Qed.

Lemma py_get_raises v key dflt e : py_get v key dflt = Raise e → e = AttributeError.
Proof. destruct v; simpl; congruence. Qed.

Lemma getitem_raises d key e : getitem d key = Raise e → e = KeyError key.
Proof. unfold getitem. destruct (d !! key); congruence. Qed.

Lemma token_first_request self image tr :
  ∃ tr', (_get_docker_token net from_header self image tr).2 = tr ++ probe self image :: tr'.
Proof.
  unfold _get_docker_token.
  lazymatch goal with |- ∃ _, ((_ ≫= ?f) tr).2 = _ => set (k := f) end.
  rewrite bind_run.
  assert (Hk : ∀ a, extends (k a)).
  { intros [auth_req|]; unfold k; [|apply extends_ret].
    case_match; [apply extends_ret|].
    apply extends_bind; [apply extends_lift|intros value].
    apply extends_bind; [destruct (from_header value); [apply extends_ret|apply extends_raise]|].
    intros www_auth. apply extends_bind; [apply extends_lift|intros realm].
    apply extends_bind; [apply extends_requests_get|intros token_req].
    apply extends_bind; [apply extends_json_of|intros doc]. apply extends_lift. }
  clearbody k.
  unfold try_except_ConnectionError. rewrite bind_run. unfold requests_get.
  fold (probe self image).
  destruct (net tr (probe self image)) as [r|[|]]; simpl.
  - destruct (Hk (Some r) (tr ++ [probe self image])) as [t2 H2].
    exists t2. rewrite H2. by rewrite <- app_assoc.
  - destruct (Hk None (tr ++ [probe self image])) as [t2 H2].
    exists t2. rewrite H2. by rewrite <- app_assoc.
  - by exists [].
Qed.

Lemma token_not_parse_error self image :
  raises_only not_parse_error (_get_docker_token net from_header self image).
Proof.
  unfold _get_docker_token.
  apply raises_only_bind.
  { apply raises_only_try; [|apply raises_only_ret].
    apply raises_only_bind; [by apply raises_only_requests_get|intros; apply raises_only_ret]. }
  intros [auth_req|]; [|apply raises_only_ret].
  case_match; [apply raises_only_ret|].
  apply raises_only_bind.
  { apply raises_only_lift. intros e ->%getitem_raises. done. }
  intros value. apply raises_only_bind.
  { destruct (from_header value); [apply raises_only_ret|by apply raises_only_raise]. }
  intros www_auth. apply raises_only_bind.
  { apply raises_only_lift. intros e ->%getitem_raises. done. }
  intros realm. apply raises_only_bind; [by apply raises_only_requests_get|].
  intros token_req. apply raises_only_bind; [by apply raises_only_json_of|].
  intros doc. apply raises_only_lift. intros e ->%py_get_raises. done.
Qed.

Lemma manifest_headers_first token :
  (if py_bool token
   then <["Authorization" := "Bearer " +:+ py_str str_of_container token]>
          ({[ "Accept" := ManifestTypes.docker_v2 ]} : gmap string string)
   else {[ "Accept" := ManifestTypes.docker_v2 ]})
  = manifest_headers str_of_container token ManifestTypes.docker_v2.
Proof.
  unfold manifest_headers. destruct (py_bool token); [|done].
  rewrite <- !insert_empty. by apply insert_insert_ne.
Qed.

Lemma manifest_headers_retry token :
  <["Accept" := ManifestTypes.oci_v1]> (manifest_headers str_of_container token ManifestTypes.docker_v2)
  = manifest_headers str_of_container token ManifestTypes.oci_v1.
Proof. unfold manifest_headers. apply insert_insert_eq. Qed.

(** How [get_image_manifest] unfolds once the token is known. *)
Lemma get_image_manifest_run self image tr token tr1 :
  hostname image = repo_hostname self →
  _get_docker_token net from_header self image tr = (Ret token, tr1) →
  let req1 := manifest_request str_of_container image token ManifestTypes.docker_v2 in
  let req2 := manifest_request str_of_container image token ManifestTypes.oci_v1 in
  get_image_manifest net from_header str_of_container self image tr =
  match net tr1 req1 with
  | Fails e => (Raise (RequestError e), tr1 ++ [req1])
  | Answer r1 =>
      if (status_code r1 =? 200)%Z then json_of r1 (tr1 ++ [req1])
      else
        match net (tr1 ++ [req1]) req2 with
        | Fails e => (Raise (RequestError e), tr1 ++ [req1; req2])
        | Answer r2 =>
            if (status_code r2 =? 200)%Z then json_of r2 (tr1 ++ [req1; req2])
            else (Ret JNull, tr1 ++ [req1; req2])
        end
  end.
Proof.
  intros Heq Htok req1 req2. unfold get_image_manifest.
  rewrite (proj2 (String.eqb_eq _ _) Heq). cbn [negb].
  rewrite (bind_run_ret _ _ _ _ _ Htok).
  rewrite manifest_headers_first, manifest_headers_retry.
  fold (manifest_request str_of_container image token ManifestTypes.docker_v2).
  fold (manifest_request str_of_container image token ManifestTypes.oci_v1).
  fold req1 req2. rewrite bind_run. unfold requests_get at 1.
  destruct (net tr1 req1) as [r1|e]; [|done].
  rewrite bind_run.
  destruct (status_code r1 =? 200)%Z eqn:H1; cbn [negb].
  - unfold mret at 1, M_ret at 1. by rewrite H1.
  - unfold requests_get. rewrite <- (app_assoc tr1 [req1] [req2]). cbn [app].
    destruct (net (tr1 ++ [req1]) req2) as [r2|e]; [|done].
    by destruct (status_code r2 =? 200)%Z.
Qed.

Lemma image_exists_run self image tr :
  image_exists net from_header str_of_container self image tr =
  match get_image_manifest net from_header str_of_container self image tr with
  | (Ret manifest, tr') => (Ret (negb (is_none manifest)), tr')
  | (Raise e, tr') => (Raise e, tr')
  end.
Proof. reflexivity. Qed.

(** C9: when the image's hostname differs from the repository's,
    [get_image_manifest], [image_exists], [get_image_config] and
    [image_workdir] raise [ImageParseError] and issue no request. When the
    hostnames are equal that error is never raised and the fetch goes
    on: the token exchange runs first, starting with its probe; an
    exception of the exchange is the exception of the fetch, and once
    the exchange has returned a token (or [None]) the next request is
    the one for the manifest, with the Docker V2 media type and that
    token, from [get_image_manifest] and from [image_exists] alike. *)
Theorem hostname_mismatch_raises_before_any_request self image tr :
  (hostname image ≠ repo_hostname self →
     let err := ImageParseError (HostnameMismatch (hostname image) (repo_hostname self)) in
     get_image_manifest net from_header str_of_container self image tr = (Raise err, tr)
     ∧ image_exists net from_header str_of_container self image tr = (Raise err, tr)
     ∧ get_image_config net from_header str_of_container self image tr = (Raise err, tr)
     ∧ image_workdir net from_header str_of_container self image tr = (Raise err, tr))
  ∧ (hostname image = repo_hostname self →
     (∀ e, (get_image_manifest net from_header str_of_container self image tr).1 = Raise e
           → not_parse_error e)
     ∧ (∃ tr', (get_image_manifest net from_header str_of_container self image tr).2
               = tr ++ probe self image :: tr')
     ∧ (∀ e tr1,
          _get_docker_token net from_header self image tr = (Raise e, tr1) →
          get_image_manifest net from_header str_of_container self image tr = (Raise e, tr1))
     ∧ (∀ token tr1,
          _get_docker_token net from_header self image tr = (Ret token, tr1) →
          ∃ tr',
            (get_image_manifest net from_header str_of_container self image tr).2
            = tr1 ++ manifest_request str_of_container image token ManifestTypes.docker_v2 :: tr'
            ∧ (image_exists net from_header str_of_container self image tr).2
              = tr1 ++ manifest_request str_of_container image token ManifestTypes.docker_v2
                  :: tr')).
Proof.
  split.
  - intros Hne err.
    assert (Hm : get_image_manifest net from_header str_of_container self image tr
                 = (Raise err, tr)).
    { unfold get_image_manifest.
      destruct (String.eqb_spec (hostname image) (repo_hostname self)); [done|reflexivity]. }
    repeat split; [done| | |].
    + unfold image_exists. by rewrite (bind_run_raise _ _ _ _ _ Hm).
    + unfold get_image_config. by rewrite (bind_run_raise _ _ _ _ _ Hm).
    + unfold image_workdir, get_image_config.
      erewrite bind_run_raise; [done|]. by rewrite (bind_run_raise _ _ _ _ _ Hm).
  - intros Heq. split_and!.
    + unfold get_image_manifest. rewrite (proj2 (String.eqb_eq _ _) Heq). cbn [negb].
      lazymatch goal with |- ∀ e, (?m tr).1 = Raise e → _ =>
        cut (raises_only not_parse_error m); [intros H e; apply H|] end.
      apply raises_only_bind; [apply token_not_parse_error|]. intros token.
      apply raises_only_bind; [by apply raises_only_requests_get|]. intros r1.
      apply raises_only_bind.
      { case_match; [by apply raises_only_requests_get|apply raises_only_ret]. }
      intros r2. case_match; [apply raises_only_ret|by apply raises_only_json_of].
    + unfold get_image_manifest. rewrite (proj2 (String.eqb_eq _ _) Heq). cbn [negb].
      rewrite bind_run. destruct (token_first_request self image tr) as [t1 H1].
      destruct (_get_docker_token net from_header self image tr) as [[token|e] tr1];
        simpl in H1; subst tr1; [|by exists t1].
      match goal with |- context [(?m ≫= ?f) _] =>
        assert (Hx : extends (m ≫= f)) end.
      { apply extends_bind; [apply extends_requests_get|]. intros r1.
        apply extends_bind.
        { case_match; [apply extends_requests_get|apply extends_ret]. }
        intros r2. case_match; [apply extends_ret|apply extends_json_of]. }
      destruct (Hx (tr ++ probe self image :: t1)) as [t2 H2].
      exists (t1 ++ t2). rewrite H2. by rewrite <- app_assoc.
    + intros e tr1 Ht. unfold get_image_manifest.
      rewrite (proj2 (String.eqb_eq _ _) Heq). cbn [negb].
      by rewrite (bind_run_raise _ _ _ _ _ Ht).
    + intros token tr1 Ht. rewrite image_exists_run.
      pose proof (get_image_manifest_run self image tr token tr1 Heq Ht) as Hrun.
      cbv zeta in Hrun. rewrite Hrun.
      set (req1 := manifest_request str_of_container image token ManifestTypes.docker_v2).
      set (req2 := manifest_request str_of_container image token ManifestTypes.oci_v1).
      assert (Hjson : ∀ r t, ∃ v, json_of r t = (v, t)).
      { intros r t. unfold json_of. destruct (body r); by eexists. }
      destruct (net tr1 req1) as [r1|e]; [|by exists []].
      destruct (status_code r1 =? 200)%Z.
      { destruct (Hjson r1 (tr1 ++ [req1])) as [v ->]. exists [].
        by destruct v. }
      destruct (net (tr1 ++ [req1]) req2) as [r2|e]; [|by exists [req2]].
      destruct (status_code r2 =? 200)%Z; [|by exists [req2]].
      destruct (Hjson r2 (tr1 ++ [req1; req2])) as [v ->].
      exists [req2]. by destruct v.
Qed.

(** C1 (as amended): once the token is known, [get_image_manifest] asks
    for the manifest with the Docker V2 media type and, only when the
    answer is not 200, once more with the OCI V1 media type.
    [image_exists] is true when the first answer is 200 and its body
    decodes to a document other than null, true when only the second
    answer is such, and false, without an exception, when neither
    answer is 200. *)
Theorem manifest_negotiation self image tr token tr1 :
  hostname image = repo_hostname self →
  _get_docker_token net from_header self image tr = (Ret token, tr1) →
  let req1 := manifest_request str_of_container image token ManifestTypes.docker_v2 in
  let req2 := manifest_request str_of_container image token ManifestTypes.oci_v1 in
  (∀ r1 doc,
     net tr1 req1 = Answer r1 → status_code r1 = 200%Z →
     body r1 = Some doc → doc ≠ JNull →
     get_image_manifest net from_header str_of_container self image tr
       = (Ret doc, tr1 ++ [req1])
     ∧ image_exists net from_header str_of_container self image tr
       = (Ret true, tr1 ++ [req1]))
  ∧ (∀ r1 r2 doc,
     net tr1 req1 = Answer r1 → status_code r1 ≠ 200%Z →
     net (tr1 ++ [req1]) req2 = Answer r2 → status_code r2 = 200%Z →
     body r2 = Some doc → doc ≠ JNull →
     get_image_manifest net from_header str_of_container self image tr
       = (Ret doc, tr1 ++ [req1; req2])
     ∧ image_exists net from_header str_of_container self image tr
       = (Ret true, tr1 ++ [req1; req2]))
  ∧ (∀ r1 r2,
     net tr1 req1 = Answer r1 → status_code r1 ≠ 200%Z →
     net (tr1 ++ [req1]) req2 = Answer r2 → status_code r2 ≠ 200%Z →
     get_image_manifest net from_header str_of_container self image tr
       = (Ret JNull, tr1 ++ [req1; req2])
     ∧ image_exists net from_header str_of_container self image tr
       = (Ret false, tr1 ++ [req1; req2])).
Proof.
  intros Heq Htok req1 req2.
  pose proof (get_image_manifest_run self image tr token tr1 Heq Htok) as Hrun.
  cbv zeta in Hrun. fold req1 req2 in Hrun.
  split; [|split].
  - intros r1 doc H1 Hs Hb Hdoc. rewrite image_exists_run, Hrun, H1, Hs.
    cbn [Z.eqb Pos.eqb]. unfold json_of. rewrite Hb.
    split; [done|]. by destruct doc.
  - intros r1 r2 doc H1 Hs1 H2 Hs2 Hb Hdoc.
    rewrite image_exists_run, Hrun, H1, H2, Hs2.
    rewrite (proj2 (Z.eqb_neq _ _) Hs1). cbn [Z.eqb Pos.eqb].
    unfold json_of. rewrite Hb. split; [done|]. by destruct doc.
  - intros r1 r2 H1 Hs1 H2 Hs2.
    rewrite image_exists_run, Hrun, H1, H2.
    by rewrite (proj2 (Z.eqb_neq _ _) Hs1), (proj2 (Z.eqb_neq _ _) Hs2).
Qed.

(** *** The token exchange *)

Lemma lower_www_authenticate : lower "Www-Authenticate" = "www-authenticate".
Proof. reflexivity. Qed.

Lemma token_run_probe_fails self image tr e :
  net tr (probe self image) = Fails e →
  _get_docker_token net from_header self image tr =
  match e with
  | ConnectionError => (Ret JNull, tr ++ [probe self image])
  | OtherRequestException => (Raise (RequestError e), tr ++ [probe self image])
  end.
Proof.
  intros H. unfold _get_docker_token. rewrite bind_run.
  unfold try_except_ConnectionError. rewrite bind_run. unfold requests_get.
  fold (probe self image). rewrite H. by destruct e.
Qed.

Lemma token_run_answer self image tr auth_req :
  net tr (probe self image) = Answer auth_req →
  _get_docker_token net from_header self image tr =
  if negb ((status_code auth_req =? 401)%Z
           && bool_decide (is_Some (headers auth_req !! "www-authenticate")))
  then (Ret JNull, tr ++ [probe self image])
  else
    match headers auth_req !! "www-authenticate" with
    | None => (Raise (KeyError "www-authenticate"), tr ++ [probe self image])
    | Some value =>
        match from_header value with
        | None => (Raise AttributeError, tr ++ [probe self image])
        | Some www_auth =>
            match parameters www_auth !! "realm" with
            | None => (Raise (KeyError "realm"), tr ++ [probe self image])
            | Some realm =>
                let req := token_request self www_auth realm in
                match net (tr ++ [probe self image]) req with
                | Fails e => (Raise (RequestError e), tr ++ [probe self image; req])
                | Answer token_req =>
                    match body token_req with
                    | None => (Raise JSONDecodeError, tr ++ [probe self image; req])
                    | Some doc => (py_get doc "token" JNull, tr ++ [probe self image; req])
                    end
                end
            end
        end
    end.
Proof.
  intros H. unfold _get_docker_token. rewrite bind_run.
  unfold try_except_ConnectionError. rewrite bind_run. unfold requests_get at 1.
  fold (probe self image). rewrite H. cbn [mret M_ret].
  rewrite lower_www_authenticate.
  case_match; [done|].
  rewrite bind_run. unfold lift at 1, getitem at 1.
  destruct (headers auth_req !! "www-authenticate") as [value|]; [|done].
  rewrite bind_run.
  destruct (from_header value) as [www_auth|]; [|done]. cbn [mret M_ret].
  rewrite bind_run. unfold lift at 1, getitem at 1.
  destruct (parameters www_auth !! "realm") as [realm|]; [|done].
  fold (token_headers self). fold (token_request self www_auth realm).
  cbv zeta. rewrite bind_run. unfold requests_get.
  rewrite <- (app_assoc tr [_] [_]). cbn [app].
  destruct (net _ (token_request self www_auth realm)) as [token_req|e]; [|done].
  rewrite bind_run. unfold json_of.
  destruct (body token_req); done.
Qed.

(** C4: a 401 answer to the probe whose [WWW-Authenticate] parameters
    lack a realm makes the token exchange fail with [KeyError('realm')]
    after the probe alone; [get_image_manifest] and [image_exists] fail
    the same way, so no manifest is requested without authentication. *)
Theorem challenge_without_realm_fails self image tr value www_auth :
  challenged net tr self image value →
  from_header value = Some www_auth →
  parameters www_auth !! "realm" = None →
  _get_docker_token net from_header self image tr
    = (Raise (KeyError "realm"), tr ++ [probe self image])
  ∧ (hostname image = repo_hostname self →
     get_image_manifest net from_header str_of_container self image tr
       = (Raise (KeyError "realm"), tr ++ [probe self image])
     ∧ image_exists net from_header str_of_container self image tr
       = (Raise (KeyError "realm"), tr ++ [probe self image])).
Proof.
  intros (auth_req & Hnet & Hs & Hh) Hfh Hrealm.
  assert (Htok : _get_docker_token net from_header self image tr
                 = (Raise (KeyError "realm"), tr ++ [probe self image])).
  { rewrite (token_run_answer _ _ _ _ Hnet), Hs, Hh, Hfh, Hrealm.
    rewrite bool_decide_eq_true_2 by eauto. done. }
  split; [done|]. intros Heq.
  assert (Hm : get_image_manifest net from_header str_of_container self image tr
               = (Raise (KeyError "realm"), tr ++ [probe self image])).
  { unfold get_image_manifest. rewrite (proj2 (String.eqb_eq _ _) Heq). cbn [negb].
    by rewrite (bind_run_raise _ _ _ _ _ Htok). }
  split; [done|]. by rewrite image_exists_run, Hm.
Qed.

(** C5 (as amended): the request to the realm carries HTTP Basic
    authorization with urlsafe-base64 of "oauth2:" and the token exactly
    when a non-empty token is configured; the status of the answer is never
    inspected: a body that decodes to an object yields its [token] member,
    or [None] when it has none, whatever the status, 403 included. *)
Theorem token_exchange self image tr value www_auth realm :
  challenged net tr self image value →
  from_header value = Some www_auth →
  parameters www_auth !! "realm" = Some realm →
  let req := token_request self www_auth realm in
  url req = realm
  ∧ params req = delete "realm" (parameters www_auth)
  ∧ req_headers req !! "Accept" = Some "application/json"
  ∧ req_headers req !! "Authorization" =
      match oauth2_token self with
      | Some secret =>
          if decide (secret = "") then None
          else Some ("Basic " +:+ urlsafe_b64encode ("oauth2:" +:+ secret))
      | None => None
      end
  ∧ (∀ token_req members,
       net (tr ++ [probe self image]) req = Answer token_req →
       body token_req = Some (JObj members) →
       _get_docker_token net from_header self image tr
         = (Ret (default JNull (assoc "token" members)), tr ++ [probe self image; req])).
Proof.
  intros (auth_req & Hnet & Hs & Hh) Hfh Hrealm req.
  split; [done|]. split; [done|].
  assert (Hhd : req_headers req = token_headers self) by done.
  split; [|split].
  - rewrite Hhd. unfold token_headers.
    destruct (oauth2_token self) as [t|]; [destruct (negb _)|]; by simplify_map_eq.
  - rewrite Hhd. unfold token_headers.
    destruct (oauth2_token self) as [t|]; [|by simplify_map_eq].
    destruct (String.eqb_spec t ""); cbn [negb]; case_decide; try done; by simplify_map_eq.
  - intros token_req members Hreq Hb.
    rewrite (token_run_answer _ _ _ _ Hnet), Hs, Hh, Hfh, Hrealm.
    rewrite bool_decide_eq_true_2 by eauto. cbn [Z.eqb Pos.eqb andb negb].
    cbv zeta. fold req. by rewrite Hreq, Hb.
Qed.

(** C6 (as amended): a [ConnectionError] raised by the probe is caught:
    the token exchange ends with no token after the probe alone, and
    [get_image_manifest] goes on to request the manifest without
    authorization; any other exception of the probe propagates. *)
Theorem probe_failure self image tr :
  (net tr (probe self image) = Fails ConnectionError →
     _get_docker_token net from_header self image tr = (Ret JNull, tr ++ [probe self image])
     ∧ (hostname image = repo_hostname self →
        ∃ tr', (get_image_manifest net from_header str_of_container self image tr).2
               = tr ++ probe self image
                    :: manifest_request str_of_container image JNull ManifestTypes.docker_v2 :: tr'))
  ∧ (net tr (probe self image) = Fails OtherRequestException →
     _get_docker_token net from_header self image tr
       = (Raise (RequestError OtherRequestException), tr ++ [probe self image])).
Proof.
  split; intros H; [|by rewrite (token_run_probe_fails _ _ _ _ H)].
  pose proof (token_run_probe_fails _ _ _ _ H) as Htok. cbv iota in Htok.
  split; [done|]. intros Heq.
  rewrite (get_image_manifest_run _ _ _ _ _ Heq Htok). cbv zeta.
  set (req1 := manifest_request str_of_container image JNull ManifestTypes.docker_v2).
  set (req2 := manifest_request str_of_container image JNull ManifestTypes.oci_v1).
  rewrite <- !(app_assoc tr [_]). cbn [app].
  destruct (net _ req1) as [r1|e]; [|by exists []].
  destruct (status_code r1 =? 200)%Z.
  { exists []. unfold json_of. by destruct (body r1). }
  destruct (net _ req2) as [r2|e]; [|by exists [req2]].
  destruct (status_code r2 =? 200)%Z; [|by exists [req2]].
  exists [req2]. unfold json_of. by destruct (body r2).
Qed.

(** *** The working directory *)

Lemma get_image_config_manifest self image tr manifest tr1 :
  get_image_manifest net from_header str_of_container self image tr = (Ret manifest, tr1) →
  get_image_config net from_header str_of_container self image tr =
  if is_none manifest then (Ret JNull, tr1) else
  match config_digest manifest with
  | Raise e => (Raise e, tr1)
  | Ret digest =>
      if is_none digest then (Ret JNull, tr1) else
      match _get_docker_token net from_header self image tr1 with
      | (Raise e, tr2) => (Raise e, tr2)
      | (Ret token, tr2) =>
          match net tr2 (blob_request str_of_container image digest token) with
          | Fails e => (Raise (RequestError e), tr2 ++ [blob_request str_of_container image digest token])
          | Answer r =>
              if (status_code r =? 200)%Z
              then json_of r (tr2 ++ [blob_request str_of_container image digest token])
              else (Ret JNull, tr2 ++ [blob_request str_of_container image digest token])
          end
      end
  end.
Proof.
  intros Hm. unfold get_image_config. rewrite (bind_run_ret _ _ _ _ _ Hm).
  destruct (is_none manifest); [done|].
  unfold config_digest. rewrite bind_run. unfold lift at 1.
  destruct (py_get manifest "config" (JObj [])) as [config|e]; [|done].
  rewrite bind_run. unfold lift at 1. cbn [mbind res_bind].
  destruct (py_get config "digest" JNull) as [digest|e]; [|done].
  destruct (is_none digest); [done|].
  rewrite bind_run.
  destruct (_get_docker_token net from_header self image tr1) as [[token|e] tr2]; [|done].
  rewrite bind_run. unfold requests_get. fold (blob_request str_of_container image digest token).
  destruct (net tr2 (blob_request str_of_container image digest token)) as [r|e]; [|done].
  by destruct (status_code r =? 200)%Z.
Qed.

Lemma image_work_dir_config self image tr config tr' :
  get_image_config net from_header str_of_container self image tr = (Ret config, tr') →
  image_work_dir net from_header str_of_container self image tr =
  if is_none config then (Ret (Path "/"), tr') else
  match py_get config "config" (JObj []) with
  | Raise e => (Raise e, tr')
  | Ret nested_config =>
      if is_none nested_config then (Ret (Path "/"), tr') else
      match py_get nested_config "WorkingDir" (JStr "/") with
      | Raise e => (Raise e, tr')
      | Ret (JStr EmptyString) => (Ret (Path "/"), tr')
      | Ret (JStr s) => (Ret (Path s), tr')
      | Ret _ => (Raise TypeError, tr')
      end
  end.
Proof.
  intros Hc. unfold image_work_dir, image_workdir. rewrite bind_run.
  rewrite (bind_run_ret _ _ _ _ _ Hc).
  destruct (is_none config); [done|].
  rewrite bind_run. unfold lift at 1.
  destruct (py_get config "config" (JObj [])) as [nested|e]; [|done].
  destruct (is_none nested); [done|].
  rewrite bind_run. unfold lift at 1.
  destruct (py_get nested "WorkingDir" (JStr "/")) as [w|e]; [|done].
  by destruct w as [| | |[|]| |].
Qed.

(** C3 (as amended): [image_workdir] followed by the launcher's
    [or Path("/")] yields [Path("/")] when no manifest is found, when the
    manifest names no config digest and when the blob request is not
    answered by 200; when the blob decodes to an object it yields
    [Path(WorkingDir)], the configured value as pathlib reads it, if
    that is a non-empty string, and [Path("/")] if it is omitted or
    empty. It is not total, for nothing on this path is caught: an
    exception of [get_image_config] is the exception of the lookup, so
    a blob answered by 200 with a body that is not JSON, a blob request
    that fails, whatever its failure, and an exception of the manifest
    fetch; and a [WorkingDir] that is not a string raises [TypeError]. *)
Theorem working_directory self image tr :
  (∀ tr1,
     get_image_manifest net from_header str_of_container self image tr = (Ret JNull, tr1) →
     image_work_dir net from_header str_of_container self image tr = (Ret (Path "/"), tr1))
  ∧ (∀ manifest tr1,
     get_image_manifest net from_header str_of_container self image tr = (Ret manifest, tr1) →
     config_digest manifest = Ret JNull →
     image_work_dir net from_header str_of_container self image tr = (Ret (Path "/"), tr1))
  ∧ (∀ r tr',
     blob_answered net from_header str_of_container self image tr r tr' → status_code r ≠ 200%Z →
     image_work_dir net from_header str_of_container self image tr = (Ret (Path "/"), tr'))
  ∧ (∀ r tr' members,
     blob_answered net from_header str_of_container self image tr r tr' → status_code r = 200%Z →
     body r = Some (JObj members) →
     (assoc "config" members = None ∨ assoc "config" members = Some JNull →
      image_work_dir net from_header str_of_container self image tr = (Ret (Path "/"), tr'))
     ∧ (∀ nested,
        assoc "config" members = Some (JObj nested) →
        image_work_dir net from_header str_of_container self image tr =
        match assoc "WorkingDir" nested with
        | None | Some (JStr EmptyString) => (Ret (Path "/"), tr')
        | Some (JStr workdir) => (Ret (Path workdir), tr')
        | Some _ => (Raise TypeError, tr')
        end))
  ∧ (∀ e tr',
     get_image_config net from_header str_of_container self image tr = (Raise e, tr') →
     image_work_dir net from_header str_of_container self image tr = (Raise e, tr'))
  ∧ (∀ r tr',
     blob_answered net from_header str_of_container self image tr r tr' → status_code r = 200%Z →
     body r = None →
     image_work_dir net from_header str_of_container self image tr
     = (Raise JSONDecodeError, tr'))
  ∧ (∀ e tr',
     blob_failed net from_header str_of_container self image tr e tr' →
     image_work_dir net from_header str_of_container self image tr
     = (Raise (RequestError e), tr'))
  ∧ (∀ e tr1,
     get_image_manifest net from_header str_of_container self image tr = (Raise e, tr1) →
     image_work_dir net from_header str_of_container self image tr = (Raise e, tr1)).
Proof.
  assert (Hblob : ∀ r tr', blob_answered net from_header str_of_container self image tr r tr' →
    get_image_config net from_header str_of_container self image tr =
    if (status_code r =? 200)%Z then json_of r tr' else (Ret JNull, tr')).
  { intros r tr' (manifest & tr1 & digest & token & tr2 & Hm & Hnm & Hd & Hnd & Ht & Hn & ->).
    by rewrite (get_image_config_manifest _ _ _ _ _ Hm), Hnm, Hd, Hnd, Ht, Hn. }
  assert (Hraise : ∀ e tr',
    get_image_config net from_header str_of_container self image tr = (Raise e, tr') →
    image_work_dir net from_header str_of_container self image tr = (Raise e, tr')).
  { intros e tr' Hc. unfold image_work_dir. erewrite bind_run_raise; [done|].
    unfold image_workdir. by rewrite (bind_run_raise _ _ _ _ _ Hc). }
  split_and!.
  - intros tr1 Hm. apply (image_work_dir_config _ _ _ JNull).
    by rewrite (get_image_config_manifest _ _ _ _ _ Hm).
  - intros manifest tr1 Hm Hd. apply (image_work_dir_config _ _ _ JNull).
    rewrite (get_image_config_manifest _ _ _ _ _ Hm), Hd. by destruct (is_none manifest).
  - intros r tr' Hb Hs. apply (image_work_dir_config _ _ _ JNull).
    by rewrite (Hblob _ _ Hb), (proj2 (Z.eqb_neq _ _) Hs).
  - intros r tr' members Hb Hs Hbody.
    assert (Hc : get_image_config net from_header str_of_container self image tr
                 = (Ret (JObj members), tr')).
    { rewrite (Hblob _ _ Hb), Hs. unfold json_of. by rewrite Hbody. }
    rewrite (image_work_dir_config _ _ _ _ _ Hc). cbn [is_none py_get].
    split.
    + by intros [-> | ->].
    + intros nested ->. simpl.
      destruct (assoc "WorkingDir" nested) as [[| | |[|]| |]|]; done.
  - exact Hraise.
  - intros r tr' Hb Hs Hbody. apply Hraise.
    rewrite (Hblob _ _ Hb), Hs. unfold json_of. by rewrite Hbody.
  - intros e tr' (manifest & tr1 & digest & token & tr2 & Hm & Hnm & Hd & Hnd & Ht & Hn & ->).
    apply Hraise.
    by rewrite (get_image_config_manifest _ _ _ _ _ Hm), Hnm, Hd, Hnd, Ht, Hn.
  - intros e tr1 Hm. apply Hraise. unfold get_image_config.
    by rewrite (bind_run_raise _ _ _ _ _ Hm).
Qed.

End ClientFacts.

(** ** Instances as objects *)

(** C10: [with_oauth2_token] allocates a new instance that has the
    hostname of [self] and the given token; [self] and every other
    instance already in the store are left as they were. *)
Theorem with_oauth2_token_new_instance (h : Store.store) (self : Store.ref)
    (o : ImageRepoDockerAPI) (t : string) :
  h !! self = Some o →
  ∃ h' r,
    Store.with_oauth2_token h self t = Some (h', r)
    ∧ h' !! r = Some (mkImageRepoDockerAPI (repo_hostname o) (Some t))
    ∧ r ≠ self
    ∧ h' !! self = Some o
    ∧ ∀ q x, h !! q = Some x → h' !! q = Some x.
Proof.
  intros Hself. unfold Store.with_oauth2_token, Store.new. rewrite Hself. simpl.
  eexists _, _. split; [reflexivity|].
  pose proof (lookup_lt_Some _ _ _ Hself) as Hlt.
  split; [|split; [lia|split]].
  - by rewrite lookup_app_r, Nat.sub_diag by lia.
  - by apply lookup_app_l_Some.
  - intros q x Hq. by apply lookup_app_l_Some.
Qed.

Lemma with_oauth2_token_new_instance_witness :
  [api; other_api] !! 0 = Some api
  ∧ ∃ h' r,
      Store.with_oauth2_token [api; other_api] 0 "s3cr3t" = Some (h', r)
      ∧ h' !! r = Some (mkImageRepoDockerAPI (repo_hostname api) (Some "s3cr3t"))
      ∧ r ≠ 0
      ∧ h' !! 0 = Some api
      ∧ ∀ q x, [api; other_api] !! q = Some x → h' !! q = Some x.
Proof.
  split; [reflexivity|].
  apply (with_oauth2_token_new_instance [api; other_api] 0 api "s3cr3t"). reflexivity.
Defined.

Lemma hostname_mismatch_witness :
  let net := scripted [status 200; ok manifest_doc] in
  (hostname img ≠ repo_hostname other_api
   ∧ image_exists net parse_header no_container other_api img []
     = (Raise (ImageParseError (HostnameMismatch "registry.example.com" "registry-1.docker.io")),
        []))
  ∧ (hostname img = repo_hostname api
     ∧ ∃ tr', (get_image_manifest net parse_header no_container api img []).2
              = [probe api img]
                  ++ manifest_request no_container img JNull ManifestTypes.docker_v2 :: tr').
Proof.
  intros net. split.
  - assert (H : hostname img ≠ repo_hostname other_api) by (vm_compute; discriminate).
    split; [exact H|].
    apply (proj1 (hostname_mismatch_raises_before_any_request
                    net parse_header no_container other_api img []) H).
  - split; [reflexivity|].
    destruct (proj2 (proj2 (proj2 (proj2 (hostname_mismatch_raises_before_any_request
                net parse_header no_container api img []) eq_refl))) JNull [probe api img]
                eq_refl) as (tr' & H & _).
    by exists tr'.
Defined.

Lemma manifest_negotiation_witness :
  let net := scripted [status 404; status 404; ok manifest_doc] in
  let req1 := manifest_request no_container img JNull ManifestTypes.docker_v2 in
  let req2 := manifest_request no_container img JNull ManifestTypes.oci_v1 in
  hostname img = repo_hostname api
  ∧ _get_docker_token net parse_header api img [] = (Ret JNull, [probe api img])
  ∧ image_exists net parse_header no_container api img []
    = (Ret true, [probe api img; req1; req2]).
Proof.
  intros net req1 req2.
  assert (Htok : _get_docker_token net parse_header api img [] = (Ret JNull, [probe api img]))
    by (vm_compute; reflexivity).
  split; [reflexivity|]. split; [exact Htok|].
  pose proof (manifest_negotiation net parse_header no_container api img [] JNull
                [probe api img] eq_refl Htok) as (_ & H & _).
  apply (H (mkResponse 404 ∅ (Some (JObj []))) (mkResponse 200 ∅ (Some manifest_doc))
           manifest_doc); try reflexivity; discriminate.
Defined.

(** C1 as stated fails: a 200 answer to the first manifest request whose
    body is not JSON makes [image_exists] raise. *)
Lemma primary_200_counterexample :
  ¬ (∀ (net : registry) from_header str_of_container self image tr token tr1 r1,
       hostname image = repo_hostname self →
       _get_docker_token net from_header self image tr = (Ret token, tr1) →
       net tr1 (manifest_request str_of_container image token ManifestTypes.docker_v2)
         = Answer r1 →
       status_code r1 = 200%Z →
       (image_exists net from_header str_of_container self image tr).1 = Ret true).
Proof.
  intros H.
  specialize (H (scripted [status 404; not_json 200]) parse_header no_container api img []
                JNull [probe api img] (mkResponse 200 ∅ None) eq_refl).
  assert (Hx : (image_exists (scripted [status 404; not_json 200]) parse_header no_container
                  api img []).1 = Raise JSONDecodeError) by (vm_compute; reflexivity).
  rewrite Hx in H. discriminate H; vm_compute; reflexivity.
Qed.

Lemma working_directory_witness :
  let net := scripted [status 404; ok manifest_doc; status 404; ok (config_doc "/home/jovyan/")] in
  image_work_dir net parse_header no_container api img []
  = (Ret (mkPosixPath "/" ["home"; "jovyan"]),
     [probe api img;
      manifest_request no_container img JNull ManifestTypes.docker_v2;
      probe api img;
      blob_request no_container img (JStr "sha256:c0ffee") JNull]).
Proof.
  intros net.
  pose proof (working_directory net parse_header no_container api img []) as (_ & _ & _ & H & _).
  refine (proj2 (H (mkResponse 200 ∅ (Some (config_doc "/home/jovyan/"))) _
                   [("config", JObj [("WorkingDir", JStr "/home/jovyan/")])] _ eq_refl eq_refl)
                [("WorkingDir", JStr "/home/jovyan/")] eq_refl).
  exists manifest_doc, [probe api img;
                        manifest_request no_container img JNull ManifestTypes.docker_v2],
    (JStr "sha256:c0ffee"), JNull,
    [probe api img; manifest_request no_container img JNull ManifestTypes.docker_v2;
     probe api img].
  repeat split; vm_compute; reflexivity.
Defined.

(** C3 as stated fails: a blob answered by 200 with a body that is not
    JSON makes the working directory lookup raise. *)
Lemma working_directory_counterexample :
  ¬ (∀ (net : registry) from_header str_of_container self image tr,
       ∃ path tr', image_work_dir net from_header str_of_container self image tr
                   = (Ret path, tr')).
Proof.
  intros H.
  destruct (H (scripted [status 404; ok manifest_doc; status 404; not_json 200])
              parse_header no_container api img []) as (path & tr' & Hx).
  vm_compute in Hx. discriminate Hx.
Qed.

Lemma challenge_without_realm_witness :
  let net := scripted [unauthorized "Bearer service=registry"; ok manifest_doc] in
  challenged net [] api img "Bearer service=registry"
  ∧ image_exists net parse_header no_container api img []
    = (Raise (KeyError "realm"), [probe api img]).
Proof.
  intros net.
  assert (Hc : challenged net [] api img "Bearer service=registry").
  { eexists. split; [vm_compute; reflexivity|]. split; reflexivity. }
  split; [exact Hc|].
  apply (challenge_without_realm_fails net parse_header no_container api img []
           "Bearer service=registry"
           (mkWWWAuthenticate "bearer" (Grammar.dict [("service", "registry")])) Hc);
    reflexivity.
Defined.

Lemma token_exchange_witness :
  let net := scripted [unauthorized example_challenge;
                       Answer (mkResponse 200 ∅ (Some (JObj [("token", JStr "tok")])))] in
  challenged net [] api_with_token img example_challenge
  ∧ ∃ req,
      req_headers req !! "Authorization" = Some "Basic b2F1dGgyOnMzY3IzdA=="
      ∧ _get_docker_token net parse_header api_with_token img []
        = (Ret (JStr "tok"), [probe api_with_token img; req]).
Proof.
  intros net.
  assert (Hc : challenged net [] api_with_token img example_challenge).
  { eexists. split; [vm_compute; reflexivity|]. split; reflexivity. }
  split; [exact Hc|].
  pose proof (token_exchange net parse_header api_with_token img [] example_challenge
                (mkWWWAuthenticate "bearer"
                   (Grammar.dict [("realm", "https://auth.example.com/token");
                                  ("service", "registry")]))
                "https://auth.example.com/token" Hc eq_refl eq_refl)
    as (_ & _ & _ & Hauth & Hrun).
  eexists. split; [exact Hauth|].
  apply (Hrun (mkResponse 200 ∅ (Some (JObj [("token", JStr "tok")])))
              [("token", JStr "tok")]); reflexivity.
Defined.

(** C5 as stated fails: a 403 answer from the realm does not make the
    token exchange fail. *)
Lemma forbidden_token_counterexample :
  ¬ (∀ (net : registry) from_header self image tr value www_auth realm token_req,
       challenged net tr self image value →
       from_header value = Some www_auth →
       parameters www_auth !! "realm" = Some realm →
       net (tr ++ [probe self image]) (token_request self www_auth realm) = Answer token_req →
       status_code token_req = 403%Z →
       ∃ e, (_get_docker_token net from_header self image tr).1 = Raise e).
Proof.
  intros H.
  destruct (H (scripted [unauthorized example_challenge; status 403]) parse_header
              api_with_token img [] example_challenge
              (mkWWWAuthenticate "bearer"
                 (Grammar.dict [("realm", "https://auth.example.com/token");
                                ("service", "registry")]))
              "https://auth.example.com/token" (mkResponse 403 ∅ (Some (JObj []))))
    as [e He]; try reflexivity.
  - eexists. split; [vm_compute; reflexivity|]. split; reflexivity.
  - vm_compute in He. discriminate He.
Qed.

Lemma probe_failure_witness :
  let net := scripted [Fails ConnectionError; ok manifest_doc] in
  net [] (probe api img) = Fails ConnectionError
  ∧ _get_docker_token net parse_header api img [] = (Ret JNull, [probe api img])
  ∧ ∃ tr', (get_image_manifest net parse_header no_container api img []).2
           = [] ++ probe api img
                :: manifest_request no_container img JNull ManifestTypes.docker_v2 :: tr'.
Proof.
  intros net.
  assert (Hn : net [] (probe api img) = Fails ConnectionError) by reflexivity.
  split; [exact Hn|].
  pose proof (proj1 (probe_failure net parse_header no_container api img []) Hn) as [Ht Hm].
  split; [exact Ht|]. exact (Hm eq_refl).
Defined.

(** C6 as stated fails: the probe cannot reach the registry, yet
    [image_exists] answers true. *)
Lemma probe_failure_counterexample :
  ¬ (∀ (net : registry) from_header str_of_container self image tr e,
       hostname image = repo_hostname self →
       net tr (probe self image) = Fails e →
       ∃ e', (image_exists net from_header str_of_container self image tr).1
             = Raise (RequestError e')).
Proof.
  intros H.
  destruct (H (scripted [Fails ConnectionError; ok manifest_doc]) parse_header no_container
              api img [] ConnectionError eq_refl eq_refl) as [e' He].
  vm_compute in He. discriminate He.
Qed.

(** ** The matcher *)

Module ReFacts.
Import Re.
Export ReSpec.

#[local] Arguments String.append !_ _ / : simpl nomatch.

(** *** Strings *)

Lemma app_nil_r_s (w : string) : w +:+ "" = w.
Proof. induction w; simpl; congruence. Qed.

Lemma app_assoc_s (a b c : string) : (a +:+ b) +:+ c = a +:+ (b +:+ c).
Proof. induction a; simpl; congruence. Qed.

Lemma count_char_app c a b : count_char c (a +:+ b) = count_char c a + count_char c b.
Proof. induction a; simpl; lia. Qed.

Lemma all_in_app cls a b : all_in cls (a +:+ b) = all_in cls a && all_in cls b.
Proof. induction a; simpl; [done|]. rewrite IHa. by rewrite andb_assoc. Qed.

Lemma all_in_count cls c w :
  in_class cls c = false → all_in cls w = true → count_char c w = 0.
Proof.
  intros Hc. induction w as [|d w IH]; simpl; [done|].
  intros [Hd Hw]%andb_prop. rewrite (IH Hw).
  destruct (Ascii.eqb_spec d c); [congruence|done].
Qed.

Lemma all_in_mono (cls1 cls2 : charclass) w :
  (∀ c, in_class cls1 c = true → in_class cls2 c = true) →
  all_in cls1 w = true → all_in cls2 w = true.
Proof.
  intros H. induction w as [|d w IH]; simpl; [done|].
  intros [Hd Hw]%andb_prop. by rewrite (H _ Hd), (IH Hw).
Qed.

Lemma word_mono (cls1 cls2 : charclass) w :
  (∀ c, in_class cls1 c = true → in_class cls2 c = true) →
  word cls1 w → word cls2 w.
Proof. intros H [? ?]. split; [done|]. by apply (all_in_mono cls1). Qed.

(** *** Greedy repetition *)

Lemma rep1_stops cls s : stops cls s → rep1 cls s = [].
Proof. destruct s; simpl; [done|]. by intros ->. Qed.

Lemma rep1_elem cls s w l s' :
  (w, l, s') ∈ rep1 cls s → s = w +:+ s' ∧ word cls w.
Proof.
  revert w l s'. induction s as [|c s IH]; intros w l s'; simpl.
  - by intros ?%elem_of_nil.
  - destruct (in_class cls c) eqn:Hc; [|by intros ?%elem_of_nil].
    rewrite elem_of_app, list_elem_of_fmap, list_elem_of_singleton.
    intros [([[w0 l0] s0] & [= -> -> ->] & Hin) | [= -> -> ->]].
    + destruct (IH _ _ _ Hin) as [-> [_ Hw]]. split; [done|].
      split; [done|]. simpl. by rewrite Hc, Hw.
    + split; [done|]. split; [done|]. simpl. by rewrite Hc.
Qed.

(** Only the longest match survives a continuation that refuses to
    start at a character of the class. *)
Lemma rep1_bind {B : Type} cls (f : string * ascii * string → list B) c w s' :
  all_in cls (String c w) = true → stops cls s' →
  (∀ w0 l d s, in_class cls d = true → f (w0, l, String d s) = []) →
  rep1 cls (String c w +:+ s') ≫= f = f (String c w, last_char c w, s').
Proof.
  revert f c. induction w as [|d w IH]; intros f c Hw Hs Hf.
  - simpl in *. rewrite andb_true_r in Hw. rewrite Hw.
    rewrite (rep1_stops _ _ Hs). simpl. by rewrite app_nil_r.
  - change (String c (String d w) +:+ s') with (String c (String d w +:+ s')).
    cbn [rep1]. apply andb_prop in Hw as [Hc Hw]. rewrite Hc.
    rewrite bind_app, bind_singleton.
    pose proof Hw as [Hd _]%andb_prop.
    change (String d w +:+ s') with (String d (w +:+ s')) at 2.
    rewrite (Hf _ _ _ _ Hd), app_nil_r.
    rewrite list_fmap_bind.
    rewrite (IH (f ∘ (λ '(w0, l, r), (String c w0, l, r))) d Hw Hs); [done|].
    intros w0 l d0 s Hd0. simpl. by apply Hf.
Qed.

(** *** What a match consumes *)

Lemma run_sound r st w st' :
  (w, st') ∈ run r st → rest st = w +:+ rest st' ∧ lang r w.
Proof.
  revert st w st'. induction r as [| |c|cls|r1 IH1 r2 IH2|r1 IH1 r2 IH2|a|a|n r1 IH1];
    intros st w st'; cbn [run lang].
  - case_match; [|by intros ?%elem_of_nil]. by intros [= -> ->]%list_elem_of_singleton.
  - case_match; [|by intros ?%elem_of_nil]. by intros [= -> ->]%list_elem_of_singleton.
  - destruct (rest st) as [|d s'] eqn:Hr; [by intros ?%elem_of_nil|].
    destruct (Ascii.eqb_spec d c) as [->|]; [|by intros ?%elem_of_nil].
    by intros [= -> ->]%list_elem_of_singleton.
  - rewrite list_elem_of_fmap. intros ([[w0 l] s'] & [= -> ->] & Hin).
    by apply rep1_elem in Hin.
  - rewrite list_elem_of_bind. intros ([w1 st1] & Hin2 & Hin1).
    rewrite list_elem_of_bind in Hin2. destruct Hin2 as ([w2 st2] & Hin3 & Hin2).
    apply list_elem_of_singleton in Hin3 as [= -> ->].
    destruct (IH1 _ _ _ Hin1) as [E1 L1]. destruct (IH2 _ _ _ Hin2) as [E2 L2].
    split; [by rewrite E1, E2, app_assoc_s|]. by exists w1, w2.
  - rewrite elem_of_app. intros [Hin|Hin].
    + destruct (IH1 _ _ _ Hin). auto.
    + destruct (IH2 _ _ _ Hin). auto.
  - case_match; [|by intros ?%elem_of_nil]. by intros [= -> ->]%list_elem_of_singleton.
  - case_match; [|by intros ?%elem_of_nil]. by intros [= -> ->]%list_elem_of_singleton.
  - rewrite list_elem_of_fmap. intros ([w0 st0] & [= -> ->] & Hin).
    by apply IH1 in Hin.
Qed.

Lemma run_ends_eol r st w st' :
  ends_eol r = true → (w, st') ∈ run r st → at_eol (rest st') = true.
Proof.
  revert st w st'. induction r as [| |c|cls|r1 IH1 r2 IH2|r1 IH1 r2 IH2|a|a|n r1 IH1];
    intros st w st'; cbn [run ends_eol]; try discriminate.
  - intros _. case_match; [|by intros ?%elem_of_nil].
    by intros [= -> ->]%list_elem_of_singleton.
  - intros He. rewrite list_elem_of_bind. intros ([w1 st1] & Hin2 & Hin1).
    rewrite list_elem_of_bind in Hin2. destruct Hin2 as ([w2 st2] & Hin3 & Hin2).
    apply list_elem_of_singleton in Hin3 as [= -> ->]. by eapply IH2.
Qed.

(** *** The groups of a match *)

Lemma run_groups_ok ok r st w st' :
  captures_ok ok r → (w, st') ∈ run r st →
  map_Forall ok (groups st) → map_Forall ok (groups st').
Proof.
  revert st w st'. induction r as [| |c|cls|r1 IH1 r2 IH2|r1 IH1 r2 IH2|a|a|n r1 IH1];
    intros st w st'; cbn [run captures_ok].
  - intros _. case_match; [|by intros ?%elem_of_nil].
    by intros [= -> ->]%list_elem_of_singleton.
  - intros _. case_match; [|by intros ?%elem_of_nil].
    by intros [= -> ->]%list_elem_of_singleton.
  - intros _. destruct (rest st) as [|d s'] eqn:Hr; [by intros ?%elem_of_nil|].
    case_match; [|by intros ?%elem_of_nil].
    by intros [= -> ->]%list_elem_of_singleton.
  - intros _. rewrite list_elem_of_fmap. by intros ([[w0 l] s'] & [= -> ->] & Hin).
  - intros [C1 C2]. rewrite list_elem_of_bind. intros ([w1 st1] & Hin2 & Hin1).
    rewrite list_elem_of_bind in Hin2. destruct Hin2 as ([w2 st2] & Hin3 & Hin2).
    apply list_elem_of_singleton in Hin3 as [= -> ->]. eauto.
  - intros [C1 C2]. rewrite elem_of_app. intros [Hin|Hin]; eauto.
  - intros _. case_match; [|by intros ?%elem_of_nil].
    by intros [= -> ->]%list_elem_of_singleton.
  - intros _. case_match; [|by intros ?%elem_of_nil].
    by intros [= -> ->]%list_elem_of_singleton.
  - intros [Hn C1]. rewrite list_elem_of_fmap. intros ([w0 st0] & [= -> ->] & Hin) Hg.
    cbn [groups]. apply map_Forall_insert_2; [|by eauto].
    apply Hn. by apply run_sound in Hin as [_ ?].
Qed.

Lemma run_must r st w st' n :
  (w, st') ∈ run r st →
  n ∈ must r ∨ is_Some (groups st !! n) → is_Some (groups st' !! n).
Proof.
  revert st w st'. induction r as [| |c|cls|r1 IH1 r2 IH2|r1 IH1 r2 IH2|a|a|m r1 IH1];
    intros st w st'; cbn [run must].
  - case_match; [|by intros ?%elem_of_nil].
    intros [= -> ->]%list_elem_of_singleton [?%elem_of_nil|?]; done.
  - case_match; [|by intros ?%elem_of_nil].
    intros [= -> ->]%list_elem_of_singleton [?%elem_of_nil|?]; done.
  - destruct (rest st) as [|d s'] eqn:Hr; [by intros ?%elem_of_nil|].
    case_match; [|by intros ?%elem_of_nil].
    intros [= -> ->]%list_elem_of_singleton [?%elem_of_nil|?]; done.
  - rewrite list_elem_of_fmap.
    intros ([[w0 l] s'] & [= -> ->] & Hin) [?%elem_of_nil|?]; done.
  - rewrite list_elem_of_bind. intros ([w1 st1] & Hin2 & Hin1).
    rewrite list_elem_of_bind in Hin2. destruct Hin2 as ([w2 st2] & Hin3 & Hin2).
    apply list_elem_of_singleton in Hin3 as [= -> ->].
    rewrite elem_of_app. intros [[H|H]|H].
    + eapply IH2; [done|]. right. eapply IH1; eauto.
    + eapply IH2; eauto.
    + eapply IH2; [done|]. right. eapply IH1; eauto.
  - rewrite elem_of_app. intros [Hin|Hin] [?%elem_of_nil|H]; try done.
    + eapply IH1; eauto.
    + eapply IH2; eauto.
  - case_match; [|by intros ?%elem_of_nil].
    intros [= -> ->]%list_elem_of_singleton [?%elem_of_nil|?]; done.
  - case_match; [|by intros ?%elem_of_nil].
    intros [= -> ->]%list_elem_of_singleton [?%elem_of_nil|?]; done.
  - rewrite list_elem_of_fmap. intros ([w0 st0] & [= -> ->] & Hin) Hn. cbn [groups].
    destruct (decide (m = n)) as [->|Hne]; [by rewrite lookup_insert_eq|].
    rewrite lookup_insert_ne by done. eapply IH1; [done|].
    destruct Hn as [Hn|Hn]; [|by right]. left.
    apply elem_of_cons in Hn as [?|?]; [congruence|done].
Qed.

(** A successful [re_match] is the first of the matches found. *)
Lemma re_match_Some r path d :
  re_match r path = Some d →
  ∃ w st', (w, st') ∈ run r (MState None path ∅) ∧ d = groups st'.
Proof.
  unfold re_match. destruct (run r (MState None path ∅)) as [|[w st'] l] eqn:E; [done|].
  intros [= <-]. exists w, st'. split; [|done]. apply elem_of_cons. by left.
Qed.

End ReFacts.

(** ** The parser *)

Section Parser.
Import Re ReFacts.

Lemma completeb_complete g : completeb g = true → complete g.
Proof.
  unfold completeb, complete. rewrite forallb_forall. intros H k Hk.
  apply list_elem_of_In in Hk. apply H in Hk.
  apply orb_prop in Hk as [Hk|Hk]; apply bool_decide_eq_true_1 in Hk; auto.
Qed.

Lemma regexes_complete : Forall complete Grammar.regexes.
Proof.
  apply Forall_forall. intros g Hg. apply completeb_complete.
  assert (H : forallb completeb Grammar.regexes = true) by (vm_compute; reflexivity).
  rewrite forallb_forall in H. apply H. by apply list_elem_of_In.
Qed.

Lemma getitem_Some (d : gmap string string) k v : d !! k = Some v → getitem d k = Ret v.
Proof. unfold getitem. by intros ->. Qed.

(** A complete grammar that matches always yields an interpretation
    that has a hostname, an image and a tag. *)
Lemma lump_complete g path match_dict :
  complete g → re_match g.1 path = Some match_dict →
  ∃ u i m,
    (g.2 ∪ match_dict) !! "username" = Some u
    ∧ (g.2 ∪ match_dict) !! "image" = Some i
    ∧ m = delete "username" (<["image" := u +:+ "/" +:+ i]> (g.2 ∪ match_dict))
    ∧ lump match_dict g.2 = Ret m
    ∧ m !! "hostname" = (g.2 ∪ match_dict) !! "hostname"
    ∧ m !! "image" = Some (u +:+ "/" +:+ i)
    ∧ m !! "tag" = (g.2 ∪ match_dict) !! "tag"
    ∧ is_Some (m !! "hostname") ∧ is_Some (m !! "tag").
Proof.
  intros Hc Hm. apply re_match_Some in Hm as (w & st' & Hin & ->).
  assert (Hk : ∀ k, k ∈ keys → is_Some ((g.2 ∪ groups st') !! k)).
  { intros k Hk. apply lookup_union_is_Some.
    destruct (Hc k Hk) as [H|H]; [right|by left].
    eapply run_must; [done|]. by left. }
  destruct (Hk "username") as [u Hu]; [set_solver|].
  destruct (Hk "image") as [i Hi]; [set_solver|].
  exists u, i, (delete "username" (<["image" := u +:+ "/" +:+ i]> (g.2 ∪ groups st'))).
  assert (Hh : ∀ k, k ≠ "username" → k ≠ "image" →
    delete "username" (<["image" := u +:+ "/" +:+ i]> (g.2 ∪ groups st')) !! k
    = (g.2 ∪ groups st') !! k).
  { intros k ? ?. by rewrite lookup_delete_ne, lookup_insert_ne. }
  split; [done|]. split; [done|]. split; [done|].
  split. { unfold lump. rewrite (getitem_Some _ _ _ Hu). simpl.
           by rewrite (getitem_Some _ _ _ Hi). }
  split; [by apply Hh|]. split. { by rewrite lookup_delete_ne, lookup_insert_eq. }
  split; [by apply Hh|].
  rewrite !Hh by done. split; apply Hk; set_solver.
Qed.

Lemma collect_candidates path rs acc :
  Forall complete rs →
  collect path rs acc = Ret (acc ++ omap (interpretation path) rs).
Proof.
  intros Hrs. revert acc. induction Hrs as [|[regex fill] rs Hc _ IH]; intros acc.
  - simpl. by rewrite app_nil_r.
  - cbn [collect omap list_omap]. unfold interpretation at 1. cbn [fst snd].
    destruct (re_match regex path) as [match_dict|] eqn:Hm; cbn [mbind option_bind].
    + destruct (lump_complete (regex, fill) path match_dict Hc Hm)
        as (u & i & m & _ & _ & _ & Hl & _). cbn [fst snd] in Hl. rewrite Hl.
      cbn [mbind res_bind]. rewrite IH. by rewrite <- app_assoc.
    + apply IH.
Qed.

Lemma candidates_image path m :
  m ∈ candidates path → ∃ img, image_of m = Ret img.
Proof.
  unfold candidates. rewrite list_elem_of_omap. intros (g & Hg & Hi).
  unfold interpretation in Hi.
  destruct (re_match g.1 path) as [match_dict|] eqn:Hm; [|done]. cbn in Hi.
  assert (Hc : complete g).
  { pose proof regexes_complete as H. rewrite Forall_forall in H. by apply H. }
  destruct (lump_complete g path match_dict Hc Hm)
    as (u & i & m' & _ & _ & _ & Hl & _ & Him & _ & [h Hh] & [t Ht]).
  rewrite Hl in Hi. injection Hi as <-.
  exists (mkImage h (u +:+ "/" +:+ i) t). unfold image_of.
  rewrite (getitem_Some _ _ _ Hh). cbn. rewrite (getitem_Some _ _ _ Him). cbn.
  by rewrite (getitem_Some _ _ _ Ht).
Qed.

Lemma candidates_length path : length (candidates path) = length (matching path).
Proof.
  unfold candidates, matching.
  pose proof regexes_complete as Hc.
  induction Hc as [|g rs Hg _ IH]; [done|].
  cbn [omap list_omap]. rewrite filter_cons. unfold interpretation at 1.
  destruct (re_match g.1 path) as [match_dict|] eqn:Hm; cbn [mbind option_bind].
  - destruct (lump_complete g path match_dict Hg Hm) as (u & i & m & _ & _ & _ & Hl & _).
    rewrite Hl. rewrite decide_True by eauto. simpl. by rewrite IH.
  - rewrite decide_False by (by intros [? ?]). apply IH.
Qed.

(** [from_path] in terms of the interpretations of its input. *)
Lemma from_path_candidates path :
  from_path path =
  match candidates path with
  | [] => Raise (ImageParseError (CannotParse path))
  | [m] => image_of m
  | ms => Raise (ImageParseError (TooManyInterpretations path ms))
  end.
Proof.
  unfold from_path. rewrite (collect_candidates path Grammar.regexes [] regexes_complete).
  cbn [app mbind res_bind]. fold (candidates path).
  by destruct (candidates path) as [|m [|m' ms]].
Qed.


(** C7: ["nginx"] is matched by one grammar only and parses to the
    public registry, the [library] namespace and the tag [latest]. *)
Theorem from_path_nginx :
  length (matching "nginx") = 1
  ∧ from_path "nginx" = Ret (mkImage "registry-1.docker.io" "library/nginx" "latest").
Proof. split; vm_compute; reflexivity. Qed.

(** The other references of the specification's examples, a string no
    grammar matches, and a reference followed by a newline, which [$]
    lets through. *)
Example from_path_user_image :
  from_path "user/image:1.0.0" = Ret (mkImage "registry-1.docker.io" "user/image" "1.0.0").
Proof. vm_compute. reflexivity. Qed.

Example from_path_hostname_path :
  from_path "gitlab.example.com/user/project/image:1.2.3"
  = Ret (mkImage "gitlab.example.com" "user/project/image" "1.2.3").
Proof. vm_compute. reflexivity. Qed.

Example from_path_unparseable :
  from_path "a/b/c" = Raise (ImageParseError (CannotParse "a/b/c")).
Proof. vm_compute. reflexivity. Qed.

Example from_path_trailing_newline :
  from_path ("nginx:1.28" +:+ String newline "")
  = Ret (mkImage "registry-1.docker.io" "library/nginx" "1.28").
Proof. vm_compute. reflexivity. Qed.

End Parser.

(** ** Well-formed images *)

Section WellFormed.
Import Re ReFacts.

#[local] Arguments String.append !_ _ / : simpl nomatch.

Ltac by_cases_on_char c :=
  destruct c as [[] [] [] [] [] [] [] []]; vm_compute; congruence.

Lemma alnum_username c : in_class G.alnum c = true → in_class G.username_cls c = true.
Proof. by_cases_on_char c. Qed.

Lemma docker_image_image c :
  in_class G.docker_image_cls c = true → in_class G.image_cls c = true.
Proof. by_cases_on_char c. Qed.

Lemma tag_sha c : in_class G.tag_cls c = true → in_class G.sha_cls c = true.
Proof. by_cases_on_char c. Qed.

Lemma sha_tag c :
  in_class G.sha_cls c = true → Ascii.eqb c ":" = false → in_class G.tag_cls c = true.
Proof. by_cases_on_char c. Qed.

Lemma ok_hostname : captures_ok group_ok G.hostname.
Proof.
  cbn. split; [|done]. intros w (w0 & w1 & -> & -> & h1 & w2 & -> & Hh1 & w3 & w4 & -> & ->
    & h2 & w5 & -> & Hh2 & ->).
  unfold group_ok; split_and!; try discriminate; intros _. exists h1, h2.
  by rewrite app_nil_r_s.
Qed.

Lemma ok_docker_username : captures_ok group_ok G.docker_username.
Proof.
  cbn. split; [|done]. intros w (w0 & w1 & -> & -> & u & w2 & -> & Hu & ->).
  unfold group_ok; split_and!; try discriminate; intros _. rewrite app_nil_r_s. cbn.
  eapply word_mono; [apply alnum_username|done].
Qed.

Lemma ok_username : captures_ok group_ok G.username.
Proof.
  cbn. split; [|done]. intros w (w0 & w1 & -> & -> & u & w2 & -> & Hu & ->).
  unfold group_ok; split_and!; try discriminate; intros _. by rewrite app_nil_r_s.
Qed.

Lemma lookaround_empty w :
  lang G.after_slash_or_start w ∨ lang G.before_colon_at_or_end w → w = "".
Proof. cbn. intuition. Qed.

Lemma ok_docker_image : captures_ok group_ok G.docker_image.
Proof.
  cbn -[G.after_slash_or_start G.before_colon_at_or_end lang].
  split; [|done]. intros w. cbn -[G.after_slash_or_start G.before_colon_at_or_end].
  intros (w0 & w1 & -> & H0 & i & w2 & -> & Hi & H2).
  rewrite (lookaround_empty w0), (lookaround_empty w2) by auto.
  unfold group_ok; split_and!; try discriminate; intros _. rewrite app_nil_r_s. cbn.
  eapply word_mono; [apply docker_image_image|done].
Qed.

Lemma ok_image : captures_ok group_ok G.image.
Proof.
  cbn -[G.after_slash_or_start G.before_colon_at_or_end lang].
  split; [|done]. intros w. cbn -[G.after_slash_or_start G.before_colon_at_or_end].
  intros (w0 & w1 & -> & H0 & i & w2 & -> & Hi & H2).
  rewrite (lookaround_empty w0), (lookaround_empty w2) by auto.
  unfold group_ok; split_and!; try discriminate; intros _. by rewrite app_nil_r_s.
Qed.

Lemma ok_sha : captures_ok group_ok G.sha.
Proof.
  cbn. split; [|done]. intros w (w0 & w1 & -> & -> & t & w2 & -> & Ht & ->).
  unfold group_ok; split_and!; try discriminate; intros _. by rewrite app_nil_r_s.
Qed.

Lemma ok_tag : captures_ok group_ok G.tag.
Proof.
  cbn. split; [|done]. intros w (w0 & w1 & -> & -> & t & w2 & -> & Ht & ->).
  unfold group_ok; split_and!; try discriminate; intros _. rewrite app_nil_r_s. cbn.
  eapply word_mono; [apply tag_sha|done].
Qed.

Lemma ok_default_hostname : is_hostname "registry-1.docker.io".
Proof. exists "registry-1", "docker.io". by vm_compute. Qed.

Lemma ok_default k v :
  (k, v) ∈ [("hostname", "registry-1.docker.io"); ("username", "library"); ("tag", "latest")] →
  group_ok k v.
Proof.
  intros Hk.
  repeat (apply elem_of_cons in Hk as [[= -> ->]|Hk]); [| | |by apply elem_of_nil in Hk].
  - unfold group_ok; split_and!; try discriminate; intros _. apply ok_default_hostname.
  - unfold group_ok; split_and!; try discriminate; intros _. by vm_compute.
  - unfold group_ok; split_and!; try discriminate; intros _. by vm_compute.
Qed.

Lemma ok_dict l :
  l ⊆ [("hostname", "registry-1.docker.io"); ("username", "library"); ("tag", "latest")] →
  map_Forall group_ok (G.dict l).
Proof.
  intros Hl k v Hk. apply elem_of_list_to_map_2 in Hk. apply ok_default. by apply Hl.
Qed.

Lemma regexes_ok :
  Forall (λ g, captures_ok group_ok g.1 ∧ map_Forall group_ok g.2) Grammar.regexes.
Proof.
  unfold Grammar.regexes.
  repeat (apply List.Forall_cons;
    [ split;
      [ cbn [fst G.build_re foldr captures_ok G.slash G.colon G.at_sign];
        split_and!; try done;
        auto using ok_hostname, ok_docker_username, ok_username, ok_docker_image,
          ok_image, ok_sha, ok_tag
      | cbn [snd]; apply ok_dict; intros kv Hkv;
        repeat (apply elem_of_cons in Hkv as [->|Hkv]);
        try (by apply elem_of_nil in Hkv);
        repeat first [apply list_elem_of_here | apply list_elem_of_further] ]
    | ]).
  apply List.Forall_nil.
Qed.

(** Every image that [from_path] returns is well-formed. *)
Lemma from_path_wf path img : from_path path = Ret img → wf img.
Proof.
  intros Hp. pose proof (from_path_candidates path) as Hc. rewrite Hp in Hc.
  destruct (candidates path) as [|m [|m' ms]] eqn:Hcs; [done| |done].
  assert (Hm : m ∈ candidates path) by (rewrite Hcs; set_solver).
  unfold candidates in Hm. apply list_elem_of_omap in Hm as (g & Hg & Hi).
  unfold interpretation in Hi.
  destruct (re_match g.1 path) as [match_dict|] eqn:Hmatch; [|done]. cbn in Hi.
  assert (Hcomplete : complete g).
  { pose proof regexes_complete as H. rewrite Forall_forall in H. by apply H. }
  destruct (lump_complete g path match_dict Hcomplete Hmatch)
    as (u & i & m0 & Hu & Hi' & _ & Hl & Hmh & Hmi & Hmt & [h Hh] & [t Ht]).
  rewrite Hl in Hi. injection Hi as ->.
  assert (Hok : map_Forall group_ok (g.2 ∪ match_dict)).
  { pose proof regexes_ok as H. rewrite Forall_forall in H.
    destruct (H g Hg) as [Hcap Hfill].
    apply map_Forall_union_2; [done|].
    apply re_match_Some in Hmatch as (w & st' & Hin & ->).
    eapply run_groups_ok; [exact Hcap|exact Hin|]. cbn. apply map_Forall_empty. }
  unfold image_of in Hc. rewrite (getitem_Some _ _ _ Hh) in Hc. cbn in Hc.
  rewrite (getitem_Some _ _ _ Hmi) in Hc. cbn in Hc.
  rewrite (getitem_Some _ _ _ Ht) in Hc. cbn in Hc. injection Hc as ->.
  rewrite Hmh in Hh. rewrite Hmt in Ht.
  exists u, i. cbn.
  split; [by apply (Hok _ _ Hh)|]. split; [done|].
  split; [by apply (Hok _ _ Hu)|]. split; [by apply (Hok _ _ Hi')|].
  by apply (Hok _ _ Ht).
Qed.

End WellFormed.

(** ** Matching a string of known shape *)

Section Shapes.
Import Re ReFacts.

#[local] Arguments String.append !_ _ / : simpl nomatch.

Lemma in_class_neq cls c d :
  in_class cls c = false → in_class cls d = true → Ascii.eqb d c = false.
Proof. intros Hc Hd. destruct (Ascii.eqb_spec d c); [congruence|done]. Qed.

Lemma rejects_ahead_chr cls c : in_class cls c = false → rejects cls (Ahead (AtChr c)).
Proof. intros Hc p d s g Hd. cbn. by rewrite (in_class_neq _ _ _ Hc Hd). Qed.

Lemma rejects_ahead_eol cls : in_class cls newline = false → rejects cls (Ahead AtEol).
Proof.
  intros Hc p d s g Hd. cbn. destruct s; [|done].
  by rewrite (in_class_neq _ _ _ Hc Hd).
Qed.

Lemma rejects_chr_cat cls c r : in_class cls c = false → rejects cls (Cat (Chr c) r).
Proof. intros Hc p d s g Hd. cbn. by rewrite (in_class_neq _ _ _ Hc Hd). Qed.

Lemma rejects_alt cls r1 r2 : rejects cls r1 → rejects cls r2 → rejects cls (Alt r1 r2).
Proof. intros H1 H2 p d s g Hd. cbn. by rewrite H1, H2. Qed.

Lemma run_cat_one r1 r2 st w1 st1 w2 st2 :
  run r1 st = [(w1, st1)] → run r2 st1 = [(w2, st2)] →
  run (Cat r1 r2) st = [(w1 +:+ w2, st2)].
Proof. intros H1 H2. cbn [run]. rewrite H1. cbn. rewrite H2. reflexivity. Qed.

Lemma run_cat_fail_l r1 r2 st : run r1 st = [] → run (Cat r1 r2) st = [].
Proof. intros H1. cbn [run]. by rewrite H1. Qed.

Lemma run_cat_fail_r r1 r2 st w1 st1 :
  run r1 st = [(w1, st1)] → run r2 st1 = [] → run (Cat r1 r2) st = [].
Proof. intros H1 H2. cbn [run]. rewrite H1. cbn. by rewrite H2. Qed.

Lemma run_named_one n r st w st1 :
  run r st = [(w, st1)] →
  run (Named n r) st = [(w, MState (prev st1) (rest st1) (<[n := w]> (groups st1)))].
Proof. intros H. cbn [run]. by rewrite H. Qed.

Lemma run_chr c st s' :
  rest st = String c s' →
  run (Chr c) st = [(String c "", MState (Some c) s' (groups st))].
Proof. intros H. cbn [run]. rewrite H. by rewrite Ascii.eqb_refl. Qed.

Lemma run_chr_fail c st d s' :
  rest st = String d s' → Ascii.eqb d c = false → run (Chr c) st = [].
Proof. intros H Hd. cbn [run]. by rewrite H, Hd. Qed.

(** A maximal run of [cls], followed by a continuation that rejects
    [cls]: the only match is the one that takes the whole run. *)
Lemma run_rep1_cat cls r2 st w s' :
  rest st = w +:+ s' → word cls w → stops cls s' → rejects cls r2 →
  run (Cat (Rep1 cls) r2) st =
  '(w2, st2) ← run r2 (MState (Some (last_of w)) s' (groups st)); [(w +:+ w2, st2)].
Proof.
  intros Hr [Hne Hw] Hs Hrej. destruct w as [|c w]; [done|].
  cbn [run]. rewrite Hr, list_fmap_bind. rewrite rep1_bind; [done..|].
  intros w0 l d s Hd. cbn. by rewrite Hrej.
Qed.

Lemma run_rep1_cat_one cls r2 st w s' w2 st2 :
  rest st = w +:+ s' → word cls w → stops cls s' → rejects cls r2 →
  run r2 (MState (Some (last_of w)) s' (groups st)) = [(w2, st2)] →
  run (Cat (Rep1 cls) r2) st = [(w +:+ w2, st2)].
Proof. intros Hr Hw Hs Hrej H2. rewrite (run_rep1_cat _ _ _ w s'); [|done..]. by rewrite H2. Qed.

(** [(?P<n>(?<=a)[cls]{1,}(?=b))] on a text that starts with a maximal
    run [w] of [cls]. *)
Lemma run_guarded n a cls b st w s' :
  behind a st = true → rest st = w +:+ s' → word cls w → stops cls s' →
  rejects cls (Ahead b) →
  ahead b (MState (Some (last_of w)) s' (groups st)) = true →
  run (Named n (Cat (Behind a) (Cat (Rep1 cls) (Ahead b)))) st
  = [(w, MState (Some (last_of w)) s' (<[n := w]> (groups st)))].
Proof.
  intros Ha Hr Hw Hs Hrej Hb.
  erewrite run_named_one; cycle 1.
  { eapply run_cat_one; [cbn [run]; by rewrite Ha|].
    eapply run_rep1_cat_one; [exact Hr|done..|]. cbn [run]. by rewrite Hb. }
  cbn. by rewrite app_nil_r_s.
Qed.

Lemma rejects_before cls :
  in_class cls ":" = false → in_class cls "@" = false → in_class cls newline = false →
  rejects cls G.before_colon_at_or_end.
Proof.
  intros H1 H2 H3. unfold G.before_colon_at_or_end.
  auto using rejects_alt, rejects_ahead_chr, rejects_ahead_eol.
Qed.

(** The image group after a slash, on a text that goes on with the
    separator [c] of a tag or of a digest. *)
Lemma run_image st i c s' :
  prev st = Some "/"%char → rest st = i +:+ String c s' → word G.image_cls i →
  c = ":"%char ∨ c = "@"%char →
  run G.image st
  = [(i, MState (Some (last_of i)) (String c s') (<["image" := i]> (groups st)))].
Proof.
  intros Hp Hr Hw Hc.
  assert (Hstop : stops G.image_cls (String c s')) by (by destruct Hc as [-> | ->]).
  unfold G.image. erewrite run_named_one; cycle 1.
  { eapply run_cat_one.
    { unfold G.after_slash_or_start. cbn [run behind at_bol]. rewrite Hp. reflexivity. }
    eapply run_rep1_cat_one; [exact Hr|done..| |].
    { by apply rejects_before. }
    unfold G.before_colon_at_or_end. cbn [run ahead rest at_eol].
    destruct Hc as [-> | ->]; by destruct s'. }
  cbn. by rewrite app_nil_r_s.
Qed.

Lemma run_hostname st h1 h2 s' :
  prev st = None → rest st = h1 +:+ "." +:+ h2 +:+ "/" +:+ s' →
  word G.hostname_cls1 h1 → word G.hostname_cls2 h2 →
  run G.hostname st
  = [(h1 +:+ "." +:+ h2,
      MState (Some (last_of h2)) ("/" +:+ s') (<["hostname" := h1 +:+ "." +:+ h2]> (groups st)))].
Proof.
  intros Hp Hr H1 H2. unfold G.hostname.
  erewrite run_named_one; cycle 1.
  { eapply run_cat_one; [cbn [run behind at_bol]; by rewrite Hp|].
    eapply run_rep1_cat_one; [exact Hr|done|done| |].
    { by apply rejects_chr_cat. }
    eapply run_cat_one; [by apply run_chr|].
    eapply run_rep1_cat_one; [reflexivity|done|done| |].
    { by apply rejects_ahead_chr. }
    reflexivity. }
  cbn. by rewrite app_nil_r_s.
Qed.

Lemma re_match_ends r path :
  re_match r path = groups <$> head (ends r (MState None path ∅)).
Proof.
  unfold re_match, ends. by destruct (run r (MState None path ∅)) as [|[w st'] l].
Qed.

Lemma ends_cat r1 r2 st w1 st1 :
  run r1 st = [(w1, st1)] → ends (Cat r1 r2) st = ends r2 st1.
Proof.
  intros H1. unfold ends. cbn [run]. rewrite H1. cbn. rewrite app_nil_r.
  induction (run r2 st1) as [|[w2 st2] l IH]; [done|]. cbn. by rewrite IH.
Qed.

Lemma ends_cat_fail r1 r2 st : run r1 st = [] → ends (Cat r1 r2) st = [].
Proof. intros H1. unfold ends. cbn [run]. by rewrite H1. Qed.

(** The three grammars with a hostname start alike: on a text of the
    shape above they capture hostname, username and image, and go on with
    what follows the image. *)
Lemma ends_hostname_username_image (k : regex) h1 h2 u i c t :
  word G.hostname_cls1 h1 → word G.hostname_cls2 h2 →
  word G.username_cls u → word G.image_cls i →
  c = ":"%char ∨ c = "@"%char →
  ends (Cat Bol (Cat G.hostname (Cat G.slash (Cat G.username (Cat G.slash (Cat G.image k))))))
    (MState None (spelled h1 h2 u i c t) ∅)
  = ends k (MState (Some (last_of i)) (String c t) (captured h1 h2 u i)).
Proof.
  intros H1 H2 Hu Hi Hc.
  erewrite ends_cat by reflexivity.
  erewrite ends_cat by (by apply (run_hostname _ h1 h2 (u +:+ "/" +:+ i +:+ String c t))).
  erewrite ends_cat by (by apply run_chr).
  erewrite ends_cat; cycle 1.
  { apply (run_guarded "username" (AtChr "/") G.username_cls (AtChr "/") _ u
             ("/" +:+ i +:+ String c t)); try done.
    by apply rejects_ahead_chr. }
  erewrite ends_cat by (by apply run_chr).
  erewrite ends_cat; [done|]. by apply run_image.
Qed.

Lemma run_named_fail n r st : run r st = [] → run (Named n r) st = [].
Proof. intros H. cbn [run]. by rewrite H. Qed.

Lemma ends_eol_fail p c t g :
  c = ":"%char ∨ c = "@"%char → ends Eol (MState p (String c t) g) = [].
Proof. intros [-> | ->]; by destruct t. Qed.

Lemma ends_separator_fail sep k p c t g :
  Ascii.eqb c sep = false → ends (Cat (Chr sep) k) (MState p (String c t) g) = [].
Proof. intros Hc. apply ends_cat_fail. by eapply run_chr_fail. Qed.

(** A separator, then the tag or digest up to the end of the text. *)
Lemma ends_separator_tag sep cls p t g :
  word cls t → in_class cls newline = false →
  ends (Cat (Chr sep)
          (Cat (Named "tag" (Cat (Behind (AtChr sep)) (Cat (Rep1 cls) (Ahead AtEol)))) Eol))
    (MState p (String sep t) g)
  = [MState (Some (last_of t)) "" (<["tag" := t]> g)].
Proof.
  intros Ht Hn.
  erewrite ends_cat by (by apply run_chr).
  erewrite ends_cat; cycle 1.
  { apply (run_guarded "tag" (AtChr sep) cls AtEol _ t ""); try done.
    - cbn. apply Ascii.eqb_refl.
    - cbn. by rewrite app_nil_r_s.
    - by apply rejects_ahead_eol. }
  reflexivity.
Qed.

Section Spelled.

Variables h1 h2 u i t : string.
Hypothesis Hh1 : word G.hostname_cls1 h1.
Hypothesis Hh2 : word G.hostname_cls2 h2.
Hypothesis Hu : word G.username_cls u.
Hypothesis Hi : word G.image_cls i.

Lemma match_untagged c :
  c = ":"%char ∨ c = "@"%char →
  re_match (G.build_re [G.hostname; G.slash; G.username; G.slash; G.image])
    (spelled h1 h2 u i c t) = None.
Proof.
  intros Hc. rewrite re_match_ends. unfold Grammar.build_re. cbn [foldr].
  rewrite ends_hostname_username_image by done. by rewrite ends_eol_fail.
Qed.

Lemma match_tagged_colon :
  word G.tag_cls t →
  re_match (G.build_re [G.hostname; G.slash; G.username; G.slash; G.image; G.colon; G.tag])
    (spelled h1 h2 u i ":" t) = Some (<["tag" := t]> (captured h1 h2 u i)).
Proof.
  intros Ht. rewrite re_match_ends. unfold Grammar.build_re. cbn [foldr].
  rewrite ends_hostname_username_image by auto.
  unfold G.colon, G.tag. by rewrite ends_separator_tag.
Qed.

Lemma match_tagged_colon_fail t1 t2 :
  t = t1 +:+ String ":" t2 → all_in G.tag_cls t1 = true →
  re_match (G.build_re [G.hostname; G.slash; G.username; G.slash; G.image; G.colon; G.tag])
    (spelled h1 h2 u i ":" t) = None.
Proof.
  intros Ht Ht1. rewrite re_match_ends. unfold Grammar.build_re. cbn [foldr].
  rewrite ends_hostname_username_image by auto.
  unfold G.colon. erewrite ends_cat by (by apply run_chr).
  rewrite ends_cat_fail; [done|].
  unfold G.tag. apply run_named_fail.
  eapply run_cat_fail_r; [cbn [run behind prev]; by rewrite Ascii.eqb_refl|].
  destruct t1 as [|c t1].
  - apply run_cat_fail_l. cbn [run rest]. rewrite Ht. reflexivity.
  - rewrite (run_rep1_cat G.tag_cls _ _ (String c t1) (String ":" t2));
      [by destruct t2|exact Ht|done|done|by apply rejects_ahead_eol].
Qed.

Lemma match_tagged_at :
  re_match (G.build_re [G.hostname; G.slash; G.username; G.slash; G.image; G.colon; G.tag])
    (spelled h1 h2 u i "@" t) = None.
Proof.
  rewrite re_match_ends. unfold Grammar.build_re. cbn [foldr].
  rewrite ends_hostname_username_image by auto.
  unfold G.colon. by rewrite ends_separator_fail.
Qed.

Lemma match_digest_at :
  word G.sha_cls t →
  re_match (G.build_re [G.hostname; G.slash; G.username; G.slash; G.image; G.at_sign; G.sha])
    (spelled h1 h2 u i "@" t) = Some (<["tag" := t]> (captured h1 h2 u i)).
Proof.
  intros Ht. rewrite re_match_ends. unfold Grammar.build_re. cbn [foldr].
  rewrite ends_hostname_username_image by auto.
  unfold G.at_sign, G.sha. by rewrite ends_separator_tag.
Qed.

Lemma match_digest_colon :
  re_match (G.build_re [G.hostname; G.slash; G.username; G.slash; G.image; G.at_sign; G.sha])
    (spelled h1 h2 u i ":" t) = None.
Proof.
  rewrite re_match_ends. unfold Grammar.build_re. cbn [foldr].
  rewrite ends_hostname_username_image by auto.
  unfold G.at_sign. by rewrite ends_separator_fail.
Qed.

End Spelled.

End Shapes.

(** ** Reading an image back *)

Section Reparse.
Import Re ReFacts.

#[local] Arguments String.append !_ _ / : simpl nomatch.

Lemma lang_bound c r w n : lang r w → bound c r = Some n → count_char c w ≤ n.
Proof.
  revert w n. induction r as [| |d|cls|r1 IH1 r2 IH2|r1 IH1 r2 IH2|a|a|m r1 IH1];
    intros w n; cbn [lang bound].
  - intros -> [= <-]. done.
  - intros -> [= <-]. done.
  - intros -> [= <-]. cbn. lia.
  - intros [_ Hw]. destruct (in_class cls c) eqn:Hc; [done|]. intros [= <-].
    by rewrite (all_in_count _ _ _ Hc Hw).
  - intros (w1 & w2 & -> & L1 & L2).
    destruct (bound c r1) as [n1|]; [|done]. destruct (bound c r2) as [n2|]; [|done].
    intros [= <-]. rewrite count_char_app.
    specialize (IH1 _ _ L1 eq_refl). specialize (IH2 _ _ L2 eq_refl). lia.
  - intros L.
    destruct (bound c r1) as [n1|]; [|done]. destruct (bound c r2) as [n2|]; [|done].
    intros [= <-]. destruct L as [L|L].
    + specialize (IH1 _ _ L eq_refl). lia.
    + specialize (IH2 _ _ L eq_refl). lia.
  - intros -> [= <-]. done.
  - intros -> [= <-]. done.
  - apply IH1.
Qed.

Lemma at_eol_count c s :
  Ascii.eqb newline c = false → at_eol s = true → count_char c s = 0.
Proof.
  intros Hc. destruct s as [|d [|? ?]]; cbn; [done| |done].
  intros ->%Ascii.eqb_eq. by rewrite Hc.
Qed.

(** A regex that ends with [$] matches only texts in which [c] occurs
    no more often than the regex allows. *)
Lemma re_match_bound c r path d n :
  ends_eol r = true → bound c r = Some n → Ascii.eqb newline c = false →
  re_match r path = Some d → count_char c path ≤ n.
Proof.
  intros He Hb Hc (w & st' & Hin & _)%re_match_Some.
  destruct (run_sound _ _ _ _ Hin) as [Hr L]. cbn in Hr. rewrite Hr, count_char_app.
  rewrite (at_eol_count c (rest st')) by (by eauto using run_ends_eol).
  pose proof (lang_bound _ _ _ _ L Hb). lia.
Qed.

Lemma re_match_too_many c r path n :
  ends_eol r = true → bound c r = Some n → Ascii.eqb newline c = false →
  n < count_char c path → re_match r path = None.
Proof.
  intros He Hb Hc Hn. destruct (re_match r path) as [d|] eqn:Hm; [|done].
  pose proof (re_match_bound _ _ _ _ _ He Hb Hc Hm). lia.
Qed.

Lemma spelled_slashes h1 h2 u i c t : 2 ≤ count_char "/" (spelled h1 h2 u i c t).
Proof. unfold spelled. rewrite !count_char_app. cbn. lia. Qed.

(** The text of a well-formed image is spelled [h1.h2/u/i] and the tag. *)
Lemma wf_spelled img :
  wf img →
  ∃ h1 h2 u i,
    word G.hostname_cls1 h1 ∧ word G.hostname_cls2 h2
    ∧ word G.username_cls u ∧ word G.image_cls i ∧ word G.sha_cls (tag img)
    ∧ hostname img = h1 +:+ "." +:+ h2
    ∧ name img = u +:+ "/" +:+ i
    ∧ image_string img = spelled h1 h2 u i ":" (tag img)
    ∧ image_string_at img = spelled h1 h2 u i "@" (tag img).
Proof.
  intros (u & i & (h1 & h2 & Hh & H1 & H2) & Hn & Hu & Hi & Ht).
  exists h1, h2, u, i. split_and!; try done.
  - unfold image_string, spelled. rewrite Hh, Hn. by rewrite !app_assoc_s.
  - unfold image_string_at, spelled. rewrite Hh, Hn. by rewrite !app_assoc_s.
Qed.

(** The interpretations of a text with two slashes or more: only the
    grammars with a hostname can match it. *)
Lemma candidates_spelled path (o8 o9 : option (gmap string string)) :
  2 ≤ count_char "/" path →
  re_match (G.build_re [G.hostname; G.slash; G.username; G.slash; G.image]) path = None →
  re_match (G.build_re [G.hostname; G.slash; G.username; G.slash; G.image; G.colon; G.tag])
    path = o8 →
  re_match (G.build_re [G.hostname; G.slash; G.username; G.slash; G.image; G.at_sign; G.sha])
    path = o9 →
  candidates path
  = omap (λ m, match lump m ∅ with Ret x => Some x | Raise _ => None end)
      (option_list o8 ++ option_list o9).
Proof.
  intros Hs H7 H8 H9. unfold candidates, Grammar.regexes.
  cbn [omap list_omap]. unfold interpretation. cbn [fst snd].
  rewrite H7, H8, H9.
  repeat match goal with
  | |- context [re_match ?r path] =>
      first [ rewrite (re_match_too_many "/" r path 0) by (done || lia)
            | rewrite (re_match_too_many "/" r path 1) by (done || lia) ]
  end.
  cbn [mbind option_bind]. by destruct o8, o9.
Qed.

Lemma from_path_spelled h1 h2 u i c t d path :
  path = spelled h1 h2 u i c t →
  d = <["tag" := t]> (captured h1 h2 u i) →
  candidates path
  = omap (λ m, match lump m ∅ with Ret x => Some x | Raise _ => None end) [d] →
  from_path path = Ret (mkImage (h1 +:+ "." +:+ h2) (u +:+ "/" +:+ i) t).
Proof.
  intros -> -> Hc. rewrite from_path_candidates.
  rewrite Hc. cbn [omap list_omap]. unfold lump.
  rewrite (left_id_L ∅ (∪)). unfold captured.
  rewrite (getitem_Some _ "username" u) by (by simplify_map_eq).
  cbn [mbind res_bind].
  rewrite (getitem_Some _ "image" i) by (by simplify_map_eq).
  cbn [mbind res_bind option_bind]. unfold image_of.
  rewrite (getitem_Some _ "hostname" (h1 +:+ "." +:+ h2)) by (by simplify_map_eq).
  cbn [mbind res_bind].
  rewrite (getitem_Some _ "image" (u +:+ "/" +:+ i)) by (by simplify_map_eq).
  cbn [mbind res_bind].
  rewrite (getitem_Some _ "tag" t) by (by simplify_map_eq).
  reflexivity.
Qed.

Lemma word_sha_tag t : word G.sha_cls t → count_char ":" t = 0 → word G.tag_cls t.
Proof.
  intros [Hne Hw] Hc. split; [done|]. clear Hne.
  induction t as [|c t IH]; [done|]. cbn [all_in count_char] in *.
  apply andb_prop in Hw as [Hcw Hw].
  destruct (Ascii.eqb c ":") eqn:E; [lia|].
  rewrite (sha_tag _ Hcw E). cbn [andb]. apply IH; [done|lia].
Qed.

Lemma colon_split t :
  all_in G.sha_cls t = true → count_char ":" t ≠ 0 →
  ∃ t1 t2, t = t1 +:+ String ":" t2 ∧ all_in G.tag_cls t1 = true.
Proof.
  induction t as [|c t IH]; [done|]. cbn [all_in count_char].
  intros [Hc Hw]%andb_prop Hn.
  destruct (Ascii.eqb_spec c ":") as [->|Hne].
  - by exists "", t.
  - destruct (IH Hw) as (t1 & t2 & -> & Ht1); [lia|].
    exists (String c t1), t2. split; [done|]. cbn [all_in].
    rewrite (sha_tag _ Hc), Ht1; [done|]. by apply Ascii.eqb_neq.
Qed.

(** An image that [from_path] returns is read back from
    [hostname/name@tag]; it is read back from [hostname/name:tag] when
    the tag holds no colon, and that string cannot be parsed when the
    tag holds one. *)
Lemma reparse_forms path img :
  from_path path = Ret img →
  from_path (image_string_at img) = Ret img
  ∧ from_path (image_string img) =
    if decide (count_char ":" (tag img) = 0) then Ret img
    else Raise (ImageParseError (CannotParse (image_string img))).
Proof.
  intros Hp.
  destruct (wf_spelled img (from_path_wf _ _ Hp))
    as (h1 & h2 & u & i & H1 & H2 & Hu & Hi & Ht & Hh & Hn & Hcolon & Hat).
  assert (Himg : img = mkImage (h1 +:+ "." +:+ h2) (u +:+ "/" +:+ i) (tag img)).
  { destruct img as [h n t]. cbn in *. by rewrite Hh, Hn. }
  split.
  - rewrite Himg at 2. eapply from_path_spelled; [exact Hat|reflexivity|].
    apply (candidates_spelled _ None (Some _)).
    + rewrite Hat. apply spelled_slashes.
    + rewrite Hat. apply match_untagged; auto.
    + rewrite Hat. by apply match_tagged_at.
    + rewrite Hat. by apply match_digest_at.
  - case_decide as Hc.
    + rewrite Himg at 2. eapply from_path_spelled; [exact Hcolon|reflexivity|].
      apply (candidates_spelled _ (Some _) None).
      * rewrite Hcolon. apply spelled_slashes.
      * rewrite Hcolon. apply match_untagged; auto.
      * rewrite Hcolon. apply match_tagged_colon; auto using word_sha_tag.
      * rewrite Hcolon. by apply match_digest_colon.
    + destruct (colon_split (tag img)) as (t1 & t2 & Ht12 & Ht1); [apply Ht|done|].
      rewrite from_path_candidates.
      rewrite (candidates_spelled (image_string img) None None); [done|..].
      * rewrite Hcolon. apply spelled_slashes.
      * rewrite Hcolon. apply match_untagged; auto.
      * rewrite Hcolon. by apply (match_tagged_colon_fail _ _ _ _ _ H1 H2 Hu Hi t1 t2).
      * rewrite Hcolon. by apply match_digest_colon.
Qed.

(** C8: [from_path] is a function of its input, and the string form of
    an image that it returns, [hostname/name:tag] or
    [hostname/name@digest], is parsed, and to that same image. *)
Theorem from_path_reparse path img :
  from_path path = Ret img →
  (∀ r1 r2, from_path path = r1 → from_path path = r2 → r1 = r2)
  ∧ from_path (canonical_string img) = Ret img.
Proof.
  intros Hp. split; [congruence|].
  destruct (reparse_forms path img Hp) as [Hat Hcolon].
  unfold canonical_string. by case_decide.
Qed.

End Reparse.

Lemma from_path_reparse_witness :
  from_path "nginx@sha256:abc" = Ret (mkImage "registry-1.docker.io" "library/nginx" "sha256:abc")
  ∧ from_path "registry-1.docker.io/library/nginx@sha256:abc"
    = Ret (mkImage "registry-1.docker.io" "library/nginx" "sha256:abc").
Proof.
  assert (H : from_path "nginx@sha256:abc"
              = Ret (mkImage "registry-1.docker.io" "library/nginx" "sha256:abc"))
    by (vm_compute; reflexivity).
  split; [exact H|].
  exact (proj2 (from_path_reparse "nginx@sha256:abc" _ H)).
Defined.

(** The same for a tag: [nginx:1.28] in full. *)
Example canonical_string_tag :
  from_path "nginx:1.28" = Ret (mkImage "registry-1.docker.io" "library/nginx" "1.28")
  ∧ canonical_string (mkImage "registry-1.docker.io" "library/nginx" "1.28")
    = "registry-1.docker.io/library/nginx:1.28"
  ∧ from_path "registry-1.docker.io/library/nginx:1.28"
    = Ret (mkImage "registry-1.docker.io" "library/nginx" "1.28").
Proof. vm_compute. done. Qed.

(** * The parser, read without regular expressions *)

Section Reading.
Import Re ReFacts.

#[local] Arguments String.append !_ _ / : simpl nomatch.


Lemma run_captures r st w st' :
  (w, st') ∈ run r st → captures r w (groups st) (groups st').
Proof.
  revert st w st'. induction r as [| |c|cls|r1 IH1 r2 IH2|r1 IH1 r2 IH2|a|a|n r1 IH1];
    intros st w st'; cbn [run captures].
  - case_match; [|by intros ?%elem_of_nil]. by intros [= -> ->]%list_elem_of_singleton.
  - case_match; [|by intros ?%elem_of_nil]. by intros [= -> ->]%list_elem_of_singleton.
  - destruct (rest st) as [|d s'] eqn:Hr; [by intros ?%elem_of_nil|].
    destruct (Ascii.eqb_spec d c) as [->|]; [|by intros ?%elem_of_nil].
    by intros [= -> ->]%list_elem_of_singleton.
  - rewrite list_elem_of_fmap. intros ([[w0 l] s'] & [= -> ->] & Hin).
    by apply rep1_elem in Hin as [_ ?].
  - rewrite list_elem_of_bind. intros ([w1 st1] & Hin2 & Hin1).
    rewrite list_elem_of_bind in Hin2. destruct Hin2 as ([w2 st2] & Hin3 & Hin2).
    apply list_elem_of_singleton in Hin3 as [= -> ->].
    exists w1, w2, (groups st1). eauto.
  - rewrite elem_of_app. intros [Hin|Hin]; eauto.
  - case_match; [|by intros ?%elem_of_nil]. by intros [= -> ->]%list_elem_of_singleton.
  - case_match; [|by intros ?%elem_of_nil]. by intros [= -> ->]%list_elem_of_singleton.
  - rewrite list_elem_of_fmap. intros ([w0 st0] & [= -> ->] & Hin).
    exists (groups st0). split; [by apply IH1|done].
Qed.

Lemma at_eol_end s : at_eol s = true → end_of_line s.
Proof.
  destruct s as [|c [|? ?]]; cbn; [by left| |done].
  intros ->%Ascii.eqb_eq. by right.
Qed.

(** A successful match, as the text consumed, the line end left over and
    the groups captured. *)
Lemma re_match_captures r path d :
  ends_eol r = true → re_match r path = Some d →
  ∃ w nl, path = w +:+ nl ∧ end_of_line nl ∧ captures r w ∅ d.
Proof.
  intros He (w & st' & Hin & ->)%re_match_Some.
  exists w, (rest st'). split; [by apply run_sound in Hin as [? _]|].
  split; [apply at_eol_end; by eauto using run_ends_eol|].
  by apply run_captures in Hin.
Qed.

(** *** The parts of the grammars *)

Lemma cap_bol k w g g' : captures (Cat Bol k) w g g' → captures k w g g'.
Proof. cbn [captures]. by intros (w1 & w2 & g1 & -> & [-> ->] & H). Qed.

Lemma cap_chr c k w g g' :
  captures (Cat (Chr c) k) w g g' → ∃ wk, w = String c wk ∧ captures k wk g g'.
Proof. cbn [captures]. intros (w1 & w2 & g1 & -> & [-> ->] & H). by exists w2. Qed.

Lemma cap_guarded n a cls b k w g g' :
  captures (Cat (Named n (Cat (Behind a) (Cat (Rep1 cls) (Ahead b)))) k) w g g' →
  ∃ x wk, w = x +:+ wk ∧ word cls x ∧ captures k wk (<[n := x]> g) g'.
Proof.
  cbn [captures].
  intros (w1 & w2 & g1 & -> & (g2 & (w3 & w4 & g3 & -> & [-> ->] & w5 & w6 & g4 & ->
    & [Hw ->] & [-> ->]) & ->) & H).
  exists w5, w2. cbn in *. rewrite app_nil_r_s in *. done.
Qed.

Lemma cap_image_like cls k w g g' :
  captures (Cat (Named "image"
    (Cat G.after_slash_or_start (Cat (Rep1 cls) G.before_colon_at_or_end))) k) w g g' →
  ∃ x wk, w = x +:+ wk ∧ word cls x ∧ captures k wk (<["image" := x]> g) g'.
Proof.
  cbn [captures G.after_slash_or_start G.before_colon_at_or_end].
  intros (w1 & w2 & g1 & -> & (g2 & (w3 & w4 & g3 & -> & H3 & w5 & w6 & g4 & ->
    & [Hw ->] & H6) & ->) & H).
  assert (w3 = "" ∧ g3 = g) as [-> ->] by (destruct H3 as [[??]|[??]]; done).
  assert (w6 = "" ∧ g2 = g) as [-> ->] by (destruct H6 as [[??]|[[??]|[??]]]; done).
  exists w5, w2. cbn in *. rewrite app_nil_r_s in *. done.
Qed.

Lemma cap_hostname k w g g' :
  captures (Cat G.hostname k) w g g' →
  ∃ h1 h2 wk, w = h1 +:+ "." +:+ h2 +:+ wk
    ∧ word G.hostname_cls1 h1 ∧ word G.hostname_cls2 h2
    ∧ captures k wk (<["hostname" := h1 +:+ "." +:+ h2]> g) g'.
Proof.
  cbn [captures G.hostname].
  intros (w1 & w2 & g1 & -> & (g2 & (w3 & w4 & g3 & -> & [-> ->] & h1 & w6 & g4 & ->
    & [H1 ->] & w7 & w8 & g5 & -> & [-> ->] & h2 & w9 & g6 & -> & [H2 ->] & [-> ->]) & ->) & H).
  exists h1, h2, w2. cbn in *. rewrite !app_nil_r_s in *. rewrite !app_assoc_s. cbn. done.
Qed.

Ltac read_parts :=
  unfold G.build_re, G.slash, G.colon, G.at_sign, G.docker_username, G.username,
    G.docker_image, G.image, G.sha, G.tag in *;
  cbn [foldr] in *;
  repeat match goal with
  | H : captures (Cat Bol _) _ _ _ |- _ => apply cap_bol in H
  | H : captures (Cat G.hostname _) _ _ _ |- _ =>
      apply cap_hostname in H as (?h1 & ?h2 & ?wk & -> & ?Hh1 & ?Hh2 & H)
  | H : captures (Cat (Chr _) _) _ _ _ |- _ => apply cap_chr in H as (?wk & -> & H)
  | H : captures (Cat (Named _ (Cat (Behind _) _)) _) _ _ _ |- _ =>
      apply cap_guarded in H as (?x & ?wk & -> & ?Hx & H)
  | H : captures (Cat (Named "image" _) _) _ _ _ |- _ =>
      apply cap_image_like in H as (?i & ?wk & -> & ?Hi & H)
  | H : captures Eol _ _ _ |- _ => destruct H as [-> ->]
  end.

(** A grammar that matches reads the text as a reference of its kind. *)
Lemma match_reading n g path d :
  G.regexes !! n = Some g → re_match g.1 path = Some d →
  ∃ p i s nl,
    front_ok p i ∧ back_ok s ∧ end_of_line nl
    ∧ path = reference p i s +:+ nl
    ∧ d = read_groups p i s
    ∧ n = grammar_of p s.
Proof.
  intros Hn Hm.
  destruct n as [|[|[|[|[|[|[|[|[|n]]]]]]]]]; [..|done];
    injection Hn as <-; cbn [fst] in Hm;
    (apply re_match_captures in Hm as (w & nl & -> & Hnl & Hc); [|reflexivity]);
    read_parts.
  all: [> exists Bare, i, Untagged, nl
        | exists (User x), i, Untagged, nl
        | exists Bare, i, (Tagged x), nl
        | exists (User x), i, (Tagged x0), nl
        | exists Bare, i, (Digest x), nl
        | exists (User x), i, (Digest x0), nl
        | exists (Host h1 h2 x), i, Untagged, nl
        | exists (Host h1 h2 x), i, (Tagged x0), nl
        | exists (Host h1 h2 x), i, (Digest x0), nl ].
  all: split_and!; try done.
  all: unfold reference, front_text, back_text;
       repeat (rewrite ?app_assoc_s, ?app_nil_r_s; cbn [String.append]); reflexivity.
Qed.

(** *** The shape of a reference *)

Lemma after_slash_word cls w k :
  in_class cls "/" = false → all_in cls w = true → after_slash (w +:+ k) = after_slash k.
Proof.
  intros Hc. induction w as [|d w IH]; cbn [all_in]; [done|].
  intros [Hd Hw]%andb_prop. cbn. rewrite (in_class_neq _ _ _ Hc Hd). by apply IH.
Qed.

Lemma count_end_of_line c nl :
  Ascii.eqb newline c = false → end_of_line nl → count_char c nl = 0.
Proof. intros Hc [-> | ->]; cbn [count_char]; [done|]. by rewrite Hc. Qed.

Ltac count_words :=
  repeat match goal with
  | H : word ?cls ?w |- _ =>
      let Hw := fresh "Hw" in
      destruct H as [_ Hw];
      try (assert (count_char "/" w = 0) by (by apply (all_in_count cls)));
      try (assert (count_char "@" w = 0) by (by apply (all_in_count cls)));
      try (assert (count_char ":" w = 0) by (by apply (all_in_count cls)));
      try (assert (∀ k, after_slash (w +:+ k) = after_slash k)
             by (intros; by apply (after_slash_word cls)));
      revert Hw
  end; intros.

Lemma shape_reference p i s nl :
  front_ok p i → back_ok s → end_of_line nl →
  shape (reference p i s +:+ nl) = shape_of p s.
Proof.
  intros Hp Hs Hnl.
  pose proof (count_end_of_line "/" nl eq_refl Hnl).
  pose proof (count_end_of_line "@" nl eq_refl Hnl).
  pose proof (count_end_of_line ":" nl eq_refl Hnl).
  destruct p as [|u|h1 h2 u], s as [|t|t]; cbn [front_ok back_ok] in *;
    destruct_and?; count_words.
  all: unfold shape, path_part, shape_of, reference, front_text, back_text.
  all: repeat (rewrite ?app_assoc_s, ?app_nil_r_s; cbn [String.append]).
  all: repeat first
    [ rewrite count_char_app
    | progress cbn [count_char after_slash]
    | progress simpl (Ascii.eqb _ _)
    | progress cbn [Nat.add Nat.eqb]
    | match goal with H : count_char _ _ = 0 |- _ => rewrite H end
    | match goal with H : ∀ k, after_slash (_ +:+ k) = after_slash k |- _ => rewrite H end ].
  all: rewrite ?(Nat.min_r (S (S _)) 2) by lia; reflexivity.
Qed.

Lemma shape_of_grammar p s p' s' :
  shape_of p s = shape_of p' s' → grammar_of p s = grammar_of p' s'.
Proof. by destruct p, s, p', s'. Qed.

(** No text is matched by two grammars. *)
Lemma matching_unique n m g g' path :
  G.regexes !! n = Some g → G.regexes !! m = Some g' →
  is_Some (re_match g.1 path) → is_Some (re_match g'.1 path) → n = m.
Proof.
  intros Hn Hm [d Hd] [d' Hd'].
  destruct (match_reading _ _ _ _ Hn Hd) as (p & i & s & nl & Hp & Hs & Hnl & Hpath & _ & ->).
  destruct (match_reading _ _ _ _ Hm Hd') as (p' & i' & s' & nl' & Hp' & Hs' & Hnl' & Hpath' & _ & ->).
  apply shape_of_grammar.
  rewrite <- (shape_reference p i s nl), <- (shape_reference p' i' s' nl') by done.
  congruence.
Qed.

Lemma filter_none {A : Type} (P : A → Prop) `{!∀ x, Decision (P x)} (l : list A) :
  (∀ x, x ∈ l → ¬ P x) → filter P l = [].
Proof.
  induction l as [|x l IH]; intros Hl; [done|].
  rewrite filter_cons, decide_False by (apply Hl; left).
  apply IH. intros y Hy. apply Hl. by right.
Qed.

Lemma filter_at_most_one {A : Type} (P : A → Prop) `{!∀ x, Decision (P x)} (l : list A) :
  (∀ n m x y, l !! n = Some x → l !! m = Some y → P x → P y → n = m) →
  length (filter P l) ≤ 1.
Proof.
  induction l as [|x l IH]; intros Hl; [cbn; lia|].
  rewrite filter_cons. case_decide as Hx.
  - rewrite filter_none; [cbn; lia|].
    intros y [m Hm]%list_elem_of_lookup_1 Hy.
    by specialize (Hl 0 (S m) x y eq_refl Hm Hx Hy).
  - apply IH. intros n m y z Hn Hm Hy Hz.
    specialize (Hl (S n) (S m) y z Hn Hm Hy Hz). lia.
Qed.

Lemma matching_at_most_one path : length (matching path) ≤ 1.
Proof.
  unfold matching. apply filter_at_most_one.
  intros n m g g' Hn Hm Hg Hg'. by apply (matching_unique n m g g' path).
Qed.

(** [from_path] raises nothing but the error of a text that no
    grammar matches. *)
Lemma from_path_raises path e :
  from_path path = Raise e → e = ImageParseError (CannotParse path).
Proof.
  rewrite from_path_candidates.
  pose proof (matching_at_most_one path) as Hl. rewrite <- candidates_length in Hl.
  destruct (candidates path) as [|m [|m' ms]] eqn:Hc; [congruence| |cbn in Hl; lia].
  destruct (candidates_image path m) as [img ->]; [|done]. rewrite Hc. left.
Qed.

(** X1: the nine grammars exclude one another: no text is matched by
    two of them, so [from_path] never finds too many interpretations
    and the only error it raises is that of a text that cannot be
    parsed. *)
Theorem from_path_unambiguous path :
  length (matching path) ≤ 1
  ∧ ∀ e, from_path path = Raise e → e = ImageParseError (CannotParse path).
Proof. split; [apply matching_at_most_one|apply from_path_raises]. Qed.

(** *** Matching a reference *)

Lemma run_image_like cls st i k :
  prev st = None ∨ prev st = Some "/"%char →
  rest st = i +:+ k → word cls i →
  in_class cls ":" = false → in_class cls "@" = false → in_class cls newline = false →
  follows k →
  run (Named "image" (Cat G.after_slash_or_start (Cat (Rep1 cls) G.before_colon_at_or_end))) st
  = [(i, MState (Some (last_of i)) k (<["image" := i]> (groups st)))].
Proof.
  intros Hp Hr Hw H1 H2 H3 Hk.
  assert (Hstop : stops cls k).
  { destruct Hk as [[-> | ->]|(c & s' & -> & [-> | ->])]; done. }
  erewrite run_named_one; cycle 1.
  { eapply run_cat_one.
    { unfold G.after_slash_or_start. cbn [run behind at_bol].
      destruct Hp as [-> | ->]; reflexivity. }
    eapply run_rep1_cat_one; [exact Hr|done..| |].
    { by apply rejects_before. }
    unfold G.before_colon_at_or_end. cbn [run ahead rest at_eol].
    destruct Hk as [[-> | ->]|(c & s' & -> & [-> | ->])]; try reflexivity; by destruct s'. }
  cbn. by rewrite app_nil_r_s.
Qed.

Lemma follows_back s nl : end_of_line nl → follows (back_text s +:+ nl).
Proof.
  intros Hnl. destruct s as [|t|t]; cbn; [by left|right..].
  - exists ":"%char, (t +:+ nl). auto.
  - exists "@"%char, (t +:+ nl). auto.
Qed.

Lemma ends_bare i k kont :
  word G.docker_image_cls i → follows k →
  ends (Cat Bol (Cat G.docker_image kont)) (MState None (i +:+ k) ∅)
  = ends kont (MState (Some (last_of i)) k (<["image" := i]> ∅)).
Proof.
  intros Hi Hk.
  erewrite ends_cat by reflexivity.
  erewrite ends_cat; [done|]. by apply run_image_like; auto.
Qed.

Lemma ends_user u i k kont :
  word G.alnum u → word G.docker_image_cls i → follows k →
  ends (Cat Bol (Cat G.docker_username (Cat G.slash (Cat G.docker_image kont))))
    (MState None (u +:+ "/" +:+ i +:+ k) ∅)
  = ends kont (MState (Some (last_of i)) k (<["image" := i]> (<["username" := u]> ∅))).
Proof.
  intros Hu Hi Hk.
  erewrite ends_cat by reflexivity.
  erewrite ends_cat; cycle 1.
  { apply (run_guarded "username" AtBol G.alnum (AtChr "/") _ u ("/" +:+ i +:+ k)); try done.
    by apply rejects_ahead_chr. }
  erewrite ends_cat by (by apply run_chr).
  erewrite ends_cat; [done|]. by apply run_image_like; auto.
Qed.

Lemma ends_host h1 h2 u i k kont :
  word G.hostname_cls1 h1 → word G.hostname_cls2 h2 →
  word G.username_cls u → word G.image_cls i → follows k →
  ends (Cat Bol (Cat G.hostname (Cat G.slash (Cat G.username (Cat G.slash (Cat G.image kont))))))
    (MState None (h1 +:+ "." +:+ h2 +:+ "/" +:+ u +:+ "/" +:+ i +:+ k) ∅)
  = ends kont (MState (Some (last_of i)) k
      (<["image" := i]> (<["username" := u]> (<["hostname" := h1 +:+ "." +:+ h2]> ∅)))).
Proof.
  intros H1 H2 Hu Hi Hk.
  erewrite ends_cat by reflexivity.
  erewrite ends_cat by (by apply (run_hostname _ h1 h2 (u +:+ "/" +:+ i +:+ k))).
  erewrite ends_cat by (by apply run_chr).
  erewrite ends_cat; cycle 1.
  { apply (run_guarded "username" (AtChr "/") G.username_cls (AtChr "/") _ u
             ("/" +:+ i +:+ k)); try done.
    by apply rejects_ahead_chr. }
  erewrite ends_cat by (by apply run_chr).
  erewrite ends_cat; [done|]. by apply run_image_like; auto.
Qed.

Lemma ends_untagged p nl g : end_of_line nl → ends Eol (MState p nl g) = [MState p nl g].
Proof. by intros [-> | ->]. Qed.

Lemma ends_tagged sep cls p t nl g :
  word cls t → in_class cls newline = false → end_of_line nl →
  ends (Cat (Chr sep)
          (Cat (Named "tag" (Cat (Behind (AtChr sep)) (Cat (Rep1 cls) (Ahead AtEol)))) Eol))
    (MState p (String sep (t +:+ nl)) g)
  = [MState (Some (last_of t)) nl (<["tag" := t]> g)].
Proof.
  intros Ht Hn Hnl.
  erewrite ends_cat by (by apply run_chr).
  erewrite ends_cat; cycle 1.
  { apply (run_guarded "tag" (AtChr sep) cls AtEol _ t nl); try done.
    - cbn. apply Ascii.eqb_refl.
    - by destruct Hnl as [-> | ->].
    - by apply rejects_ahead_eol.
    - by destruct Hnl as [-> | ->]. }
  by apply ends_untagged.
Qed.

(** The grammar of a reference matches it, with or without a final
    newline, and captures its parts. *)
Lemma reading_match p i s nl g :
  front_ok p i → back_ok s → end_of_line nl →
  G.regexes !! grammar_of p s = Some g →
  re_match g.1 (reference p i s +:+ nl) = Some (read_groups p i s).
Proof.
  intros Hp Hs Hnl Hg. rewrite re_match_ends.
  pose proof (follows_back s nl Hnl) as Hk.
  assert (Ht : reference p i s +:+ nl = front_text p +:+ i +:+ (back_text s +:+ nl)).
  { unfold reference. by rewrite !app_assoc_s. }
  rewrite Ht. clear Ht.
  destruct p as [|u|h1 h2 u], s as [|t|t]; cbn [front_ok back_ok] in *; destruct_and?;
    injection Hg as <-; unfold G.build_re; cbn [fst foldr front_text];
    rewrite ?app_assoc_s;
    first [ change ("" +:+ i +:+ ?k) with (i +:+ k); rewrite ends_bare by done
          | rewrite ends_user by done
          | rewrite ends_host by done ];
    cbn [back_text]; unfold G.colon, G.at_sign, G.tag, G.sha;
    first [ change ("" +:+ nl) with nl; by rewrite ends_untagged
          | change (String ?c t +:+ nl) with (String c (t +:+ nl));
            by rewrite ends_tagged ].
Qed.

Lemma omap_single {A B : Type} (f : A → option B) (l : list A) n x y :
  l !! n = Some x → f x = Some y →
  (∀ k z, l !! k = Some z → k ≠ n → f z = None) →
  omap f l = [y].
Proof.
  revert n. induction l as [|a l IH]; intros n Hn Hx Hl; [done|].
  cbn [omap list_omap]. destruct n as [|n].
  - injection Hn as ->. rewrite Hx. f_equal.
    clear IH Hx. induction l as [|b l IH]; [done|]. cbn.
    rewrite (Hl 1 b eq_refl) by done. apply IH.
    intros [|k] z Hk Hne; [done|]. by apply (Hl (S (S k))).
  - rewrite (Hl 0 a eq_refl) by done. apply (IH n); [done..|].
    intros k z Hk Hne. apply (Hl (S k)); [done|lia].
Qed.

Ltac look :=
  repeat first
    [ rewrite lookup_union
    | rewrite lookup_insert_eq
    | rewrite lookup_insert_ne by done
    | rewrite lookup_delete_ne by done
    | rewrite lookup_empty ];
  reflexivity.

(** The image that [from_path] builds from the groups of a reference
    and the defaults of its grammar. *)
Lemma lump_reading p i s g :
  G.regexes !! grammar_of p s = Some g →
  ∃ m, lump (read_groups p i s) g.2 = Ret m ∧ image_of m = Ret (read_image p i s).
Proof.
  intros Hg. destruct p as [|u|h1 h2 u], s as [|t|t]; injection Hg as <-;
    cbn [snd]; unfold lump, G.dict, read_groups, front_groups, read_image;
    cbn [list_to_map foldr uncurry].
  all: eexists; split;
    [ erewrite getitem_Some by look; cbn [mbind res_bind];
      erewrite getitem_Some by look; reflexivity
    | unfold image_of;
      erewrite getitem_Some by look; cbn [mbind res_bind];
      erewrite getitem_Some by look; cbn [mbind res_bind];
      erewrite getitem_Some by look; reflexivity ].
Qed.

Lemma grammar_of_lookup p s : ∃ g, G.regexes !! grammar_of p s = Some g.
Proof. destruct p, s; eexists; reflexivity. Qed.

Lemma from_path_reading path img :
  from_path path = Ret img →
  ∃ p i s nl, front_ok p i ∧ back_ok s ∧ end_of_line nl
    ∧ path = reference p i s +:+ nl ∧ img = read_image p i s.
Proof.
  intros Hp. rewrite from_path_candidates in Hp.
  destruct (candidates path) as [|m [|m' ms]] eqn:Hcs; [done| |done].
  assert (Hm : m ∈ candidates path) by (rewrite Hcs; left).
  unfold candidates in Hm. apply list_elem_of_omap in Hm as (g & Hg & Hi).
  apply list_elem_of_lookup_1 in Hg as [n Hn].
  unfold interpretation in Hi.
  destruct (re_match g.1 path) as [d|] eqn:Hd; [|done]. cbn in Hi.
  destruct (match_reading _ _ _ _ Hn Hd) as (p & i & s & nl & Hpi & Hs & Hnl & -> & -> & ->).
  destruct (lump_reading p i s g Hn) as (m0 & Hl & Him). rewrite Hl in Hi.
  injection Hi as ->. exists p, i, s, nl. split_and!; try done. congruence.
Qed.

Lemma reading_from_path p i s nl :
  front_ok p i → back_ok s → end_of_line nl →
  from_path (reference p i s +:+ nl) = Ret (read_image p i s).
Proof.
  intros Hp Hs Hnl. destruct (grammar_of_lookup p s) as [g Hg].
  pose proof (reading_match p i s nl g Hp Hs Hnl Hg) as Hm.
  destruct (lump_reading p i s g Hg) as (m & Hl & Him).
  rewrite from_path_candidates. unfold candidates.
  rewrite (omap_single _ _ _ g m Hg); [done| |].
  - unfold interpretation. rewrite Hm. cbn. by rewrite Hl.
  - intros k g' Hk Hne. unfold interpretation.
    destruct (re_match g'.1 (reference p i s +:+ nl)) as [d|] eqn:Hd; [|done].
    destruct Hne. eapply matching_unique; [exact Hk|exact Hg|by rewrite Hd|by rewrite Hm].
Qed.

(** X2: [from_path] without regular expressions. A text parses to an
    image exactly when it is a reference, [image], [user/image] or
    [host/user/image] followed by nothing, [:tag] or [@digest], with
    its parts in their alphabets, and at most one final newline; the
    image is the one the reference stands for, with Docker Hub,
    [library] and [latest] for the parts left out. *)
Theorem from_path_reads path img :
  from_path path = Ret img ↔
  ∃ p i s nl, front_ok p i ∧ back_ok s ∧ end_of_line nl
    ∧ path = reference p i s +:+ nl ∧ img = read_image p i s.
Proof.
  split; [apply from_path_reading|].
  intros (p & i & s & nl & Hp & Hs & Hnl & -> & ->). by apply reading_from_path.
Qed.

Lemma reference_host_digest h1 h2 u i t :
  reference (Host h1 h2 u) i (Digest t) +:+ "" = spelled h1 h2 u i "@" t.
Proof.
  unfold reference, spelled, front_text, back_text.
  by rewrite app_nil_r_s, !app_assoc_s.
Qed.

(** X3: the images that [from_path] returns are exactly the
    well-formed ones: a hostname with a dot, a name made of a user, a
    slash and an image path, and a tag, each non-empty and in its
    alphabet; every such image is the parse of [hostname/name@tag]. *)
Theorem from_path_range img : wf img ↔ ∃ path, from_path path = Ret img.
Proof.
  split.
  - intros Hwf. exists (image_string_at img).
    destruct (wf_spelled img Hwf)
      as (h1 & h2 & u & i & H1 & H2 & Hu & Hi & Ht & Hh & Hn & _ & ->).
    rewrite <- reference_host_digest.
    rewrite (reading_from_path (Host h1 h2 u) i (Digest (tag img)) "");
      [|done|done|by left].
    destruct img as [h n t]. cbn in *. by rewrite Hh, Hn.
  - intros [path Hp]. by apply (from_path_wf path).
Qed.

Lemma newline_reference p i s :
  front_ok p i → back_ok s → count_char newline (reference p i s) = 0.
Proof.
  intros Hp Hs.
  destruct p as [|u|h1 h2 u], s as [|t|t]; cbn [front_ok back_ok] in *;
    destruct_and?;
    repeat match goal with
    | H : word ?cls ?w |- _ =>
        apply proj2 in H; apply (all_in_count cls newline) in H; [|reflexivity]
    end;
    unfold reference, front_text, back_text;
    repeat first [ rewrite count_char_app | progress cbn [count_char]
                 | progress simpl (Ascii.eqb _ _) ];
    lia.
Qed.

Lemma app_inj_end (a b : string) c : a +:+ String c "" = b +:+ String c "" → a = b.
Proof.
  revert b. induction a as [|x a IH]; intros [|y b]; cbn; try done.
  - intros [= -> H]. by destruct b.
  - intros [= -> H]. by destruct a.
  - intros [= -> H]. f_equal. by apply IH.
Qed.

(** X4: [$] lets one final newline through: a text followed by a
    newline parses to an image exactly when the text itself does and
    holds no newline; the image is the same. *)
Theorem from_path_final_newline path img :
  from_path (path +:+ String newline "") = Ret img
  ↔ from_path path = Ret img ∧ count_char newline path = 0.
Proof.
  split.
  - intros (p & i & s & nl & Hp & Hs & [-> | ->] & Hpath & ->)%from_path_reading.
    + pose proof (newline_reference p i s Hp Hs) as Hn.
      rewrite app_nil_r_s in Hpath. rewrite <- Hpath, count_char_app in Hn.
      cbn in Hn. lia.
    + apply app_inj_end in Hpath as ->. split; [|by apply newline_reference].
      rewrite <- (app_nil_r_s (reference p i s)). apply reading_from_path; auto. by left.
  - intros [(p & i & s & nl & Hp & Hs & Hnl & -> & ->)%from_path_reading Hn].
    destruct Hnl as [-> | ->].
    + rewrite app_nil_r_s. apply reading_from_path; auto. by right.
    + rewrite count_char_app in Hn. cbn in Hn. lia.
Qed.

Lemma slashes_reference p i s nl :
  front_ok p i → back_ok s → end_of_line nl →
  count_char "/" (reference p i s +:+ nl) `min` 2
  = match p with Bare => 0 | User _ => 1 | Host _ _ _ => 2 end.
Proof.
  intros Hp Hs Hnl. pose proof (shape_reference p i s nl Hp Hs Hnl) as H.
  unfold shape, shape_of in H. by injection H.
Qed.

Lemma first_slash_inj a u x y :
  count_char "/" a = 0 → count_char "/" u = 0 →
  a +:+ String "/" x = u +:+ String "/" y → a = u.
Proof.
  revert u. induction a as [|c a IH]; intros [|d u]; cbn [count_char String.append].
  - done.
  - intros _ Hd [= <- _]. cbn in Hd. lia.
  - intros Hc _ [= -> _]. cbn in Hc. lia.
  - intros Hc Hd [= -> H]. f_equal. apply (IH u); [|  |done].
    + destruct (Ascii.eqb d "/"); lia.
    + destruct (Ascii.eqb d "/"); lia.
Qed.

(** X5: the registry of a parsed reference: with fewer than two
    slashes it is Docker Hub, whatever the text before the slash; with
    two or more it is the text before the first slash. *)
Theorem from_path_hostname path img :
  from_path path = Ret img →
  (count_char "/" path < 2 → hostname img = "registry-1.docker.io")
  ∧ (2 ≤ count_char "/" path → ∃ k, path = hostname img +:+ "/" +:+ k).
Proof.
  intros (p & i & s & nl & Hp & Hs & Hnl & -> & ->)%from_path_reading.
  pose proof (slashes_reference p i s nl Hp Hs Hnl) as Hn.
  destruct p as [|u|h1 h2 u]; cbn [read_image hostname]; (split; [done || lia|]);
    [lia..|].
  intros _. exists (u +:+ "/" +:+ i +:+ back_text s +:+ nl).
  unfold reference, front_text. by rewrite !app_assoc_s.
Qed.

(** X6: a Docker Hub user is made of letters and digits only: a
    reference [a/b] with a single slash whose first part holds any other
    character (a dot, a hyphen, a colon) cannot be parsed, be it the
    name of a registry or of an organisation. *)
Theorem from_path_namespace a b :
  count_char "/" a = 0 → count_char "/" b = 0 → all_in G.alnum a = false →
  from_path (a +:+ "/" +:+ b) = Raise (ImageParseError (CannotParse (a +:+ "/" +:+ b))).
Proof.
  intros Ha Hb Hal.
  assert (Hc : count_char "/" (a +:+ "/" +:+ b) = 1).
  { rewrite !count_char_app. cbn. lia. }
  destruct (from_path (a +:+ "/" +:+ b)) as [img|e] eqn:Hf.
  - apply from_path_reading in Hf as (p & i & s & nl & Hp & Hs & Hnl & Hpath & ->).
    pose proof (slashes_reference p i s nl Hp Hs Hnl) as Hn.
    rewrite <- Hpath, Hc in Hn.
    destruct p as [|u|h1 h2 u]; [done| |done]. destruct Hp as [[_ Hu] Hi].
    unfold reference, front_text in Hpath. rewrite !app_assoc_s in Hpath.
    apply first_slash_inj in Hpath as ->; [congruence|done|].
    by apply (all_in_count G.alnum).
  - by apply from_path_raises in Hf as ->.
Qed.

End Reading.

Lemma from_path_unambiguous_witness :
  from_path "a/b/c" = Raise (ImageParseError (CannotParse "a/b/c"))
  ∧ ImageParseError (CannotParse "a/b/c") = ImageParseError (CannotParse "a/b/c").
Proof.
  assert (H : from_path "a/b/c" = Raise (ImageParseError (CannotParse "a/b/c")))
    by (vm_compute; reflexivity).
  split; [exact H|].
  exact (proj2 (from_path_unambiguous "a/b/c") _ H).
Defined.

Lemma from_path_reads_witness :
  from_path "user/image:1.0.0" = Ret (mkImage "registry-1.docker.io" "user/image" "1.0.0").
Proof.
  apply (proj2 (from_path_reads "user/image:1.0.0" _)).
  exists (User "user"), "image", (Tagged "1.0.0"), "".
  split_and!; [vm_compute; done|vm_compute; done|by left|reflexivity|reflexivity].
Defined.

Lemma from_path_range_witness :
  wf img ∧ ∃ path, from_path path = Ret img.
Proof.
  assert (H : wf img).
  { exists "group", "project". split_and!; try (vm_compute; done).
    exists "registry", "example.com". vm_compute; done. }
  split; [exact H|]. exact (proj1 (from_path_range img) H).
Defined.

Lemma from_path_final_newline_witness :
  from_path ("nginx" +:+ String Re.newline "")
  = Ret (mkImage "registry-1.docker.io" "library/nginx" "latest").
Proof.
  apply (proj2 (from_path_final_newline "nginx" _)).
  split; vm_compute; reflexivity.
Defined.

Lemma from_path_hostname_witness :
  from_path "ghcr.io/group/image" = Ret (mkImage "ghcr.io" "group/image" "latest")
  ∧ ∃ k, "ghcr.io/group/image" = "ghcr.io" +:+ "/" +:+ k.
Proof.
  assert (H : from_path "ghcr.io/group/image" = Ret (mkImage "ghcr.io" "group/image" "latest"))
    by (vm_compute; reflexivity).
  split; [exact H|].
  apply (proj2 (from_path_hostname "ghcr.io/group/image" _ H)). vm_compute. lia.
Defined.

Lemma from_path_namespace_witness :
  from_path "quay.io/image" = Raise (ImageParseError (CannotParse "quay.io/image")).
Proof.
  apply (from_path_namespace "quay.io" "image"); vm_compute; reflexivity.
Defined.

(** * The requests of the client *)

Section Requests.

Variable net : registry.
Variable from_header : string → option WWWAuthenticate.
Variable str_of_container : json → string.

Lemma issues_mono {A : Type} (P : Request → Prop) n n' (m : M A) :
  n ≤ n' → issues P n m → issues P n' m.
Proof.
  intros Hn Hm tr. destruct (Hm tr) as (tr' & H1 & H2 & H3).
  exists tr'. split_and!; [done..|lia].
Qed.

Lemma issues_ret {A : Type} P (a : A) : issues P 0 (mret a).
Proof. intros tr. exists []. cbn. by rewrite app_nil_r. Qed.

Lemma issues_raise {A : Type} P e : issues P 0 (raise (A:=A) e).
Proof. intros tr. exists []. cbn. by rewrite app_nil_r. Qed.

Lemma issues_lift {A : Type} P (r : res A) : issues P 0 (lift r).
Proof. intros tr. exists []. cbn. by rewrite app_nil_r. Qed.

Lemma issues_requests_get (P : Request → Prop) req :
  P req → issues P 1 (requests_get net req).
Proof.
  intros HP tr. exists [req]. unfold requests_get.
  destruct (net tr req); cbn; (split_and!; [done|by constructor|lia]).
Qed.

Lemma issues_json_of P r : issues P 0 (json_of r).
Proof. unfold json_of. destruct (body r); [apply issues_ret|apply issues_raise]. Qed.

Lemma issues_bind {A B : Type} P n1 n2 (m : M A) (f : A → M B) :
  issues P n1 m → (∀ a, issues P n2 (f a)) → issues P (n1 + n2) (m ≫= f).
Proof.
  intros Hm Hf tr. rewrite bind_run.
  destruct (Hm tr) as (t1 & H1 & P1 & L1).
  destruct (m tr) as [[a|e] tr1]; cbn in H1; subst tr1.
  - destruct (Hf a (tr ++ t1)) as (t2 & H2 & P2 & L2). exists (t1 ++ t2).
    rewrite H2, app_assoc, length_app. split_and!; [done|by apply Forall_app|lia].
  - exists t1. split_and!; [done..|lia].
Qed.

Lemma issues_try {A : Type} P n1 n2 (m h : M A) :
  issues P n1 m → issues P n2 h → issues P (n1 + n2) (try_except_ConnectionError m h).
Proof.
  intros Hm Hh tr. unfold try_except_ConnectionError.
  destruct (Hm tr) as (t1 & H1 & P1 & L1).
  destruct (m tr) as [[a|e] tr1]; cbn in H1; subst tr1.
  { exists t1. split_and!; [done..|lia]. }
  destruct e as [| [|] | | | |]; try (exists t1; split_and!; [done..|lia]).
  destruct (Hh (tr ++ t1)) as (t2 & H2 & P2 & L2). exists (t1 ++ t2).
  rewrite H2, app_assoc, length_app. split_and!; [done|by apply Forall_app|lia].
Qed.

(** The token exchange: the probe and at most one request to the realm. *)
Lemma issues_token (P : Request → Prop) self image :
  P (probe self image) →
  (∀ www_auth realm, P (token_request self www_auth realm)) →
  issues P 2 (_get_docker_token net from_header self image).
Proof.
  intros Hprobe Htoken. unfold _get_docker_token.
  apply (issues_bind P 1 1).
  { apply (issues_try P 1 0); [|apply issues_ret].
    apply (issues_bind P 1 0); [by apply issues_requests_get|intros; apply issues_ret]. }
  intros [auth_req|]; [|apply (issues_mono P 0); [lia|apply issues_ret]].
  case_match; [apply (issues_mono P 0); [lia|apply issues_ret]|].
  apply (issues_bind P 0 1); [apply issues_lift|]. intros value.
  apply (issues_bind P 0 1).
  { destruct (from_header value); [apply issues_ret|apply issues_raise]. }
  intros www_auth. apply (issues_bind P 0 1); [apply issues_lift|]. intros realm.
  apply (issues_bind P 1 0).
  { apply issues_requests_get. apply (Htoken www_auth realm). }
  intros token_req. apply (issues_bind P 0 0); [apply issues_json_of|].
  intros doc. apply issues_lift.
Qed.

Lemma issues_manifest (P : Request → Prop) self image :
  P (probe self image) →
  (∀ www_auth realm, P (token_request self www_auth realm)) →
  (∀ token accept, P (manifest_request str_of_container image token accept)) →
  issues P 4 (get_image_manifest net from_header str_of_container self image).
Proof.
  intros Hprobe Htoken Hman. unfold get_image_manifest.
  case_match; [apply (issues_mono P 0); [lia|apply issues_raise]|].
  apply (issues_bind P 2 2); [by apply issues_token|]. intros token.
  rewrite manifest_headers_first, manifest_headers_retry.
  apply (issues_bind P 1 1); [apply issues_requests_get, Hman|]. intros r1.
  apply (issues_bind P 1 0).
  { case_match; [apply issues_requests_get, Hman|].
    apply (issues_mono P 0); [lia|apply issues_ret]. }
  intros r2. case_match; [apply issues_ret|apply issues_json_of].
Qed.

Lemma issues_exists (P : Request → Prop) self image :
  P (probe self image) →
  (∀ www_auth realm, P (token_request self www_auth realm)) →
  (∀ token accept, P (manifest_request str_of_container image token accept)) →
  issues P 4 (image_exists net from_header str_of_container self image).
Proof.
  intros Hprobe Htoken Hman. unfold image_exists.
  apply (issues_bind P 4 0); [by apply issues_manifest|]. intros; apply issues_ret.
Qed.

Lemma issues_config (P : Request → Prop) self image :
  P (probe self image) →
  (∀ www_auth realm, P (token_request self www_auth realm)) →
  (∀ token accept, P (manifest_request str_of_container image token accept)) →
  (∀ digest token, P (blob_request str_of_container image digest token)) →
  issues P 7 (get_image_config net from_header str_of_container self image).
Proof.
  intros Hprobe Htoken Hman Hblob. unfold get_image_config.
  apply (issues_bind P 4 3); [by apply issues_manifest|]. intros manifest.
  case_match; [apply (issues_mono P 0); [lia|apply issues_ret]|].
  apply (issues_bind P 0 3); [apply issues_lift|]. intros config.
  apply (issues_bind P 0 3); [apply issues_lift|]. intros digest.
  case_match; [apply (issues_mono P 0); [lia|apply issues_ret]|].
  apply (issues_bind P 2 1); [by apply issues_token|]. intros token.
  apply (issues_bind P 1 0); [apply issues_requests_get, Hblob|]. intros r.
  case_match; [apply issues_ret|apply issues_json_of].
Qed.

Lemma issues_work_dir (P : Request → Prop) self image :
  P (probe self image) →
  (∀ www_auth realm, P (token_request self www_auth realm)) →
  (∀ token accept, P (manifest_request str_of_container image token accept)) →
  (∀ digest token, P (blob_request str_of_container image digest token)) →
  issues P 7 (image_work_dir net from_header str_of_container self image).
Proof.
  intros Hprobe Htoken Hman Hblob. unfold image_work_dir, image_workdir.
  apply (issues_bind P 7 0); [|intros; apply issues_ret].
  apply (issues_bind P 7 0); [by apply issues_config|]. intros config.
  case_match; [apply issues_ret|].
  apply (issues_bind P 0 0); [apply issues_lift|]. intros nested.
  case_match; [apply issues_ret|].
  apply (issues_bind P 0 0); [apply issues_lift|]. intros workdir.
  repeat case_match; first [apply issues_ret|apply issues_raise].
Qed.

(** X7: the client never retries: whatever the registry answers, the
    token exchange issues at most two requests, [image_exists] at most
    four, and the lookup of the working directory at most seven. *)
Theorem request_budget self image :
  issues (λ _, True) 2 (_get_docker_token net from_header self image)
  ∧ issues (λ _, True) 4 (image_exists net from_header str_of_container self image)
  ∧ issues (λ _, True) 7 (image_work_dir net from_header str_of_container self image).
Proof.
  split_and!; [apply issues_token|apply issues_exists|apply issues_work_dir]; done.
Qed.

(** *** Requests without a token *)

Lemma token_run_unchallenged self image tr :
  unchallenged net tr self image →
  _get_docker_token net from_header self image tr = (Ret JNull, tr ++ [probe self image]).
Proof.
  intros [H|(r & H & Hr)].
  - by rewrite (token_run_probe_fails _ _ _ _ _ _ H).
  - rewrite (token_run_answer _ _ _ _ _ _ H).
    destruct Hr as [Hs|Hh].
    + by rewrite (proj2 (Z.eqb_neq _ _) Hs).
    + rewrite Hh, bool_decide_eq_false_2 by (by intros [? ?]). by rewrite andb_false_r.
Qed.

(** X8: [get_image_config] formats the token into the header of the
    blob request without looking at it: when the registry asks for no
    authentication the token is [None], and the blob is requested with
    the header [Authorization: Bearer None]. *)
Theorem blob_request_without_token self image tr manifest tr1 digest :
  get_image_manifest net from_header str_of_container self image tr = (Ret manifest, tr1) →
  is_none manifest = false →
  config_digest manifest = Ret digest →
  is_none digest = false →
  unchallenged net tr1 self image →
  (get_image_config net from_header str_of_container self image tr).2
    = tr1 ++ [probe self image; blob_request str_of_container image digest JNull]
  ∧ req_headers (blob_request str_of_container image digest JNull) !! "Authorization"
    = Some "Bearer None".
Proof.
  intros Hm Hnm Hd Hnd Hu. split; [|by cbn; rewrite lookup_insert_eq].
  rewrite (get_image_config_manifest _ _ _ _ _ _ _ _ Hm), Hnm, Hd, Hnd.
  rewrite (token_run_unchallenged _ _ _ Hu).
  rewrite <- (app_assoc tr1 [_] [_]). cbn [app].
  destruct (net _ (blob_request str_of_container image digest JNull)) as [r|e]; [|done].
  destruct (status_code r =? 200)%Z; [|done].
  unfold json_of. by destruct (body r).
Qed.

(** *** Credentials *)

Lemma bearer_not_basic (x c : string) : "Bearer " +:+ x ≠ "Basic " +:+ c.
Proof. discriminate. Qed.

Lemma anonymous_probe self image : anonymous (probe self image).
Proof. intros c. cbn. by rewrite lookup_empty. Qed.

Lemma anonymous_token_request self www_auth realm :
  py_bool_str (oauth2_token self) = false →
  anonymous (token_request self www_auth realm).
Proof.
  intros Ht c. cbn. unfold token_headers.
  destruct (oauth2_token self) as [t|]; cbn in Ht; [rewrite Ht|]; by simplify_map_eq.
Qed.

Lemma anonymous_manifest_request image token accept :
  anonymous (manifest_request str_of_container image token accept).
Proof.
  intros c. cbn. unfold manifest_headers.
  rewrite lookup_insert_ne by done.
  destruct (py_bool token); [|by rewrite lookup_empty].
  rewrite lookup_singleton_eq. intros [= H%bearer_not_basic]; done.
Qed.

Lemma manifest_not_parse_error self image :
  hostname image = repo_hostname self →
  raises_only not_parse_error (get_image_manifest net from_header str_of_container self image).
Proof.
  intros Heq. unfold get_image_manifest.
  rewrite (proj2 (String.eqb_eq _ _) Heq). cbn [negb].
  apply raises_only_bind; [apply token_not_parse_error|]. intros token.
  apply raises_only_bind; [by apply raises_only_requests_get|]. intros r1.
  apply raises_only_bind.
  { case_match; [by apply raises_only_requests_get|apply raises_only_ret]. }
  intros r2. case_match; [apply raises_only_ret|by apply raises_only_json_of].
Qed.

Lemma work_dir_mismatch self image tr :
  hostname image ≠ repo_hostname self →
  image_work_dir net from_header str_of_container self image tr
  = (Raise (ImageParseError (HostnameMismatch (hostname image) (repo_hostname self))), tr).
Proof.
  intros Hne. unfold image_work_dir, image_workdir, get_image_config, get_image_manifest.
  by rewrite (proj2 (String.eqb_neq _ _) Hne).
Qed.

(** *** Where the credentials go *)

Lemma issues_after_nil {A : Type} P (m : M A) :
  (∀ tr, (m tr).2 = tr) → issues_after P m.
Proof.
  intros H tr. exists []. rewrite H, app_nil_r. split; [done|].
  intros i req Hi. by rewrite lookup_nil in Hi.
Qed.

Lemma issues_after_ret {A : Type} P (a : A) : issues_after P (mret a).
Proof. by apply issues_after_nil. Qed.

Lemma issues_after_raise {A : Type} P e : issues_after P (raise (A:=A) e).
Proof. by apply issues_after_nil. Qed.

Lemma issues_after_lift {A : Type} P (r : res A) : issues_after P (lift r).
Proof. by apply issues_after_nil. Qed.

Lemma issues_after_json_of P r : issues_after P (json_of r).
Proof.
  unfold json_of. destruct (body r); [apply issues_after_ret|apply issues_after_raise].
Qed.

Lemma issues_after_requests_get (P : list Request → Request → Prop) req :
  (∀ tr, P tr req) → issues_after P (requests_get net req).
Proof.
  intros HP tr. exists [req]. split; [unfold requests_get; by destruct (net tr req)|].
  intros [|i] r Hi; [|by destruct i]. injection Hi as <-. apply HP.
Qed.

Lemma issues_after_bind {A B : Type} P (m : M A) (f : A → M B) :
  issues_after P m → (∀ a, issues_after P (f a)) → issues_after P (m ≫= f).
Proof.
  intros Hm Hf tr. rewrite bind_run.
  destruct (Hm tr) as (t1 & H1 & P1).
  destruct (m tr) as [[a|e] tr1]; cbn in H1; subst tr1; [|by exists t1].
  destruct (Hf a (tr ++ t1)) as (t2 & H2 & P2). exists (t1 ++ t2).
  split; [by rewrite H2, app_assoc|].
  intros i req [Hi|[Hge Hi]]%lookup_app_Some.
  - rewrite take_app_le by (apply lookup_lt_Some in Hi; lia). by apply P1.
  - rewrite take_app_ge by done. rewrite app_assoc. by apply P2.
Qed.

(** The requests of a token exchange: the probe alone, or the probe and
    the request to the realm of the challenge that answered it. *)
Lemma token_requests self image tr :
  (_get_docker_token net from_header self image tr).2 = tr ++ [probe self image]
  ∨ ∃ value www_auth realm,
      challenged net tr self image value
      ∧ from_header value = Some www_auth
      ∧ parameters www_auth !! "realm" = Some realm
      ∧ (_get_docker_token net from_header self image tr).2
        = tr ++ [probe self image; token_request self www_auth realm].
Proof.
  destruct (net tr (probe self image)) as [auth_req|e] eqn:Hnet.
  - rewrite (token_run_answer _ _ _ _ _ _ Hnet).
    destruct (status_code auth_req =? 401)%Z eqn:Hs; [|by left].
    destruct (headers auth_req !! "www-authenticate") as [value|] eqn:Hh; cycle 1.
    { left. by rewrite bool_decide_eq_false_2 by (by intros [? ?]). }
    rewrite bool_decide_eq_true_2 by eauto. cbn [andb negb].
    destruct (from_header value) as [www_auth|] eqn:Hfh; [|by left].
    destruct (parameters www_auth !! "realm") as [realm|] eqn:Hr; [|by left].
    right. exists value, www_auth, realm. split_and!; try done.
    { exists auth_req. split_and!; [done| |done]. by apply Z.eqb_eq. }
    cbv zeta. destruct (net _ (token_request self www_auth realm)) as [token_req|e']; [|done].
    by destruct (body token_req).
  - left. rewrite (token_run_probe_fails _ _ _ _ _ _ Hnet). by destruct e.
Qed.

Section Following.

Variables (self : ImageRepoDockerAPI) (image : Image).

#[local] Abbreviation following := (discreet net from_header self image).

Lemma following_token :
  issues_after following (_get_docker_token net from_header self image).
Proof.
  intros tr. destruct (token_requests self image tr)
    as [H|(value & www_auth & realm & Hc & Hfh & Hr & H)].
  - exists [probe self image]. split; [done|].
    intros [|i] r Hi; [|by destruct i]. injection Hi as <-.
    left. apply anonymous_probe.
  - exists [probe self image; token_request self www_auth realm]. split; [done|].
    intros [|[|i]] r Hi; [| |by destruct i]; injection Hi as <-.
    + left. apply anonymous_probe.
    + right. by exists tr, value, www_auth, realm.
Qed.

Lemma following_manifest :
  issues_after following (get_image_manifest net from_header str_of_container self image).
Proof.
  unfold get_image_manifest. case_match; [apply issues_after_raise|].
  apply issues_after_bind; [apply following_token|]. intros token.
  rewrite manifest_headers_first, manifest_headers_retry.
  assert (Hman : ∀ accept, issues_after following
            (requests_get net (manifest_request str_of_container image token accept))).
  { intros accept. apply issues_after_requests_get. intros tr. left.
    apply anonymous_manifest_request. }
  apply issues_after_bind; [apply Hman|]. intros r1.
  apply issues_after_bind.
  { case_match; [apply Hman|apply issues_after_ret]. }
  intros r2. case_match; [apply issues_after_ret|apply issues_after_json_of].
Qed.

Lemma anonymous_blob_request digest token :
  anonymous (blob_request str_of_container image digest token).
Proof.
  intros c. cbn. rewrite lookup_insert_eq. intros [= H%bearer_not_basic]; done.
Qed.

Lemma following_config :
  issues_after following (get_image_config net from_header str_of_container self image).
Proof.
  unfold get_image_config.
  apply issues_after_bind; [apply following_manifest|]. intros manifest.
  case_match; [apply issues_after_ret|].
  apply issues_after_bind; [apply issues_after_lift|]. intros config.
  apply issues_after_bind; [apply issues_after_lift|]. intros digest.
  case_match; [apply issues_after_ret|].
  apply issues_after_bind; [apply following_token|]. intros token.
  apply issues_after_bind.
  { apply issues_after_requests_get. intros tr. left.
    apply (anonymous_blob_request digest token). }
  intros r. case_match; [apply issues_after_ret|apply issues_after_json_of].
Qed.

(** X16: where the GitLab token goes. Of the requests that
    [image_exists] and the lookup of the working directory issue, the
    only ones that carry HTTP Basic credentials are requests to the realm
    of a challenge, sent right after the probe that the registry
    answered with that challenge; the probe, the manifest requests and
    the blob request never carry them. *)
Theorem credentials_follow_challenge :
  issues_after following (image_exists net from_header str_of_container self image)
  ∧ issues_after following (image_work_dir net from_header str_of_container self image).
Proof.
  split.
  - unfold image_exists.
    apply issues_after_bind; [apply following_manifest|]. intros; apply issues_after_ret.
  - unfold image_work_dir, image_workdir.
    apply issues_after_bind; [|intros; apply issues_after_ret].
    apply issues_after_bind; [apply following_config|]. intros config.
    case_match; [apply issues_after_ret|].
    apply issues_after_bind; [apply issues_after_lift|]. intros nested.
    case_match; [apply issues_after_ret|].
    apply issues_after_bind; [apply issues_after_lift|]. intros workdir.
    repeat case_match; first [apply issues_after_ret|apply issues_after_raise].
Qed.

End Following.


(** The method on objects and the function on values agree. *)
Lemma with_oauth2_token_store (h : Store.store) (self : Store.ref) o t :
  h !! self = Some o →
  Store.with_oauth2_token h self t = Some (Store.new h (with_oauth2_token o t)).
Proof. intros H. unfold Store.with_oauth2_token. by rewrite H. Qed.

(** *** The views *)

Section Views.

Variable git_registry : string.
Variable default_image : string.

#[local] Abbreviation check :=
  (Notebooks.check_docker_image net from_header str_of_container git_registry).
#[local] Abbreviation launch :=
  (Notebooks.launch_notebook_image net from_header str_of_container git_registry
     default_image).

(** X9: [check_docker_image] builds the client from the image it
    parsed, so the hostnames always agree: an [ImageParseError] can only
    be that of a reference that cannot be parsed, raised before any
    request; once the reference parses the view answers 200 or 404, or
    lets an exception of the exchange with the registry through. *)
Theorem check_docker_image_outcome git_token image_url tr :
  match from_path image_url with
  | Raise _ =>
      check git_token image_url tr = (Raise (ImageParseError (CannotParse image_url)), tr)
  | Ret _ =>
      match (check git_token image_url tr).1 with
      | Ret r => r = (""%string, 200%Z) ∨ r = (""%string, 404%Z)
      | Raise e => not_parse_error e
      end
  end.
Proof.
  unfold Notebooks.check_docker_image.
  destruct (from_path image_url) as [img|e] eqn:Hp.
  - change ((lift (Ret img) ≫= ?f) tr) with (f img tr). cbv beta zeta.
    match goal with |- context [image_exists _ _ _ ?r img] => set (repo := r) end.
    assert (Heq : hostname img = repo_hostname repo).
    { unfold repo. by case_match. }
    rewrite bind_run, image_exists_run.
    pose proof (manifest_not_parse_error repo img Heq tr) as Hm.
    destruct (get_image_manifest net from_header str_of_container repo img tr)
      as [[manifest|e] tr1]; cbn in *.
    + destruct (is_none manifest); cbn; auto.
    + by apply Hm.
  - apply from_path_raises in Hp as ->. reflexivity.
Qed.

(** X10: [check_docker_image] sends the user's GitLab token only for
    an image of the configured registry: for any other hostname, or
    without a token, none of its requests (four at most) carries HTTP
    Basic credentials. *)
Theorem check_docker_image_credentials git_token image_url img :
  from_path image_url = Ret img →
  hostname img ≠ git_registry ∨ py_bool_str git_token = false →
  issues anonymous 4 (check git_token image_url).
Proof.
  intros Hp Hcond. unfold Notebooks.check_docker_image. rewrite Hp.
  lazymatch goal with |- issues _ _ (lift (Ret img) ≫= ?f) =>
    change (issues anonymous (4 + 0) (f img)) end.
  cbv beta zeta.
  assert (Hc : String.eqb (hostname img) git_registry && py_bool_str git_token = false).
  { destruct Hcond as [Hne | ->]; [|apply andb_false_r].
    by rewrite (proj2 (String.eqb_neq _ _) Hne). }
  rewrite Hc.
  apply issues_bind.
  - apply issues_exists.
    + apply anonymous_probe.
    + intros. by apply anonymous_token_request.
    + intros. apply anonymous_manifest_request.
  - intros [|]; apply issues_ret.
Qed.

Lemma bind_inv {A B : Type} (m : M A) (f : A → M B) tr b tr' :
  (m ≫= f) tr = (Ret b, tr') → ∃ a tr1, m tr = (Ret a, tr1) ∧ f a tr1 = (Ret b, tr').
Proof.
  rewrite bind_run. destruct (m tr) as [[a|e] tr1]; [|done]. intros H. by exists a, tr1.
Qed.

Lemma lift_inv {A : Type} (r : res A) tr a tr' :
  lift r tr = (Ret a, tr') → r = Ret a ∧ tr' = tr.
Proof. unfold lift. by intros [= -> ->]. Qed.

Lemma ret_inv {A : Type} (a b : A) tr tr' :
  (mret a : M A) tr = (Ret b, tr') → a = b ∧ tr' = tr.
Proof. unfold mret, M_ret. by intros [= -> ->]. Qed.

(** X11: the client that [launch_notebook] keeps for the working
    directory. When the requested image is found, or the image of the
    commit is used, the client is that of the image's registry. When
    the requested image is not found and the default image takes its
    place, the session is never marked private and the client stays
    that of the requested image: if the default image is on another
    registry, the lookup of its working directory raises
    [ImageParseError] without a request. *)
Theorem launch_notebook_image_repo git_token gl_project commit_sha requested tr sel tr' :
  launch git_token gl_project commit_sha requested tr = (Ret (inr sel), tr') →
  if Notebooks.using_default_image sel then
    Notebooks.is_image_private sel = false
    ∧ from_path default_image = Ret (Notebooks.parsed_image sel)
    ∧ ∃ s img,
        requested = Some s ∧ from_path s = Ret img
        ∧ repo_hostname (Notebooks.image_repo sel) = hostname img
        ∧ (hostname (Notebooks.parsed_image sel) ≠ hostname img →
           ∀ tr2, image_work_dir net from_header str_of_container
                    (Notebooks.image_repo sel) (Notebooks.parsed_image sel) tr2
                  = (Raise (ImageParseError
                       (HostnameMismatch (hostname (Notebooks.parsed_image sel))
                          (hostname img))),
                     tr2))
  else
    repo_hostname (Notebooks.image_repo sel) = hostname (Notebooks.parsed_image sel).
Proof.
  unfold Notebooks.launch_notebook_image.
  destruct (py_bool_str requested) eqn:Hreq.
  - destruct requested as [s|]; [|done]. cbn [default].
    intros (img & tr1 & [Hp ->]%lift_inv & H)%bind_inv.
    apply bind_inv in H as (pub & tr2 & Hpub & H).
    apply bind_inv in H as ([repo priv] & tr3 & Hpriv & H).
    apply bind_inv in H as ([[dflt im] pimg] & tr4 & Hsel & H).
    apply ret_inv in H as [[= <-] ->].
    cbn [Notebooks.using_default_image Notebooks.is_image_private
         Notebooks.parsed_image Notebooks.image_repo].
    assert (Hrepo : repo_hostname repo = hostname img).
    { destruct (negb pub && String.eqb (hostname img) git_registry && py_bool_str git_token).
      - by apply bind_inv in Hpriv as (p & tr5 & _ & [[= <- <-] _]%ret_inv).
      - by apply ret_inv in Hpriv as [[= <- <-] _]. }
    destruct (negb priv && negb pub) eqn:Hc.
    + apply bind_inv in Hsel as (dimg & tr5 & [Hd ->]%lift_inv & [[= <- <- <-] _]%ret_inv).
      apply andb_prop in Hc as [Hpriv' _]. split; [by destruct priv|].
      split; [done|]. exists s, img. split_and!; try done.
      intros Hne tr0. rewrite <- Hrepo in *. by apply work_dir_mismatch.
    + by apply ret_inv in Hsel as [[= <- <- <-] _].
  - destruct gl_project as [p|]; [|done]. cbv zeta.
    intros (found & tr1 & Hfound & H)%bind_inv.
    destruct found; cbn [negb] in H; [|by apply ret_inv in H as [[=] _]].
    apply ret_inv in H as [[= <-] ->].
    cbn [Notebooks.using_default_image Notebooks.parsed_image Notebooks.image_repo hostname].
    by case_match.
Qed.

End Views.

End Requests.

Lemma blob_request_without_token_witness :
  (get_image_config open_registry parse_header no_container api img []).2
  = [probe api img;
     manifest_request no_container img JNull ManifestTypes.docker_v2;
     probe api img;
     blob_request no_container img (JStr "sha256:c0ffee") JNull]
  ∧ req_headers (blob_request no_container img (JStr "sha256:c0ffee") JNull) !! "Authorization"
    = Some "Bearer None".
Proof.
  refine (blob_request_without_token open_registry parse_header no_container api img []
            manifest_doc
            [probe api img; manifest_request no_container img JNull ManifestTypes.docker_v2]
            (JStr "sha256:c0ffee") _ _ _ _ _).
  - vm_compute. reflexivity.
  - reflexivity.
  - reflexivity.
  - reflexivity.
  - right. eexists. split; [vm_compute; reflexivity|]. left. done.
Defined.

Lemma check_docker_image_credentials_witness :
  issues anonymous 4
    (Notebooks.check_docker_image open_registry parse_header no_container
       "registry.example.com" (Some "s3cr3t") "nginx").
Proof.
  apply (check_docker_image_credentials open_registry parse_header no_container
           "registry.example.com" (Some "s3cr3t") "nginx"
           (mkImage "registry-1.docker.io" "library/nginx" "latest")).
  - vm_compute. reflexivity.
  - left. discriminate.
Defined.

Lemma launch_notebook_image_repo_witness :
  Notebooks.launch_notebook_image missing_registry parse_header no_container
    "gitlab.example.com" "renku/renkulab-py:3.10" None None "0123456789abcdef"
    (Some "registry.example.com/group/project:1.0.0") []
  = (Ret (inr fallback),
     [probe api img;
      manifest_request no_container img JNull ManifestTypes.docker_v2;
      manifest_request no_container img JNull ManifestTypes.oci_v1])
  ∧ ∀ tr2, image_work_dir missing_registry parse_header no_container api default_py tr2
           = (Raise (ImageParseError
                (HostnameMismatch "registry-1.docker.io" "registry.example.com")), tr2).
Proof.
  assert (H : Notebooks.launch_notebook_image missing_registry parse_header no_container
    "gitlab.example.com" "renku/renkulab-py:3.10" None None "0123456789abcdef"
    (Some "registry.example.com/group/project:1.0.0") []
  = (Ret (inr fallback),
     [probe api img;
      manifest_request no_container img JNull ManifestTypes.docker_v2;
      manifest_request no_container img JNull ManifestTypes.oci_v1]))
    by (vm_compute; reflexivity).
  split; [exact H|].
  pose proof (launch_notebook_image_repo _ _ _ _ _ _ _ _ _ _ _ _ H) as Hl.
  cbn [Notebooks.using_default_image fallback] in Hl.
  destruct Hl as (_ & _ & s & img' & [= <-] & Himg & Hrepo & Hmis).
  vm_compute in Himg. injection Himg as <-.
  apply Hmis. discriminate.
Defined.

(** * Flattening a dict *)

Section SchemasFacts.
Import Schemas.

Lemma extend_mapping d key sep :
  extend (JObj d) key sep
  = dict (flat_map (λ kv, extend kv.2 (new_key key sep kv.1) sep) d).
Proof.
  cbn [extend]. f_equal. induction d as [|[k v] d IH]; [done|].
  cbn [flat_map fst snd]. by rewrite <- IH.
Qed.

Lemma setitem_keys d key value :
  (setitem d key value).*1 = if bool_decide (key ∈ d.*1) then d.*1 else d.*1 ++ [key].
Proof.
  induction d as [|[k v] d IH]; [done|]. cbn [setitem].
  destruct (String.eqb_spec k key) as [->|Hne].
  - cbn. rewrite bool_decide_eq_true_2; [done|left].
  - cbn [fmap list_fmap fst]. fold (fmap (M:=list) (@fst string json)). rewrite IH.
    case_bool_decide as Hin.
    + rewrite bool_decide_eq_true_2; [done|by right].
    + rewrite bool_decide_eq_false_2; [done|].
      intros [?|?]%elem_of_cons; congruence.
Qed.

Lemma setitem_NoDup d key value : NoDup d.*1 → NoDup (setitem d key value).*1.
Proof.
  intros Hd. rewrite setitem_keys. case_bool_decide as Hin; [done|].
  apply NoDup_app. split_and!; [done| |apply NoDup_singleton].
  intros x Hx ->%list_elem_of_singleton. done.
Qed.

Lemma setitem_values (P : json → Prop) d key value :
  Forall (λ kv, P kv.2) d → P value → Forall (λ kv, P kv.2) (setitem d key value).
Proof.
  intros Hd Hv. induction Hd as [|[k v] d Hk Hd IH]; cbn [setitem].
  - by constructor.
  - case_match; constructor; done.
Qed.

Lemma dict_invariant (P : json → Prop) items acc :
  Forall (λ kv, P kv.2) items → Forall (λ kv, P kv.2) acc → NoDup acc.*1 →
  let d := foldl (λ d kv, setitem d kv.1 kv.2) acc items in
  Forall (λ kv, P kv.2) d ∧ NoDup d.*1.
Proof.
  intros Hi. revert acc. induction Hi as [|[k v] items Hk Hi IH]; intros acc Ha Hn; [done|].
  cbn [foldl]. apply IH; [by apply setitem_values|by apply setitem_NoDup].
Qed.

(** Induction on a document, with the hypothesis for the members of
    an object. *)
Lemma json_members_ind (P : json → Prop) :
  P JNull → (∀ b, P (JBool b)) → (∀ n, P (JNum n)) → (∀ s, P (JStr s)) →
  (∀ l, P (JArr l)) →
  (∀ d, Forall (λ kv, P kv.2) d → P (JObj d)) →
  ∀ v, P v.
Proof.
  intros HNull HBool HNum HStr HArr HObj.
  refine (fix rec (v : json) : P v :=
    match v with
    | JNull => HNull
    | JBool b => HBool b
    | JNum n => HNum n
    | JStr s => HStr s
    | JArr l => HArr l
    | JObj d =>
        HObj d ((fix members (d : list (string * json)) : Forall (λ kv, P kv.2) d :=
                   match d with
                   | [] => @List.Forall_nil _ _
                   | kv :: d' => @List.Forall_cons _ _ kv d' (rec kv.2) (members d')
                   end) d)
    end).
Qed.

Lemma dict_flat items :
  Forall (λ kv, is_mapping kv.2 = false) items → flat (dict items).
Proof.
  intros Hi. apply (dict_invariant (λ v, is_mapping v = false) items []); [done|done|].
  apply NoDup_nil_2.
Qed.

Lemma extend_values v key sep :
  Forall (λ kv, is_mapping kv.2 = false) (extend v key sep).
Proof.
  revert key. induction v as [| | | | |d IH] using json_members_ind; intros key;
    try (by repeat constructor).
  rewrite extend_mapping. apply dict_flat.
  induction IH as [|[k v] d Hv _ IHd]; [done|].
  cbn [flat_map]. apply Forall_app. split; [apply Hv|apply IHd].
Qed.

Lemma extend_flat d key sep : flat (extend (JObj d) key sep).
Proof.
  rewrite extend_mapping. apply dict_flat.
  induction d as [|[k v] d IH]; [done|].
  cbn [flat_map]. apply Forall_app. split; [apply extend_values|apply IH].
Qed.

(** X12: whatever the nesting of its input, the dict that
    [flatten_dict] returns is flat: none of its values is a mapping, and
    (as in any dict) no key occurs twice. *)
Theorem flatten_dict_flat d parent_key sep : flat (flatten_dict d parent_key sep).
Proof. apply extend_flat. Qed.

Lemma setitem_fresh d key value :
  key ∉ d.*1 → setitem d key value = d ++ [(key, value)].
Proof.
  induction d as [|[k v] d IH]; [done|]. cbn [setitem fmap list_fmap fst].
  intros Hn. destruct (String.eqb_spec k key) as [->|Hne].
  - destruct Hn. left.
  - cbn. f_equal. apply IH. intros Hin. apply Hn. by right.
Qed.

Lemma dict_NoDup items acc :
  NoDup (acc ++ items).*1 →
  foldl (λ d kv, setitem d kv.1 kv.2) acc items = acc ++ items.
Proof.
  revert acc. induction items as [|[k v] items IH]; intros acc Hn.
  - by rewrite app_nil_r.
  - cbn [foldl fst snd]. rewrite setitem_fresh.
    + rewrite IH; rewrite <- app_assoc; done.
    + rewrite fmap_app in Hn. apply NoDup_app in Hn as (_ & Hn & _).
      intros Hin. apply (Hn k Hin). left.
Qed.

(** A flat dict is left as it is. *)
Lemma flatten_dict_fixed d sep : flat d → flatten_dict d "" sep = d.
Proof.
  intros [Hv Hn]. unfold flatten_dict. rewrite extend_mapping.
  assert (Hf : flat_map (λ kv, extend kv.2 (new_key "" sep kv.1) sep) d = d).
  { clear Hn. induction Hv as [|[k v] d Hk _ IH]; [done|].
    cbn [flat_map fst snd]. rewrite IH. cbn in Hk. by destruct v. }
  rewrite Hf. unfold dict. by rewrite dict_NoDup.
Qed.

(** X13: [flatten_dict] is idempotent: flattening its own result
    once more, from the top, changes nothing. *)
Theorem flatten_dict_idempotent d parent_key sep :
  flatten_dict (flatten_dict d parent_key sep) "" sep = flatten_dict d parent_key sep.
Proof. apply flatten_dict_fixed, extend_flat. Qed.

Lemma flat_map_cons_app {A B : Type} (f : A → list B) (l1 : list A) x l2 :
  flat_map f (l1 ++ x :: l2) = flat_map f l1 ++ f x ++ flat_map f l2.
Proof. by rewrite flat_map_app. Qed.

(** X14: a key whose value is an empty mapping leaves no trace in the
    result, wherever it stands. *)
Theorem flatten_dict_drops_empty d1 k d2 parent_key sep :
  flatten_dict (d1 ++ (k, JObj []) :: d2) parent_key sep
  = flatten_dict (d1 ++ d2) parent_key sep.
Proof.
  unfold flatten_dict. rewrite !extend_mapping.
  by rewrite flat_map_cons_app, flat_map_app.
Qed.

(** The example of the docstring. *)
Example flatten_dict_docstring :
  flatten_dict nested_doc "" "." = [("A", JNum 1); ("B.C.D", JNum 2)].
Proof. vm_compute. reflexivity. Qed.

End SchemasFacts.


(** * The environment of a session *)

Section JupyterServerFacts.
Import JupyterServer.

#[local] Instance overrides_dec vars kv : Decision (overrides vars kv).
Proof.
  unfold overrides. destruct (lookup_var kv.1 vars) as [v|].
  - destruct (decide (kv.2 = v)) as [->|Hne].
    + right. intros (v' & [= <-] & H). done.
    + left. by exists v.
  - right. by intros (v' & [=] & _).
Defined.

Lemma env_loop_spec vars items patch_list :
  env_loop vars items patch_list =
  match list_find (overrides vars) items with
  | Some (_, kv) => inl (OverriddenEnvironmentVariableError kv.1)
  | None => inr (patch_list ++ ((λ kv, add_env kv.1 kv.2) <$> items))
  end.
Proof.
  revert patch_list. induction items as [|[k v] items IH]; intros patch_list.
  - cbn. by rewrite app_nil_r.
  - cbn [env_loop list_find]. case_decide as Ho.
    + destruct Ho as (r & Hr & Hne). cbn [fst snd] in Hr, Hne. rewrite Hr.
      by rewrite (proj2 (String.eqb_neq _ _) Hne).
    + assert (Hgo : env_loop vars items (patch_list ++ [add_env k v])
                    = match lookup_var k vars with
                      | Some reserved =>
                          if negb (String.eqb v reserved)
                          then inl (OverriddenEnvironmentVariableError k)
                          else env_loop vars items (patch_list ++ [add_env k v])
                      | None => env_loop vars items (patch_list ++ [add_env k v])
                      end).
      { destruct (lookup_var k vars) as [r|] eqn:Hr; [|done].
        destruct (String.eqb_spec v r) as [->|Hne]; [done|].
        destruct Ho. by exists r. }
      rewrite <- Hgo, IH.
      destruct (list_find (overrides vars) items) as [[n kv]|]; cbn [fmap option_fmap option_map];
        [done|].
      cbn [fmap list_fmap]. by rewrite <- app_assoc.
Qed.

Lemma lookup_var_env_vars server k v :
  (k, v) ∈ env_vars server → lookup_var k (env_vars server) = Some v.
Proof.
  unfold env_vars. intros H.
  repeat (apply elem_of_cons in H as [[= -> ->]|H]; [reflexivity|]).
  by apply elem_of_nil in H.
Qed.

(** X15: [env] protects the variables it sets itself. It raises
    [OverriddenEnvironmentVariableError] exactly when a variable of the
    user gives one of them another value, and names the first such
    variable; otherwise it returns one patch that adds its own seven
    variables and then all those of the user, in order, so that every
    entry under a reserved name carries the reserved value. *)
Theorem env_reserved server :
  match env server with
  | inl (OverriddenEnvironmentVariableError key) =>
      ∃ n value,
        environment_variables server !! n = Some (key, value)
        ∧ overrides (env_vars server) (key, value)
        ∧ Forall (λ kv, ¬ overrides (env_vars server) kv)
            (take n (environment_variables server))
  | inr patches =>
      patches =
        [JObj [("type", JStr "application/json-patch+json");
               ("patch", JArr ((λ kv, add_env kv.1 kv.2)
                                 <$> (env_vars server ++ environment_variables server)))]]
      ∧ Forall (λ kv, ∀ v, lookup_var kv.1 (env_vars server) = Some v → kv.2 = v)
          (env_vars server ++ environment_variables server)
  end.
Proof.
  unfold env. rewrite env_loop_spec.
  destruct (list_find (overrides (env_vars server)) (environment_variables server))
    as [[n [k v]]|] eqn:Hf.
  - apply list_find_Some in Hf as (Hn & Ho & Hbefore).
    exists n, v. split_and!; [done..|].
    apply Forall_forall. intros kv [j Hj]%list_elem_of_lookup_1.
    apply lookup_take_Some in Hj as [Hj Hlt]. by apply (Hbefore j).
  - apply list_find_None in Hf. split; [by rewrite fmap_app|].
    apply Forall_app. split.
    + apply Forall_forall. intros [k v] Hkv r Hr. cbn [fst snd] in *.
      rewrite (lookup_var_env_vars _ _ _ Hkv) in Hr. congruence.
    + eapply Forall_impl; [exact Hf|]. intros [k v] Hno r Hr. cbn [fst snd] in *.
      destruct (decide (v = r)) as [|Hne]; [done|]. destruct Hno. by exists r.
Qed.

End JupyterServerFacts.

Lemma env_reserved_witness :
  JS.env jane_server =
  inr [JObj [("type", JStr "application/json-patch+json");
             ("patch", JArr ((λ kv, JS.add_env kv.1 kv.2)
                               <$> (JS.env_vars jane_server
                                      ++ JS.environment_variables jane_server)))]]
  ∧ Forall (λ kv, ∀ v, JS.lookup_var kv.1 (JS.env_vars jane_server) = Some v → kv.2 = v)
      (JS.env_vars jane_server ++ JS.environment_variables jane_server).
Proof.
  pose proof (env_reserved jane_server) as H.
  assert (He : ∃ patches, JS.env jane_server = inr patches)
    by (eexists; vm_compute; reflexivity).
  destruct He as [patches He]. rewrite He in H. destruct H as [-> H].
  split; [exact He|exact H].
Defined.

(** ** The mount points of the cloud storage *)

Section MountFacts.

Lemma prefix_refl s : String.prefix s s = true.
Proof. induction s as [|c s IH]; [done|]. cbn. by destruct (ascii_dec c c). Qed.

Lemma size_list_to_set_le (l : list string) :
  size (list_to_set (C:=gset string) l) ≤ length l.
Proof.
  induction l as [|x l IH]; [done|]. cbn [list_to_set foldr length].
  rewrite size_union_alt, size_singleton.
  pose proof (subseteq_size (list_to_set l ∖ {[x]}) (list_to_set (C:=gset string) l)
                (subseteq_difference_l _ _ _ (reflexivity _))). lia.
Qed.

Lemma size_list_to_set_NoDup (l : list string) :
  size (list_to_set (C:=gset string) l) = length l ↔ NoDup l.
Proof.
  split; [|apply size_list_to_set].
  induction l as [|x l IH]; [constructor|]. cbn [list_to_set foldr length]. intros H.
  pose proof (size_list_to_set_le l) as Hle.
  destruct (decide (x ∈ l)) as [Hin|Hnin].
  - assert (({[x]} ∪ list_to_set l : gset string) = list_to_set l) as E.
    { apply subseteq_union_1_L, singleton_subseteq_l, elem_of_list_to_set, Hin. }
    rewrite E in H. lia.
  - constructor; [done|]. apply IH.
    rewrite size_union in H.
    + rewrite size_singleton in H. lia.
    + apply disjoint_singleton_l. by rewrite elem_of_list_to_set.
Qed.

Lemma length_filter_eq {A : Type} (P : A → Prop) `{!∀ x, Decision (P x)} (l : list A) :
  length (filter P l) = length l ↔ Forall P l.
Proof.
  induction l as [|x l IH]; [by split; [constructor|]|].
  rewrite filter_cons. pose proof (length_filter P l) as Hle.
  case_decide as Hx; cbn [length].
  - split; [intros [= Hl]; constructor; [done|by apply IH]|].
    intros [_ Hl]%Forall_cons. f_equal. by apply IH.
  - split; [lia|]. by intros [? _]%Forall_cons.
Qed.

Lemma filter_all {A : Type} (P : A → Prop) `{!∀ x, Decision (P x)} (l : list A) :
  Forall P l → filter P l = l.
Proof.
  induction 1 as [|x l Hx _ IH]; [done|]. by rewrite filter_cons, decide_True, IH.
Qed.

Context {T : Type}.
Variable mount_folder : T → string.
Variable ne : T → T → bool.

(** The first check passes for the lists all of whose mount points are
    set, away from the root, and distinct. *)
Lemma mount_points_size (cs : list T) :
  size (Notebooks.mount_points mount_folder cs) = length cs
  ↔ Forall (λ s, mount_folder s ≠ ""%string ∧ mount_folder s ≠ "/"%string) cs
    ∧ NoDup (mount_folder <$> cs).
Proof.
  unfold Notebooks.mount_points.
  set (P := λ s : T, mount_folder s ≠ ""%string ∧ mount_folder s ≠ "/"%string).
  pose proof (size_list_to_set_le (mount_folder <$> filter P cs)) as H1.
  rewrite length_fmap in H1.
  pose proof (length_filter P cs) as H2.
  split.
  - intros H.
    assert (Hf : length (filter P cs) = length cs) by lia.
    apply length_filter_eq in Hf as Hall. split; [done|].
    rewrite (filter_all P cs Hall) in H.
    apply size_list_to_set_NoDup. by rewrite length_fmap.
  - intros [Hall Hnd]. rewrite (filter_all P cs Hall).
    rewrite <- (length_fmap mount_folder cs). by apply size_list_to_set_NoDup.
Qed.

Lemma mounted_into_another_spec (cs : list T) :
  Notebooks.mounted_into_another mount_folder ne cs = true
  ↔ ∃ s1 s2, s1 ∈ cs ∧ s2 ∈ cs ∧ ne s1 s2 = true
             ∧ String.prefix (mount_folder s2) (mount_folder s1) = true.
Proof.
  unfold Notebooks.mounted_into_another. rewrite existsb_exists. split.
  - intros (s1 & H1 & H). apply existsb_exists in H as (s2 & H2 & H).
    apply andb_prop in H as [Hne Hp].
    exists s1, s2. by rewrite !list_elem_of_In.
  - intros (s1 & s2 & H1 & H2 & Hne & Hp).
    exists s1. split; [by apply list_elem_of_In|].
    apply existsb_exists. exists s2. split; [by apply list_elem_of_In|].
    by rewrite Hne, Hp.
Qed.

(** X17: when an object of the cloud storage is never [!=] to itself,
    and objects with different mount folders are, the checks of
    [launch_notebook] pass for the lists in which every mount folder is
    set and is not the root, and no mount folder begins with the mount
    folder of another position; equal mount folders and siblings such
    as [data] and [data2] are refused with the nested ones. *)
Theorem check_mount_points_accepts (cs : list T) :
  (∀ s, ne s s = false) →
  (∀ s1 s2, mount_folder s1 ≠ mount_folder s2 → ne s1 s2 = true) →
  Notebooks.check_mount_points mount_folder ne cs = None
  ↔ Forall (λ s, mount_folder s ≠ ""%string ∧ mount_folder s ≠ "/"%string) cs
    ∧ ∀ i j s1 s2, cs !! i = Some s1 → cs !! j = Some s2 → i ≠ j →
                   String.prefix (mount_folder s2) (mount_folder s1) = false.
Proof.
  intros Hrefl Hne. unfold Notebooks.check_mount_points. split.
  - destruct (size (Notebooks.mount_points mount_folder cs) =? length cs) eqn:Hs; [|done].
    cbn [negb].
    destruct (Notebooks.mounted_into_another mount_folder ne cs) eqn:Hm; [done|]. intros _.
    apply Nat.eqb_eq, mount_points_size in Hs as [Hall Hnd]. split; [done|].
    intros i j s1 s2 Hi Hj Hij.
    destruct (String.prefix (mount_folder s2) (mount_folder s1)) eqn:Hp; [|done].
    assert (Notebooks.mounted_into_another mount_folder ne cs = true); [|congruence].
    apply mounted_into_another_spec. exists s1, s2.
    split_and!; [by eapply list_elem_of_lookup_2|by eapply list_elem_of_lookup_2| |done].
    apply Hne. intros E. apply Hij.
    apply (proj1 (NoDup_alt _) Hnd i j (mount_folder s1)).
    + by rewrite list_lookup_fmap, Hi.
    + by rewrite list_lookup_fmap, Hj, E.
  - intros [Hall Hpairs].
    assert (Hnd : NoDup (mount_folder <$> cs)).
    { apply NoDup_alt. intros i j s Hi Hj.
      destruct (decide (i = j)) as [|Hij]; [done|].
      rewrite list_lookup_fmap in Hi, Hj.
      destruct (cs !! i) as [s1|] eqn:Ei; [|done].
      destruct (cs !! j) as [s2|] eqn:Ej; [|done].
      injection Hi as Hi. injection Hj as Hj.
      specialize (Hpairs i j s1 s2 Ei Ej Hij).
      by rewrite Hi, Hj, prefix_refl in Hpairs. }
    rewrite (proj2 (Nat.eqb_eq _ _) (proj2 (mount_points_size cs) (conj Hall Hnd))).
    cbn [negb]. destruct (Notebooks.mounted_into_another mount_folder ne cs) eqn:Hm; [|done].
    apply mounted_into_another_spec in Hm as (s1 & s2 & H1 & H2 & Hn & Hp).
    apply list_elem_of_lookup_1 in H1 as [i Hi]. apply list_elem_of_lookup_1 in H2 as [j Hj].
    destruct (decide (i = j)) as [->|Hij].
    + rewrite Hi in Hj. injection Hj as ->. by rewrite Hrefl in Hn.
    + by rewrite (Hpairs i j s1 s2 Hi Hj Hij) in Hp.
Qed.

End MountFacts.

Lemma check_mount_points_accepts_witness :
  Notebooks.check_mount_points id other_folder ["data"; "work"]%string = None.
Proof.
  apply (proj2 (check_mount_points_accepts id other_folder ["data"; "work"]%string
                  (λ s, eq_trans (f_equal negb (String.eqb_refl s)) eq_refl)
                  (λ s1 s2 H, proj2 (negb_true_iff _) (proj2 (String.eqb_neq s1 s2) H)))).
  split; [repeat constructor; done|].
  intros [|[|i]] [|[|j]] s1 s2 Hi Hj Hij; try done;
    injection Hi as <-; injection Hj as <-; reflexivity.
Defined.

(** Siblings whose names begin alike are taken for nested mounts. *)
Example check_mount_points_siblings :
  Notebooks.check_mount_points id other_folder ["data"; "data2"]%string
  = Some Notebooks.MountIntoMountPoint.
Proof. vm_compute. reflexivity. Qed.
